(** * Facility search service: index construction and query engine

    A shallow embedding of [facility-search-api/src/services/facility.service.ts]
    (class [FacilityService]) and the properties of its three queries,
    [searchByName], [getById] and [filterByAmenities]; then of the routes of
    [routes/facility.routes.ts] with the middleware [authMiddleware] that
    guards them, and of the scan-based version of the service.

    Modelling decisions.
    - Strings are sequences of UTF-16 code units below 256 (the Latin-1 range),
      carried by [string]; [toLowerCase], [trim] and the regular expression
      [\s] are the ECMAScript functions restricted to that range.  There
      [toLowerCase] maps code unit by code unit; outside that range it does
      not (a capital sigma is lower-cased by its position in the word, and a
      string may change its length), so statements that need the lower case
      of a concatenation to be the concatenation of the lower cases say so.
    - [Map<string, Facility>] and the amenity [Map] are only read with [get]/[has]
      and written with [set]: they are finite maps ([gmap]).  The name index is
      also traversed with [entries()], so it is an association list in insertion
      order.
    - [Set<string>] objects are mutable and shared by reference: they live in a
      heap of cells, each cell holding the entry list of the set, where a
      deleted entry leaves an empty slot (the [[SetData]] list of ECMAScript),
      and iteration walks that list by index.
    - Methods run in a state monad over the fields of the service and the heap;
      [None] stands for an abrupt completion, or for a loop over a set that
      outgrew its bound.  The theorems below show that the constructor and
      the queries always return [Some] result.
    - [localeCompare] is the collation of the host: the service is parametric
      in it.  [Array.prototype.sort] is a stable insertion sort: this is the
      array that every stable sort returns when the comparator is a
      consistent comparison of the distinct elements ([sort_unique]).  The
      comparator of [searchByName] is one unless two results both equal the
      query; the statements about the ranking of the results leave that
      case out, for there the order depends on the algorithm of the engine.
    - The routes are [router.get(path, authMiddleware, handler)]: the router
      runs the middleware before the handler and tries the routes in the
      order of their registration.  What the libraries compute is not
      interpreted: the matching of paths by Express, the issue lists of the
      validation library and [verifyToken] are parameters (classes
      [Express], [Validator] and [Auth]). *)

From Stdlib Require Import ZArith Ascii String NArith Floats.
From stdpp Require Import base option list gmap strings sorting.

(** ** Strings *)

Module Js.

(** Code unit of a character. *)
Definition code (c : ascii) : N := N_of_ascii c.

(** [WhiteSpace] and [LineTerminator] code points below 256: TAB, LF, VT, FF,
    CR, SPACE and NO-BREAK SPACE.  This is both the class [\s] and the set of
    characters removed by [String.prototype.trim]. *)
Definition isWhiteSpace (c : ascii) : bool :=
  let n := code c in
  ((9 <=? n) && (n <=? 13) || (n =? 32) || (n =? 160))%N.

(** Lower-case mapping of one code unit: A-Z and the Latin-1 capitals
    U+00C0-U+00DE except the multiplication sign U+00D7. *)
Definition lowerChar (c : ascii) : ascii :=
  let n := code c in
  if ((65 <=? n) && (n <=? 90) || (192 <=? n) && (n <=? 222) && negb (n =? 215))%N
  then ascii_of_N (n + 32) else c.

(** [String.prototype.toLowerCase] on code units below 256, where it maps
    each code unit by itself. *)
Fixpoint toLowerCase (s : string) : string :=
  match s with
  | EmptyString => EmptyString
  | String c s' => String (lowerChar c) (toLowerCase s')
  end.

Fixpoint trimStart (s : string) : string :=
  match s with
  | EmptyString => EmptyString
  | String c s' => if isWhiteSpace c then trimStart s' else s
  end.

Fixpoint trimEnd (s : string) : string :=
  match s with
  | EmptyString => EmptyString
  | String c s' =>
      match trimEnd s' with
      | EmptyString => if isWhiteSpace c then EmptyString else String c EmptyString
      | r => String c r
      end
  end.

(** [String.prototype.trim]. *)
Definition trim (s : string) : string := trimEnd (trimStart s).

(** [s.startsWith(p)]. *)
Fixpoint startsWith (s p : string) {struct p} : bool :=
  match p, s with
  | EmptyString, _ => true
  | String a p', String b s' => bool_decide (a = b) && startsWith s' p'
  | String _ _, EmptyString => false
  end.

Definition beginsWithSpace (s : string) : bool :=
  match s with
  | String c _ => isWhiteSpace c
  | EmptyString => false
  end.

(** [s.split(/\s+/)]: the pieces between maximal runs of white space; a run
    at either end of the string leaves an empty piece there, and the empty
    string splits into one empty piece. *)
Fixpoint split (s : string) : list string :=
  match s with
  | EmptyString => [EmptyString]
  | String c s' =>
      if isWhiteSpace c then
        if beginsWithSpace s' then split s' else EmptyString :: split s'
      else
        match split s' with
        | p :: ps => String c p :: ps
        | [] => [String c EmptyString]
        end
  end.

(** The callbacks [w => w.length > 0] and [t => t.length > 0]. *)
Definition nonEmpty (w : string) : bool :=
  match w with EmptyString => false | String _ _ => true end.

(** [s.split(sep)] for a separator [sep] of one code unit: the pieces between
    the occurrences of [sep]; the empty string splits into one empty piece. *)
Fixpoint splitAt (sep : ascii) (s : string) : list string :=
  match s with
  | EmptyString => [EmptyString]
  | String c s' =>
      if bool_decide (c = sep) then EmptyString :: splitAt sep s'
      else
        match splitAt sep s' with
        | p :: ps => String c p :: ps
        | [] => [String c EmptyString]
        end
  end.

(** [s.slice(n)] for a natural number [n]. *)
Fixpoint slice (n : nat) (s : string) : string :=
  match n, s with
  | O, _ => s
  | S n', String _ s' => slice n' s'
  | S _, EmptyString => EmptyString
  end.

(** [s.replace(pattern, replacement)] for a string [pattern]: the first
    occurrence of [pattern] is replaced. *)
Fixpoint replace (pattern replacement s : string) {struct s} : string :=
  if startsWith s pattern
  then replacement +:+ slice (String.length pattern) s
  else
    match s with
    | EmptyString => EmptyString
    | String c s' => String c (replace pattern replacement s')
    end.

End Js.

(** ** Data model ([types/facility.ts]) *)

Record Location := { latitude : float; longitude : float }.

Module Facility.
Record t := {
  id : string;
  name : string;
  address : string;
  location : Location;
  facilities : list string
}.
End Facility.

Module FacilitySearchResult.
Record t := { id : string; name : string; address : string }.
End FacilitySearchResult.

(** The projection [{ id: facility.id, name: facility.name, address: facility.address }]. *)
Definition toResult (f : Facility.t) : FacilitySearchResult.t :=
  {| FacilitySearchResult.id := Facility.id f;
     FacilitySearchResult.name := Facility.name f;
     FacilitySearchResult.address := Facility.address f |}.

(** ** Set objects *)

(** Reference to a [Set<string>] object. *)
Abbreviation loc := nat (only parsing).

(** Entries of one set in insertion order; [None] is an entry emptied by
    [delete]. *)
Abbreviation SetData := (list (option string)) (only parsing).

Module SetData.
Definition live (d : SetData) : list string := omap (λ e, e) d.

Definition has (x : string) (d : SetData) : bool := bool_decide (Some x ∈ d).

Definition add (x : string) (d : SetData) : SetData :=
  if has x d then d else d ++ [Some x].

Fixpoint delete (x : string) (d : SetData) : SetData :=
  match d with
  | [] => []
  | e :: d' => if decide (e = Some x) then None :: d' else e :: delete x d'
  end.

Definition size (d : SetData) : nat := length (live d).
End SetData.

(** ** The service and its heap *)

Record State := {
  facilities : list Facility.t;
  (** [Map<string, Facility>] *)
  facilityIndex : gmap string Facility.t;
  (** [Map<string, Set<string>>], lower-case name token to set of identifiers *)
  nameIndex : list (string * loc);
  (** [Map<string, Set<string>>], lower-case amenity to set of identifiers *)
  amenityIndex : gmap string loc;
  (** the [Set] objects *)
  heap : list SetData;
  (** cost counter: entries of [nameIndex] visited by the scans of [searchByName] *)
  visited : nat
}.

Definition setHeap (h : list SetData) (st : State) : State :=
  {| facilities := facilities st; facilityIndex := facilityIndex st;
     nameIndex := nameIndex st; amenityIndex := amenityIndex st;
     heap := h; visited := visited st |}.

Definition setFacilityIndex (m : gmap string Facility.t) (st : State) : State :=
  {| facilities := facilities st; facilityIndex := m;
     nameIndex := nameIndex st; amenityIndex := amenityIndex st;
     heap := heap st; visited := visited st |}.

Definition setNameIndex (m : list (string * loc)) (st : State) : State :=
  {| facilities := facilities st; facilityIndex := facilityIndex st;
     nameIndex := m; amenityIndex := amenityIndex st;
     heap := heap st; visited := visited st |}.

Definition setAmenityIndex (m : gmap string loc) (st : State) : State :=
  {| facilities := facilities st; facilityIndex := facilityIndex st;
     nameIndex := nameIndex st; amenityIndex := m;
     heap := heap st; visited := visited st |}.

Definition setVisited (n : nat) (st : State) : State :=
  {| facilities := facilities st; facilityIndex := facilityIndex st;
     nameIndex := nameIndex st; amenityIndex := amenityIndex st;
     heap := heap st; visited := n |}.

(** Entries of the set object at [l].  A reference of the program always
    denotes an object; a location outside the heap reads as a set without
    entries, and a write to it is lost. *)
Definition cell (st : State) (l : loc) : SetData := default [] (heap st !! l).

(** ** The monad of methods *)

Definition M (A : Type) : Type := State → option (A * State).

Definition ret {A} (a : A) : M A := λ st, Some (a, st).

Definition bind {A B} (m : M A) (k : A → M B) : M B :=
  λ st, match m st with
        | Some (a, st') => k a st'
        | None => None
        end.

(** A [TypeError], e.g. a property read on [undefined]. *)
Definition throw {A} : M A := λ _, None.

Notation "'let!' x := m 'in' k" := (bind m (λ x, k))
  (at level 10, x name, m at level 100, k at level 200, only parsing).
Notation "'do!' m 'in' k" := (bind m (λ _, k))
  (at level 10, m at level 100, k at level 200, only parsing).

Definition get {A} (f : State → A) : M A := λ st, Some (f st, st).
Definition modify (f : State → State) : M unit := λ st, Some (tt, f st).

(** Monadic left fold: a [for ... of] loop over an array or over the entries
    of a map that the body does not write. *)
Fixpoint forEach {A B} (body : B → A → M A) (l : list B) (a : A) : M A :=
  match l with
  | [] => ret a
  | x :: l' => let! a' := body x a in forEach body l' a'
  end.

(** *** Operations on set objects *)

(** [new Set()] *)
Definition newSet : M loc :=
  λ st, Some (length (heap st), setHeap (heap st ++ [[]]) st).

Definition updCell (l : loc) (f : SetData → SetData) : M unit :=
  modify (λ st, setHeap (<[l := f (cell st l)]> (heap st)) st).

(** [s.add(x)], [s.delete(x)], [s.has(x)], [s.size] *)
Definition setAdd (l : loc) (x : string) : M unit := updCell l (SetData.add x).
Definition setDelete (l : loc) (x : string) : M unit := updCell l (SetData.delete x).
Definition setHas (l : loc) (x : string) : M bool := get (λ st, SetData.has x (cell st l)).
Definition setSize (l : loc) : M nat := get (λ st, SetData.size (cell st l)).

(** Iteration over a set, [for (const x of s)] and [s.forEach]: the iterator
    keeps an index into the entry list of [s], re-reads the list at each step,
    skips emptied entries and also visits entries appended meanwhile.  [fuel]
    bounds the number of entries visited; running out of it is [None]. *)
Fixpoint forOfFrom {A} (fuel : nat) (l : loc) (i : nat)
    (body : string → A → M A) (a : A) : M A :=
  λ st,
    match cell st l !! i with
    | None => Some (a, st)
    | Some e =>
        match fuel with
        | O => None
        | S fuel' =>
            match e with
            | None => forOfFrom fuel' l (S i) body a st
            | Some x =>
                match body x a st with
                | Some (a', st') => forOfFrom fuel' l (S i) body a' st'
                | None => None
                end
            end
        end
    end.

(** The loops of this service never append to the set they iterate, so the
    number of entries at loop entry is fuel enough (see [forOf_snapshot] and
    [retain_spec]). *)
Definition forOf {A} (l : loc) (body : string → A → M A) (a : A) : M A :=
  λ st, forOfFrom (length (cell st l)) l 0 body a st.

(** [new Set(iterable)]: a new set to which every element of [src] is added. *)
Definition newSetFrom (src : loc) : M loc :=
  let! m := newSet in
  do! forOf src (λ x _, setAdd m x) tt in
  ret m.

(** ** The name index as an insertion-ordered map *)

Module NameMap.
Fixpoint get (k : string) (m : list (string * loc)) : option loc :=
  match m with
  | [] => None
  | (k', v) :: m' => if decide (k' = k) then Some v else get k m'
  end.

Definition has (k : string) (m : list (string * loc)) : bool :=
  bool_decide (is_Some (get k m)).

(** [set] keeps the position of a key already present and appends a new
    key. *)
Fixpoint set (k : string) (v : loc) (m : list (string * loc)) : list (string * loc) :=
  match m with
  | [] => [(k, v)]
  | (k', v') :: m' => if decide (k' = k) then (k, v) :: m' else (k', v') :: set k v m'
  end.
End NameMap.

(** ** Collation *)

(** [String.prototype.localeCompare] is the collation of the host locale; the
    service is parametric in it. *)
Class Collator := { localeCompare : string → string → Z }.

(** A collation is a consistent comparison: zero on equal strings, sign
    reversed when the arguments are swapped, and transitive. *)
Class Consistent (collator : Collator) : Prop := {
  localeCompare_refl : ∀ a, localeCompare a a = 0%Z;
  localeCompare_swap : ∀ a b,
    Z.sgn (localeCompare b a) = (- Z.sgn (localeCompare a b))%Z;
  localeCompare_trans : ∀ a b c,
    (localeCompare a b ≤ 0)%Z → (localeCompare b c ≤ 0)%Z → (localeCompare a c ≤ 0)%Z
}.

(** [Array.prototype.sort(comparefn)] is stable, and every stable sort returns
    the same array when [comparefn] is a consistent comparison of the distinct
    elements ([sort_unique] below); insertion sort is taken here.  ECMAScript
    leaves the order to the implementation when [comparefn] is not
    consistent: on such an array the engine may return another permutation
    than this one.  (A sort compares elements of different positions: what
    [comparefn] answers for an element and itself is of no consequence.) *)
Module Array.
Section Sort.
Context {A : Type} (comparefn : A → A → Z).

Fixpoint insert (x : A) (l : list A) : list A :=
  match l with
  | [] => [x]
  | y :: l' => if (comparefn x y <=? 0)%Z then x :: y :: l' else y :: insert x l'
  end.

Fixpoint sort (l : list A) : list A :=
  match l with
  | [] => []
  | x :: l' => insert x (sort l')
  end.
End Sort.
End Array.

(** ** FacilityService *)

Module FacilityService.
Section Service.
Context {collator : Collator}.

(** [tokenizeName], lines 55-59. *)
Definition tokenizeName (name : string) : list string :=
  let normalized := Js.toLowerCase name in
  let words := filter (λ w, Js.nonEmpty w) (Js.split normalized) in
  words.

(** Lines 34-37: one iteration of the loop over the tokens of a name. *)
Definition indexToken (id token : string) : M unit :=
  let! present := get (λ st, NameMap.has token (nameIndex st)) in
  do! (if negb present
       then let! s := newSet in
            modify (λ st, setNameIndex (NameMap.set token s (nameIndex st)) st)
       else ret tt) in
  let! entry := get (λ st, NameMap.get token (nameIndex st)) in
  match entry with
  | Some s => setAdd s id
  | None => throw
  end.

(** Lines 42-46: one iteration of the loop over the amenities of a facility. *)
Definition indexAmenity (id amenity : string) : M unit :=
  let normalizedAmenity := Js.toLowerCase amenity in
  let! present := get (λ st, bool_decide (is_Some (amenityIndex st !! normalizedAmenity))) in
  do! (if negb present
       then let! s := newSet in
            modify (λ st, setAmenityIndex (<[normalizedAmenity := s]> (amenityIndex st)) st)
       else ret tt) in
  let! entry := get (λ st, amenityIndex st !! normalizedAmenity) in
  match entry with
  | Some s => setAdd s id
  | None => throw
  end.

(** Lines 28-47: the body of the loop over the facilities. *)
Definition indexFacility (facility : Facility.t) : M unit :=
  do! modify (λ st,
        setFacilityIndex (<[Facility.id facility := facility]> (facilityIndex st)) st) in
  do! forEach (λ token _, indexToken (Facility.id facility) token)
        (tokenizeName (Facility.name facility)) tt in
  forEach (λ amenity _, indexAmenity (Facility.id facility) amenity)
    (Facility.facilities facility) tt.

(** [buildIndexes], lines 26-49. *)
Definition buildIndexes : M unit :=
  let! fs := get facilities in
  forEach (λ facility _, indexFacility facility) fs tt.

(** The constructor, lines 14-20; [facilitiesData] is the parsed
    [assets/facilities.json]. *)
Definition constructor (facilitiesData : list Facility.t) : option State :=
  match buildIndexes {| facilities := facilitiesData; facilityIndex := ∅;
                        nameIndex := []; amenityIndex := ∅;
                        heap := []; visited := 0 |} with
  | Some (_, st) => Some st
  | None => None
  end.

(** [src.forEach(id => matchingIds.add(id))], lines 82 and 90. *)
Definition addAll (src matchingIds : loc) : M unit :=
  forOf src (λ id _, setAdd matchingIds id) tt.

(** Lines 88-92: one entry of [this.nameIndex.entries()]. *)
Definition scanEntry (matchingIds : loc) (queryToken : string)
    (entry : string * loc) : M unit :=
  let '(indexedToken, facilityIds) := entry in
  do! modify (λ st, setVisited (S (visited st)) st) in
  if negb (bool_decide (indexedToken = queryToken))
     && Js.startsWith indexedToken queryToken
  then addAll facilityIds matchingIds
  else ret tt.

(** Lines 79-92: the body of the loop over the query tokens. *)
Definition matchToken (matchingIds : loc) (queryToken : string) : M unit :=
  let! exactMatch := get (λ st, NameMap.get queryToken (nameIndex st)) in
  do! match exactMatch with
      | Some s => addAll s matchingIds
      | None => ret tt
      end in
  let! entries := get nameIndex in
  forEach (λ entry _, scanEntry matchingIds queryToken entry) entries tt.

(** Lines 96-106 and 186-196: identifiers to result projections. *)
Definition collect (matchingIds : loc) : M (list FacilitySearchResult.t) :=
  forOf matchingIds (λ id results,
    let! facility := get (λ st, facilityIndex st !! id) in
    ret (match facility with
         | Some f => results ++ [toResult f]
         | None => results
         end)) [].

(** The comparator of lines 109-126. *)
Definition relevance (normalizedQuery : string) (a b : FacilitySearchResult.t) : Z :=
  let aLower := Js.toLowerCase (FacilitySearchResult.name a) in
  let bLower := Js.toLowerCase (FacilitySearchResult.name b) in
  let queryLower := normalizedQuery in
  if bool_decide (aLower = queryLower) then (-1)%Z
  else if bool_decide (bLower = queryLower) then 1%Z
  else
    let aStarts := Js.startsWith aLower queryLower in
    let bStarts := Js.startsWith bLower queryLower in
    if aStarts && negb bStarts then (-1)%Z
    else if negb aStarts && bStarts then 1%Z
    else localeCompare (FacilitySearchResult.name a) (FacilitySearchResult.name b).

(** [searchByName], lines 67-127. *)
Definition searchByName (query : string) : M (list FacilitySearchResult.t) :=
  if negb (Js.nonEmpty query) || (String.length (Js.trim query) =? 0)%nat
  then ret []
  else
    let normalizedQuery := Js.trim (Js.toLowerCase query) in
    let queryTokens := filter (λ t, Js.nonEmpty t) (Js.split normalizedQuery) in
    let! matchingIds := newSet in
    do! forEach (λ queryToken _, matchToken matchingIds queryToken) queryTokens tt in
    let! results := collect matchingIds in
    ret (Array.sort (relevance normalizedQuery) results).

(** [getById], lines 135-140; [None] is [null]. *)
Definition getById (id : string) : M (option Facility.t) :=
  if negb (Js.nonEmpty id) then ret None
  else get (λ st, facilityIndex st !! id).

(** Lines 174-178: keep only the identifiers that are in both sets. *)
Definition retain (matchingIds amenityIds : loc) : M unit :=
  forOf matchingIds (λ id _,
    let! present := setHas amenityIds id in
    if negb present then setDelete matchingIds id else ret tt) tt.

(** Lines 166-183, the loop from [i = 1]; the result is [false] when the loop
    leaves the method with [return []]. *)
Fixpoint intersectRest (matchingIds : loc) (rest : list string) : M bool :=
  match rest with
  | [] => ret true
  | amenity :: rest' =>
      let! amenityIds := get (λ st, amenityIndex st !! amenity) in
      match amenityIds with
      | None => ret false
      | Some s =>
          let! n := setSize s in
          if (n =? 0)%nat then ret false
          else
            do! retain matchingIds s in
            let! k := setSize matchingIds in
            if (k =? 0)%nat then ret false
            else intersectRest matchingIds rest'
      end
  end.

(** [filterByAmenities], lines 148-199. *)
Definition filterByAmenities (amenities : list string) : M (list FacilitySearchResult.t) :=
  let normalizedAmenities := Js.toLowerCase <$> amenities in
  match normalizedAmenities with
  | [] => ret []
  | firstAmenity :: rest =>
      let! candidateIds := get (λ st, amenityIndex st !! firstAmenity) in
      match candidateIds with
      | None => ret []
      | Some c =>
          let! n := setSize c in
          if (n =? 0)%nat then ret []
          else
            let! matchingIds := newSetFrom c in
            let! complete := intersectRest matchingIds rest in
            if complete then collect matchingIds else ret []
      end
  end.

(** [getCount], lines 204-206. *)
Definition getCount : M nat := get (λ st, length (facilities st)).

End Service.
End FacilityService.

(** ** The route handlers ([routes/facility.routes.ts]) *)

(** Every route of the file is [router.get(path, authMiddleware, handler)].
    The handlers come first; the middleware and the router that runs it
    before them are below ([Middleware], [Router]). *)

(** [new Set(array)]: a new set to which every element of [xs] is added. *)
Definition newSetOf (xs : list string) : M loc :=
  let! m := newSet in
  do! forEach (λ x _, setAdd m x) xs tt in
  ret m.

(** [try { body } catch (error) { handler }]: the abrupt completions of the
    monad carry no value and do not keep the state reached. *)
Definition tryCatch {A} (body : M A) (handler : M A) : M A :=
  λ st, match body st with
        | Some r => Some r
        | None => handler st
        end.

(** A parameter of [req.query]: a string, or an array or nested object. *)
Inductive QueryValue := Str (s : string) | Other.

(** The issue lists of the validation library are not interpreted: a
    response carries what the library reports for the rejected input. *)
Class Validator := {
  Issues : Type;
  searchIssues : option QueryValue → option QueryValue → Issues;
  idIssues : gmap string string → Issues
}.

Module Routes.
Section Routes.
Context {collator : Collator} {validator : Validator}.

(** [req.query]; [None] is a parameter that the request does not have. *)
Record SearchQuery := {
  q : option QueryValue;
  amenities : option QueryValue
}.

(** The JSON bodies of the responses. *)
Inductive Body :=
| SearchResults (query : string) (count : nat) (results : list FacilitySearchResult.t)
| FacilityDetail (facility : Facility.t)
| Info (message : string) (totalFacilities : nat)
| Invalid (error : string) (details : Issues)
| Failure (error message : string)
(** [{ error: 'Internal server error', message }], where [message] is that
    of the exception caught *)
| InternalError.

Record Response := { status : nat; body : Body }.

(** [res.json(body)] and [res.status(code).json(body)]. *)
Definition json (b : Body) : Response := {| status := 200; body := b |}.
Definition statusJson (code : nat) (b : Body) : Response := {| status := code; body := b |}.

(** [searchQuerySchema.safeParse(req.query)], lines 9-12 and 28: [q] is a
    string of 1 to 100 code units and [amenities] is absent or a string. *)
Definition searchQuerySchema (query : SearchQuery) : option (string * option string) :=
  match q query with
  | Some (Str s) =>
      if (1 <=? String.length s) && (String.length s <=? 100) then
        match amenities query with
        | None => Some (s, None)
        | Some (Str a) => Some (s, Some a)
        | Some Other => None
        end
      else None
  | _ => None
  end.

(** [facilityIdSchema.safeParse(req.params)], lines 14-16 and 74: [id] is a
    string of at least one code unit. *)
Definition facilityIdSchema (params : gmap string string) : option string :=
  match params !! "id" with
  | Some id => if (1 <=? String.length id) then Some id else None
  | None => None
  end.

(** The catch clauses of lines 58-64, 96-102 and 116-122. *)
Definition internalError : M Response := ret (statusJson 500 InternalError).

(** The handler of [GET /api/facilities/search], lines 25-65: the function
    that runs when [authMiddleware] has called [next()]; [query] is
    [req.query]. *)
Definition search (query : SearchQuery) : M Response :=
  tryCatch
    (match searchQuerySchema query with
     | None =>
         ret (statusJson 400
                (Invalid "Invalid query parameters"
                   (searchIssues (q query) (amenities query))))
     | Some (q, amenities) =>
         let! results := FacilityService.searchByName q in
         let! results :=
           match amenities with
           | Some amenities =>
               if Js.nonEmpty amenities then
                 let amenityList :=
                   filter (λ a, Js.nonEmpty a) (Js.trim <$> Js.splitAt "," amenities) in
                 if (0 <? length amenityList) then
                   let! amenityResults := FacilityService.filterByAmenities amenityList in
                   let! amenityIds := newSetOf (FacilitySearchResult.id <$> amenityResults) in
                   get (λ st, filter (λ r, SetData.has (FacilitySearchResult.id r)
                                             (cell st amenityIds)) results)
                 else ret results
               else ret results
           | None => ret results
           end in
         ret (json (SearchResults q (length results) results))
     end)
    internalError.

(** The handler of [GET /api/facilities/:id], lines 71-103; [params] is
    [req.params]. *)
Definition getFacility (params : gmap string string) : M Response :=
  tryCatch
    (match facilityIdSchema params with
     | None => ret (statusJson 400 (Invalid "Invalid facility ID" (idIssues params)))
     | Some id =>
         let! facility := FacilityService.getById id in
         match facility with
         | None =>
             ret (statusJson 404
                    (Failure "Facility not found" ("No facility found with ID: " +:+ id)))
         | Some f => ret (json (FacilityDetail f))
         end
     end)
    internalError.

(** The handler of [GET /api/facilities], lines 110-123. *)
Definition index : M Response :=
  tryCatch
    (let! totalFacilities := FacilityService.getCount in
     ret (json (Info "Use /api/facilities/search?q=<query> to search facilities"
                  totalFacilities)))
    internalError.

End Routes.
End Routes.

(** ** The scan-based version of the service *)

(** The class [FacilityService] as it is without the amenity index: the
    names are indexed under their words and the prefixes of their words,
    [searchByName] scans the name index and [filterByAmenities] scans the
    records.  The cost counter is not kept. *)
Module ScanService.
Section Service.
Context {collator : Collator}.

(** [tokenizeName]: every word, followed by its prefixes
    [word.substring(0, i)] for [i] from 2 to [word.length]. *)
Definition tokenizeName (name : string) : list string :=
  let normalized := Js.toLowerCase name in
  let words := Js.split normalized in
  words ≫= λ word,
    word :: ((λ i, String.substring 0 i word) <$> seq 2 (String.length word - 1)).

(** The body of the loop over the facilities; the loop over the tokens is
    that of [FacilityService.indexToken]. *)
Definition indexFacility (facility : Facility.t) : M unit :=
  do! modify (λ st,
        setFacilityIndex (<[Facility.id facility := facility]> (facilityIndex st)) st) in
  forEach (λ token _, FacilityService.indexToken (Facility.id facility) token)
    (tokenizeName (Facility.name facility)) tt.

Definition buildIndexes : M unit :=
  let! fs := get facilities in
  forEach (λ facility _, indexFacility facility) fs tt.

Definition constructor (facilitiesData : list Facility.t) : option State :=
  match buildIndexes {| facilities := facilitiesData; facilityIndex := ∅;
                        nameIndex := []; amenityIndex := ∅;
                        heap := []; visited := 0 |} with
  | Some (_, st) => Some st
  | None => None
  end.

(** One entry of [this.nameIndex.entries()] in the scan of [searchByName]. *)
Definition scanEntry (matchingIds : loc) (token : string)
    (entry : string * loc) : M unit :=
  let '(indexedToken, facilityIds) := entry in
  if Js.startsWith indexedToken token
  then FacilityService.addAll facilityIds matchingIds
  else ret tt.

(** The body of the loop over the query tokens. *)
Definition matchToken (matchingIds : loc) (token : string) : M unit :=
  let! entries := get nameIndex in
  forEach (λ entry _, scanEntry matchingIds token entry) entries tt.

Definition searchByName (query : string) : M (list FacilitySearchResult.t) :=
  if negb (Js.nonEmpty query) || (String.length (Js.trim query) =? 0)%nat
  then ret []
  else
    let normalizedQuery := Js.trim (Js.toLowerCase query) in
    let queryTokens := Js.split normalizedQuery in
    let! matchingIds := newSet in
    do! forEach (λ token _, matchToken matchingIds token) queryTokens tt in
    let! results := FacilityService.collect matchingIds in
    ret (Array.sort (FacilityService.relevance normalizedQuery) results).

(** [this.facilityIndex.get(id) || null] *)
Definition getById (id : string) : M (option Facility.t) :=
  get (λ st, facilityIndex st !! id).

(** [filterByAmenities]: the records that carry every label, by a scan of
    the record sequence. *)
Definition filterByAmenities (amenities : list string) : M (list FacilitySearchResult.t) :=
  match amenities with
  | [] => ret []
  | _ =>
      let normalizedAmenities := Js.toLowerCase <$> amenities in
      let! fs := get facilities in
      let results :=
        filter (λ facility,
                  let facilityAmenities := Js.toLowerCase <$> Facility.facilities facility in
                  forallb (λ amenity, bool_decide (amenity ∈ facilityAmenities))
                    normalizedAmenities) fs in
      ret (toResult <$> results)
  end.

Definition getCount : M nat := get (λ st, length (facilities st)).

End Service.
End ScanService.

(** ** Authentication ([middleware/auth.middleware.ts]) *)

(** [verifyToken] of [assets/auth] is taken as a parameter: it returns the
    user of a token, or throws an [Error] with a message. *)
Class Auth := {
  User : Type;
  verifyToken : string → User + string
}.

Module Middleware.
Section Middleware.
Context {auth : Auth}.

(** What the middleware does with a request: it calls [next()] with
    [req.user] set, or it answers [res.status(401).json({ error, message })]. *)
Inductive Outcome :=
| Next (user : User)
| Unauthorized (error message : string).

(** The double quote. *)
Definition quote : string := String (ascii_of_nat 34) EmptyString.

(** [authMiddleware]; [authorization] is [req.headers.authorization]. *)
Definition authMiddleware (authorization : option string) : Outcome :=
  match authorization with
  | None => Unauthorized "Authentication required" "No authorization header provided"
  | Some authHeader =>
      if negb (Js.nonEmpty authHeader) then
        Unauthorized "Authentication required" "No authorization header provided"
      else if negb (Js.startsWith authHeader "Bearer ") then
        Unauthorized "Invalid authorization format"
          ("Authorization header must start with " +:+ quote +:+ "Bearer " +:+ quote)
      else
        let token := Js.replace "Bearer " "" authHeader in
        if negb (Js.nonEmpty token) then
          Unauthorized "Authentication required" "No token provided"
        else
          match verifyToken token with
          | inl user => Next user
          | inr message => Unauthorized "Invalid token" message
          end
  end.

End Middleware.
End Middleware.

(** ** The router ([routes/facility.routes.ts]) *)

(** Express matches the path of a request with the path of a route; how it
    does so (letter case, a trailing slash, the decoding of a parameter) is
    the library's and is not interpreted.  [matchPath route path] is [None]
    when [path] does not match the route path [route], and otherwise
    [req.params], the values of the parameters of [route]. *)
Class Express := { matchPath : string → string → option (gmap string string) }.

Module Router.
Section Router.
Context {collator : Collator} {validator : Validator} {auth : Auth} {express : Express}.

(** A [GET] request handed to the router, as far as the routes read it: its
    path below the mount point of the router, [req.headers.authorization]
    and [req.query]. *)
Record Request := {
  path : string;
  authorization : option string;
  query : Routes.SearchQuery
}.

(** The two handlers [authMiddleware, handler] of a route, lines 25, 71 and
    110: [handler] runs when the middleware calls [next()], and otherwise the
    middleware has answered 401.  No handler reads [req.user]. *)
Definition authenticated (authorization : option string)
    (handler : M Routes.Response) : M Routes.Response :=
  match Middleware.authMiddleware authorization with
  | Middleware.Next _ => handler
  | Middleware.Unauthorized error message =>
      ret (Routes.statusJson 401 (Routes.Failure error message))
  end.

(** [router.handle]: the routes are tried in the order of their
    registration, [/search] before [/:id] before [/], and the first whose
    path matches answers, for none of its handlers goes on to a later route.
    The result is [None] when no route matches: the request goes on to the
    handlers of the application. *)
Definition handle (req : Request) : M (option Routes.Response) :=
  match matchPath "/search" (path req) with
  | Some _ =>
      let! response := authenticated (authorization req) (Routes.search (query req)) in
      ret (Some response)
  | None =>
      match matchPath "/:id" (path req) with
      | Some params =>
          let! response := authenticated (authorization req) (Routes.getFacility params) in
          ret (Some response)
      | None =>
          match matchPath "/" (path req) with
          | Some _ =>
              let! response := authenticated (authorization req) Routes.index in
              ret (Some response)
          | None => ret None
          end
      end
  end.

End Router.
End Router.

(** ** A concrete collation and a small data set, for evaluation *)

(** Comparison by code units. *)
Definition codeUnitCompare (a b : string) : Z :=
  match String.compare a b with
  | Eq => 0%Z
  | Lt => (-1)%Z
  | Gt => 1%Z
  end.

#[export] Instance codeUnitCollator : Collator := {| localeCompare := codeUnitCompare |}.

Definition sydney : Location := {| latitude := (-33.875)%float; longitude := 151.25%float |}.

Definition facility (id name : string) (amenities : list string) : Facility.t :=
  {| Facility.id := id; Facility.name := name; Facility.address := "1 Market St";
     Facility.location := sydney; Facility.facilities := amenities |}.

(** The two records of the scenario of the specification. *)
Definition scenario : list Facility.t :=
  [ facility "f1" "City Fitness Central" ["Pool"; "Sauna"];
    facility "f2" "City Gym Plus" ["Pool"] ].

(** Two records under one identifier. *)
Definition duplicates : list Facility.t :=
  [ facility "f1" "First Gym" ["Pool"]; facility "f1" "Second Gym" ["Sauna"] ].

(** Two records with one display name, the larger identifier first. *)
Definition twins : list Facility.t :=
  [ facility "f2" "City Gym" ["Pool"]; facility "f1" "City Gym" ["Sauna"] ].

(** A name with white space in front. *)
Definition padded : list Facility.t :=
  [ facility "f1" "City Gym Plus" []; facility "f2" " City Gym" [] ].

(** A record without identifier. *)
Definition anonymous : list Facility.t := [ facility "" "Nameless Gym" ["Pool"] ].

(** Vocabularies of one and of three tokens that begin with ["a"]. *)
Definition smallVocabulary : list Facility.t := [ facility "f1" "Alpha" [] ].

Definition largeVocabulary : list Facility.t :=
  [ facility "f1" "Alpha"  []; facility "f2" "Bravo Charlie" [] ].

(** No validation library: the issue lists are empty. *)
#[export] Instance noIssues : Validator :=
  {| Issues := unit; searchIssues := λ _ _, tt; idIssues := λ _, tt |}.

(** One token and its user, for evaluation. *)
#[export] Instance oneToken : Auth :=
  {| User := string;
     verifyToken := λ token,
       if decide (token = "secret") then inl "user-123" else inr "Invalid token" |}.

(** The parameter of a path of one segment. *)
Definition segment (path : string) : option string :=
  match path with
  | String "/" s =>
      if Js.nonEmpty s && bool_decide (Js.splitAt "/" s = [s]) then Some s else None
  | _ => None
  end.

(** Paths matched letter by letter, and [/:id] by every path of one segment,
    for evaluation. *)
#[export] Instance literalPaths : Express :=
  {| matchPath := λ route path,
       if decide (route = "/:id") then (λ s, {[ "id" := s ]}) <$> segment path
       else if decide (route = path) then Some ∅ else None |}.

(** ** Vocabulary of the statements *)

(** The code units of a string. *)
Fixpoint chars (s : string) : list ascii :=
  match s with
  | EmptyString => []
  | String c s' => c :: chars s'
  end.

(** No white space in [s]. *)
Definition noSpace (s : string) : Prop :=
  Forall (λ c, Js.isWhiteSpace c = false) (chars s).

(** [s] is in lower case. *)
Definition lowered (s : string) : Prop :=
  Forall (λ c, Js.lowerChar c = c) (chars s).

(** Entries of a set after [add] of each element of [xs] in turn. *)
Definition addAllData (xs : list string) (d : SetData) : SetData :=
  foldl (λ d x, SetData.add x d) d xs.

(** Entries of a set after the deletion of the elements missing from [other]:
    each such entry is emptied in place. *)
Definition retainData (other d : SetData) : SetData :=
  (λ e, match e with
        | Some x => if SetData.has x other then Some x else None
        | None => None
        end) <$> d.

(** The identifiers held by a set object. *)
Definition members (st : State) (l : loc) : list string := SetData.live (cell st l).

(** The projections of the identifiers that the identifier map knows. *)
Definition project (st : State) (ids : list string) : list FacilitySearchResult.t :=
  omap (λ id, toResult <$> facilityIndex st !! id) ids.

(** The state of a service whose indexes refer to allocated sets and whose
    posting sets hold identifiers of the identifier map, each record of the
    map being filed under its own identifier. *)
Record indexed (st : State) : Prop := {
  indexed_name_alloc : ∀ t l, (t, l) ∈ nameIndex st → l < length (heap st);
  indexed_amenity_alloc : ∀ k l, amenityIndex st !! k = Some l → l < length (heap st);
  indexed_id : ∀ i f,
    facilityIndex st !! i = Some f → Facility.id f = i ∧ f ∈ facilities st;
  indexed_name_known : ∀ t l x,
    (t, l) ∈ nameIndex st → x ∈ members st l → is_Some (facilityIndex st !! x);
  indexed_amenity_known : ∀ k l x,
    amenityIndex st !! k = Some l → x ∈ members st l → is_Some (facilityIndex st !! x)
}.

(** What a pure read leaves as it was: the record sequence, the three maps,
    and every set object that existed before (new objects may have been
    allocated after them). *)
Definition preserved (st st' : State) : Prop :=
  facilities st' = facilities st ∧ facilityIndex st' = facilityIndex st ∧
  nameIndex st' = nameIndex st ∧ amenityIndex st' = amenityIndex st ∧
  heap st `prefix_of` heap st'.

(** [st'] is [st], or [st] with one more set object. *)
Definition oneMoreSet (st st' : State) : Prop :=
  st' = st ∨ ∃ d, st' = setHeap (heap st ++ [d]) st.

(** [x] is in the posting set of every label of [labels]. *)
Definition hasAll (st : State) (labels : list string) (x : string) : Prop :=
  ∀ a, a ∈ labels → ∃ l, amenityIndex st !! a = Some l ∧ x ∈ members st l.

(** The identifiers of a result sequence. *)
Definition ids (results : list FacilitySearchResult.t) : list string :=
  FacilitySearchResult.id <$> results.

(** The identifiers that the scan of lines 88-92 adds for one query token,
    in the order of the entries. *)
Definition scanHits (st : State) (queryToken : string)
    (entries : list (string * loc)) : list string :=
  entries ≫= λ entry,
    if negb (bool_decide (entry.1 = queryToken)) && Js.startsWith entry.1 queryToken
    then members st entry.2 else [].

(** The identifiers that lines 79-92 add for one query token. *)
Definition tokenHits (st : State) (queryToken : string) : list string :=
  from_option (members st) [] (NameMap.get queryToken (nameIndex st))
  ++ scanHits st queryToken (nameIndex st).

(** Lines 72-73. *)
Definition normalize (query : string) : string := Js.trim (Js.toLowerCase query).

Definition queryTokens (query : string) : list string :=
  filter (λ t, Js.nonEmpty t) (Js.split (normalize query)).

(** The identifiers matched by a query, in the order in which [matchingIds]
    receives them. *)
Definition matches (st : State) (query : string) : list string :=
  SetData.live (addAllData (queryTokens query ≫= tokenHits st) []).

(** The test of line 68. *)
Definition blank (query : string) : bool :=
  negb (Js.nonEmpty query) || (String.length (Js.trim query) =? 0).

(** The posting list of a name token and of an amenity label. *)
Definition namePosting (st : State) (t : string) : list string :=
  from_option (members st) [] (NameMap.get t (nameIndex st)).

Definition amenityPosting (st : State) (a : string) : list string :=
  from_option (members st) [] (amenityIndex st !! a).

(** Every key of the two indexes owns a set object of its own. *)
Record separated (st : State) : Prop := {
  separated_keys : NoDup (nameIndex st).*1;
  separated_name_alloc : ∀ t l,
    NameMap.get t (nameIndex st) = Some l → l < length (heap st);
  separated_amenity_alloc : ∀ a l,
    amenityIndex st !! a = Some l → l < length (heap st);
  separated_name : ∀ t1 t2 l,
    NameMap.get t1 (nameIndex st) = Some l → NameMap.get t2 (nameIndex st) = Some l →
    t1 = t2;
  separated_amenity : ∀ a1 a2 l,
    amenityIndex st !! a1 = Some l → amenityIndex st !! a2 = Some l → a1 = a2;
  separated_cross : ∀ t a l,
    NameMap.get t (nameIndex st) = Some l → amenityIndex st !! a = Some l → False
}.

(** The identifier map after the records [done]: a later record replaces an
    earlier one with the same identifier. *)
Definition idMap (done : list Facility.t) : gmap string Facility.t :=
  list_to_map (reverse ((λ f, (Facility.id f, f)) <$> done)).

(** The indexes hold exactly the records [done]. *)
Record built (done : list Facility.t) (st : State) : Prop := {
  built_separated : separated st;
  built_ids : facilityIndex st = idMap done;
  built_names : ∀ t x,
    x ∈ namePosting st t ↔
    ∃ f, f ∈ done ∧ Facility.id f = x ∧ t ∈ FacilityService.tokenizeName (Facility.name f);
  built_amenities : ∀ a x,
    x ∈ amenityPosting st a ↔
    ∃ f, f ∈ done ∧ Facility.id f = x ∧ a ∈ Js.toLowerCase <$> Facility.facilities f;
  built_visited : visited st = 0
}.

(** The tier of a result for a normalized query: 0 when the lower-case name
    is the query, 1 when it starts with the query, 2 otherwise. *)
Definition tier (normalizedQuery : string) (r : FacilitySearchResult.t) : nat :=
  let lower := Js.toLowerCase (FacilitySearchResult.name r) in
  if bool_decide (lower = normalizedQuery) then 0
  else if Js.startsWith lower normalizedQuery then 1 else 2.

(** The records whose lower-case name is the normalized query. *)
Definition exactMatches (data : list Facility.t) (query : string) : list Facility.t :=
  filter (λ f, Js.toLowerCase (Facility.name f) = normalize query) data.

(** Every code unit of [s] is white space. *)
Definition allSpace (s : string) : Prop :=
  Forall (λ c, Js.isWhiteSpace c = true) (chars s).

(** The code units of [s] that are not white space. *)
Fixpoint unspaced (s : string) : string :=
  match s with
  | EmptyString => EmptyString
  | String c s' => if Js.isWhiteSpace c then unspaced s' else String c (unspaced s')
  end.

(** A record carries the label [a], up to letter case. *)
Definition carries (f : Facility.t) (a : string) : Prop :=
  ∃ b, b ∈ Facility.facilities f ∧ Js.toLowerCase b = Js.toLowerCase a.

(** Line 45: the labels of the [amenities] parameter. *)
Definition amenityList (amenities : string) : list string :=
  filter (λ a, Js.nonEmpty a) (Js.trim <$> Js.splitAt "," amenities).

(** The entry list of the posting set of an amenity label; a label that the
    index does not have reads as the empty list. *)
Definition amenityCell (st : State) (a : string) : SetData :=
  from_option (cell st) [] (amenityIndex st !! a).

(** The entries of the posting set of the key [k] after the additions
    [events], each a key and an identifier, in turn. *)
Definition postings (events : list (string * string)) (k : string) (d : SetData) : SetData :=
  foldl (λ d e, if decide (e.1 = k) then SetData.add e.2 d else d) d events.

(** The additions to the amenity index that lines 41-47 make for the records
    [done]. *)
Definition amenityEvents (done : list Facility.t) : list (string * string) :=
  done ≫= λ f, (λ a, (Js.toLowerCase a, Facility.id f)) <$> Facility.facilities f.

(** The identifiers of [xs] that the posting set of every label of [labels]
    holds, in the order of [xs]. *)
Definition survivors (st : State) (labels : list string) (xs : list string) : list string :=
  foldl (λ xs a, filter (λ x, x ∈ amenityPosting st a) xs) xs labels.

(** The test of the scan: every label of [labels] is, up to letter case, a
    label of the record. *)
Definition carriesAll (labels : list string) (f : Facility.t) : bool :=
  forallb (λ amenity, bool_decide (amenity ∈ Js.toLowerCase <$> Facility.facilities f))
    (Js.toLowerCase <$> labels).

(** The identifiers that the scan of the scan-based [searchByName] adds for one
    query token, in the order of the entries. *)
Definition scanAll (st : State) (token : string) (entries : list (string * loc)) : list string :=
  entries ≫= λ entry,
    if Js.startsWith entry.1 token then members st entry.2 else [].

(** The name index of the scan-based service holds exactly the records
    [done]. *)
Record builtScan (done : list Facility.t) (st : State) : Prop := {
  builtScan_separated : separated st;
  builtScan_ids : facilityIndex st = idMap done;
  builtScan_names : ∀ t x,
    x ∈ namePosting st t ↔
    ∃ f, f ∈ done ∧ Facility.id f = x ∧ t ∈ ScanService.tokenizeName (Facility.name f)
}.

(** The last code unit of [s] is white space. *)
Fixpoint endsWithSpace (s : string) : bool :=
  match s with
  | EmptyString => false
  | String c s' =>
      match s' with
      | EmptyString => Js.isWhiteSpace c
      | String _ _ => endsWithSpace s'
      end
  end.

(** * Properties *)

Example scenario_answers :
  ∃ st st1 st2,
    FacilityService.constructor scenario = Some st ∧
    (ids <$> (fst <$> FacilityService.searchByName "city" st)) = Some ["f1"; "f2"] ∧
    FacilityService.searchByName "city" st
      = Some ([toResult (facility "f1" "City Fitness Central" ["Pool"; "Sauna"]);
               toResult (facility "f2" "City Gym Plus" ["Pool"])], st1) ∧
    FacilityService.filterByAmenities ["Pool"; "Sauna"] st
      = Some ([toResult (facility "f1" "City Fitness Central" ["Pool"; "Sauna"])], st2) ∧
    FacilityService.searchByName "" st = Some ([], st) ∧
    FacilityService.filterByAmenities [] st = Some ([], st) ∧
    FacilityService.getById "does-not-exist" st = Some (None, st).
Proof.
  eexists _, _, _. split; [vm_compute; reflexivity|].
  split; [vm_compute; reflexivity|]. split; [vm_compute; reflexivity|].
  split; [vm_compute; reflexivity|]. split; [vm_compute; reflexivity|].
  split; vm_compute; reflexivity.
Qed.

Example split_examples :
  Js.split "  a b  c " = [""; "a"; "b"; "c"; ""] ∧ Js.split "" = [""] ∧
  Js.split "   " = [""; ""] ∧ Js.trim "  a b  " = "a b" ∧
  Js.toLowerCase "City Gym" = "city gym".
Proof. repeat split; reflexivity. Qed.

(** ** Strings *)

Lemma lowerChar_idem c : Js.lowerChar (Js.lowerChar c) = Js.lowerChar c.
Proof. by destruct c as [[] [] [] [] [] [] [] []]; vm_compute. Qed.

Lemma lowerChar_space c : Js.isWhiteSpace (Js.lowerChar c) = Js.isWhiteSpace c.
Proof. by destruct c as [[] [] [] [] [] [] [] []]; vm_compute. Qed.

Lemma toLowerCase_lowered s : lowered (Js.toLowerCase s).
Proof.
  induction s as [|c s IH]; [constructor|].
  constructor; [apply lowerChar_idem | exact IH].
Qed.

Lemma toLowerCase_id s : lowered s → Js.toLowerCase s = s.
Proof.
  induction s as [|c s IH]; [done|].
  intros [Hc Hs]%Forall_cons. simpl. by rewrite Hc, IH.
Qed.

Lemma toLowerCase_idem s : Js.toLowerCase (Js.toLowerCase s) = Js.toLowerCase s.
Proof. apply toLowerCase_id, toLowerCase_lowered. Qed.

Lemma chars_app p r : chars (p +:+ r) = chars p ++ chars r.
Proof. induction p as [|c p IH]; [done|]. simpl. by rewrite <-IH. Qed.

Lemma split_not_nil s : Js.split s ≠ [].
Proof.
  induction s as [|c s IH]; [done|]. simpl.
  destruct (Js.isWhiteSpace c); [by destruct (Js.beginsWithSpace s)|].
  by destruct (Js.split s).
Qed.

(** Every piece is made of characters of the string. *)
Lemma split_chars (P : ascii → Prop) s :
  Forall P (chars s) → Forall (λ w, Forall P (chars w)) (Js.split s).
Proof.
  induction s as [|c s IH]; simpl.
  - intros _. repeat constructor.
  - intros [Hc Hs]%Forall_cons. specialize (IH Hs).
    destruct (Js.isWhiteSpace c).
    + destruct (Js.beginsWithSpace s); [done|]. constructor; [constructor|done].
    + destruct (Js.split s) as [|w ws]; [repeat constructor; done|].
      apply Forall_cons in IH as [Hw Hws].
      constructor; [by constructor|done].
Qed.

(** No piece contains white space. *)
Lemma split_noSpace s : Forall noSpace (Js.split s).
Proof.
  induction s as [|c s IH]; simpl.
  - repeat constructor.
  - destruct (Js.isWhiteSpace c) eqn:Hc.
    + destruct (Js.beginsWithSpace s); [done|]. constructor; [constructor|done].
    + destruct (Js.split s) as [|w ws]; [repeat constructor; done|].
      apply Forall_cons in IH as [Hw Hws].
      constructor; [by constructor|done].
Qed.

(** A string without white space is its only piece. *)
Lemma split_word s : noSpace s → Js.split s = [s].
Proof.
  induction s as [|c s IH]; [done|].
  intros [Hc Hs]%Forall_cons. simpl. by rewrite Hc, IH.
Qed.

Lemma trimStart_word s : noSpace s → Js.trimStart s = s.
Proof. destruct s as [|c s]; [done|]. intros [Hc _]%Forall_cons. simpl. by rewrite Hc. Qed.

Lemma trimEnd_word s : noSpace s → Js.trimEnd s = s.
Proof.
  induction s as [|c s IH]; [done|].
  intros [Hc Hs]%Forall_cons. simpl. rewrite IH, Hc by done. by destruct s.
Qed.

Lemma trim_word s : noSpace s → Js.trim s = s.
Proof. intros H. unfold Js.trim. by rewrite trimStart_word, trimEnd_word. Qed.

Lemma startsWith_app p r : Js.startsWith (p +:+ r) p = true.
Proof.
  induction p as [|c p IH]; [done|]. simpl.
  rewrite bool_decide_eq_true_2 by done. exact IH.
Qed.

Lemma startsWith_refl s : Js.startsWith s s = true.
Proof.
  induction s as [|c s IH]; [done|]. simpl. by rewrite bool_decide_eq_true_2.
Qed.

(** The tokens of a name are non-empty lower-case words. *)
Lemma tokenizeName_token name t :
  t ∈ FacilityService.tokenizeName name → t ≠ "" ∧ noSpace t ∧ lowered t.
Proof.
  unfold FacilityService.tokenizeName. intros [Hne Ht]%list_elem_of_filter.
  split; [by destruct t|]. split.
  - by eapply Forall_forall in Ht; [|apply split_noSpace].
  - eapply Forall_forall in Ht; [exact Ht|].
    apply (split_chars (λ c, Js.lowerChar c = c)), toLowerCase_lowered.
Qed.

(** A non-empty prefix of a token is a query that normalizes to itself and
    tokenizes to itself alone. *)
Lemma prefix_query p r :
  p ≠ "" → noSpace (p +:+ r) → lowered (p +:+ r) →
  Js.nonEmpty p = true ∧ Js.trim p = p ∧ Js.trim (Js.toLowerCase p) = p ∧
  filter (λ t, Js.nonEmpty t) (Js.split p) = [p].
Proof.
  intros Hne Hsp Hlo.
  assert (noSpace p) as Hp.
  { unfold noSpace in *. rewrite chars_app in Hsp. by apply Forall_app in Hsp as [? _]. }
  assert (lowered p) as Hl.
  { unfold lowered in *. rewrite chars_app in Hlo. by apply Forall_app in Hlo as [? _]. }
  assert (Js.nonEmpty p = true) as Hn by (by destruct p).
  rewrite toLowerCase_id, split_word, trim_word by done.
  repeat split; try done.
  rewrite filter_cons_True by (by rewrite Hn). done.
Qed.

(** ** Set entries *)

Lemma live_app d1 d2 : SetData.live (d1 ++ d2) = SetData.live d1 ++ SetData.live d2.
Proof. apply omap_app. Qed.

Lemma elem_of_live x d : x ∈ SetData.live d ↔ Some x ∈ d.
Proof.
  unfold SetData.live. rewrite list_elem_of_omap. split.
  - by intros (e & He & ->).
  - intros He. by exists (Some x).
Qed.

Lemma has_true x d : SetData.has x d = true ↔ x ∈ SetData.live d.
Proof. unfold SetData.has. by rewrite bool_decide_eq_true, elem_of_live. Qed.

Lemma has_false x d : SetData.has x d = false ↔ x ∉ SetData.live d.
Proof. unfold SetData.has. by rewrite bool_decide_eq_false, elem_of_live. Qed.

Lemma elem_of_live_add y x d :
  y ∈ SetData.live (SetData.add x d) ↔ y = x ∨ y ∈ SetData.live d.
Proof.
  unfold SetData.add. destruct (SetData.has x d) eqn:Hx.
  - apply has_true in Hx. split; [tauto|]. by intros [->|?].
  - rewrite live_app, elem_of_app. simpl. rewrite list_elem_of_singleton. tauto.
Qed.

Lemma NoDup_live_add x d : NoDup (SetData.live d) → NoDup (SetData.live (SetData.add x d)).
Proof.
  intros Hd. unfold SetData.add. destruct (SetData.has x d) eqn:Hx; [done|].
  apply has_false in Hx. rewrite live_app. simpl.
  apply NoDup_app. split; [done|]. split; [|apply NoDup_singleton].
  intros y Hy ->%list_elem_of_singleton. done.
Qed.

Lemma elem_of_live_addAll y xs d :
  y ∈ SetData.live (addAllData xs d) ↔ y ∈ xs ∨ y ∈ SetData.live d.
Proof.
  revert d. induction xs as [|x xs IH]; intros d.
  - simpl. rewrite elem_of_nil. tauto.
  - change (addAllData (x :: xs) d) with (addAllData xs (SetData.add x d)).
    rewrite IH, elem_of_live_add, elem_of_cons. tauto.
Qed.

Lemma NoDup_live_addAll xs d :
  NoDup (SetData.live d) → NoDup (SetData.live (addAllData xs d)).
Proof.
  revert d. induction xs as [|x xs IH]; intros d Hd; [done|].
  apply IH, NoDup_live_add, Hd.
Qed.

Lemma addAllData_app xs ys d : addAllData (xs ++ ys) d = addAllData ys (addAllData xs d).
Proof. apply foldl_app. Qed.

Lemma delete_app_fresh x d1 d2 :
  Some x ∉ d1 → SetData.delete x (d1 ++ Some x :: d2) = d1 ++ None :: d2.
Proof.
  induction d1 as [|e d1 IH]; simpl; intros Hx.
  - by rewrite decide_True.
  - apply not_elem_of_cons in Hx as [Hne Hx].
    rewrite decide_False by done. by rewrite IH.
Qed.

Lemma live_retainData other d :
  SetData.live (retainData other d)
  = filter (λ x, x ∈ SetData.live other) (SetData.live d).
Proof.
  induction d as [|[x|] d IH]; simpl; [done| |done].
  destruct (SetData.has x other) eqn:Hx; simpl.
  - apply has_true in Hx. rewrite filter_cons_True by done. by rewrite <-IH.
  - apply has_false in Hx. by rewrite filter_cons_False.
Qed.

Lemma retainData_app other d1 d2 :
  retainData other (d1 ++ d2) = retainData other d1 ++ retainData other d2.
Proof. apply fmap_app. Qed.

Lemma length_retainData other d : length (retainData other d) = length d.
Proof. apply length_fmap. Qed.

Lemma elem_of_retainData x other d :
  Some x ∈ retainData other d → Some x ∈ d.
Proof.
  intros H. apply elem_of_live. apply elem_of_live in H.
  rewrite live_retainData in H. by apply list_elem_of_filter in H as [_ ?].
Qed.

(** ** Heap cells *)

Lemma setHeap_id st : setHeap (heap st) st = st.
Proof. by destruct st. Qed.

Lemma cell_lookup st l d : heap st !! l = Some d → cell st l = d.
Proof. unfold cell. by intros ->. Qed.

Lemma cell_is_Some st l : l < length (heap st) → heap st !! l = Some (cell st l).
Proof.
  intros Hl. destruct (lookup_lt_is_Some_2 _ _ Hl) as [d Hd].
  by rewrite (cell_lookup _ _ _ Hd).
Qed.

Lemma cell_insert_eq st h l d :
  l < length h → cell (setHeap (<[l := d]> h) st) l = d.
Proof. intros Hl. unfold cell. simpl. by rewrite list_lookup_insert_eq. Qed.

Lemma cell_insert_ne st h l l' d :
  l ≠ l' → cell (setHeap (<[l := d]> h) st) l' = default [] (h !! l').
Proof. intros Hl. unfold cell. simpl. by rewrite list_lookup_insert_ne. Qed.

Lemma insert_cell_id st l : <[l := cell st l]> (heap st) = heap st.
Proof.
  destruct (decide (l < length (heap st))) as [Hl|Hl].
  - apply list_insert_id, cell_is_Some, Hl.
  - apply list_insert_ge. lia.
Qed.

Lemma cell_nonempty_lt st l : cell st l ≠ [] → l < length (heap st).
Proof.
  unfold cell. intros H. apply lookup_lt_is_Some.
  destruct (heap st !! l); [eauto|done].
Qed.

(** ** Loops over sets *)

(** A loop whose body leaves the iterated set alone runs over the elements the
    set holds at loop entry, and always has fuel enough. *)
Lemma forOfFrom_snapshot {A} l (body : string → A → M A) :
  (∀ x a st a' st', body x a st = Some (a', st') → cell st' l = cell st l) →
  ∀ fuel i a st, i + fuel = length (cell st l) ∨ length (cell st l) ≤ i →
    forOfFrom fuel l i body a st
    = forEach body (SetData.live (drop i (cell st l))) a st.
Proof.
  intros Hbody. induction fuel as [|fuel IH]; intros i a st Hi.
  - assert (length (cell st l) ≤ i) as Hge by lia.
    simpl. rewrite (lookup_ge_None_2 _ _ Hge), drop_ge by done. done.
  - destruct (cell st l !! i) as [e|] eqn:He.
    + pose proof (lookup_lt_Some _ _ _ He) as Hlt.
      simpl. rewrite He. rewrite (drop_S _ _ _ He).
      destruct e as [x|]; simpl.
      * unfold bind. destruct (body x a st) as [[a' st']|] eqn:Hb; [|done].
        pose proof (Hbody _ _ _ _ _ Hb) as Hc.
        rewrite IH by (rewrite Hc; lia). by rewrite Hc.
      * apply IH. lia.
    + apply lookup_ge_None_1 in He as Hge.
      simpl. rewrite (lookup_ge_None_2 _ _ Hge), drop_ge by done. done.
Qed.

Lemma forOf_snapshot {A} l (body : string → A → M A) a st :
  (∀ x a st a' st', body x a st = Some (a', st') → cell st' l = cell st l) →
  forOf l body a st = forEach body (members st l) a st.
Proof.
  intros Hbody. unfold forOf, members.
  rewrite (forOfFrom_snapshot l body Hbody) by lia. by rewrite drop_0.
Qed.

Lemma forEach_setAdd m xs st :
  m < length (heap st) →
  forEach (λ x _, setAdd m x) xs tt st
  = Some (tt, setHeap (<[m := addAllData xs (cell st m)]> (heap st)) st).
Proof.
  revert st. induction xs as [|x xs IH]; intros st Hm; simpl.
  - unfold ret. by rewrite insert_cell_id, setHeap_id.
  - unfold bind, setAdd, updCell, modify.
    rewrite IH by (simpl; by rewrite length_insert).
    rewrite cell_insert_eq by done. simpl.
    by rewrite list_insert_insert_eq.
Qed.

(** [src.forEach(id => dst.add(id))] for two distinct sets. *)
Lemma addAll_spec src dst st :
  src ≠ dst → dst < length (heap st) →
  FacilityService.addAll src dst st
  = Some (tt, setHeap (<[dst := addAllData (members st src) (cell st dst)]> (heap st)) st).
Proof.
  intros Hne Hdst. unfold FacilityService.addAll.
  rewrite forOf_snapshot.
  - by apply forEach_setAdd.
  - intros x [] st1 [] st2 [= <-]. unfold cell. simpl.
    by rewrite list_lookup_insert_ne.
Qed.

Lemma forEach_collect st ids results :
  forEach (λ id results,
      let! facility := get (λ st, facilityIndex st !! id) in
      ret (match facility with
           | Some f => results ++ [toResult f]
           | None => results
           end)) ids results st
  = Some (results ++ project st ids, st).
Proof.
  revert results. induction ids as [|id ids IH]; intros results; simpl.
  - unfold ret. by rewrite app_nil_r.
  - unfold bind at 1. unfold bind at 1. unfold get at 1. unfold ret at 1.
    rewrite IH. unfold project. simpl.
    destruct (facilityIndex st !! id) as [f|]; simpl; [|done].
    by rewrite <-app_assoc.
Qed.

(** The result loop reads the set and the identifier map only. *)
Lemma collect_spec m st :
  FacilityService.collect m st = Some (project st (members st m), st).
Proof.
  unfold FacilityService.collect. rewrite forOf_snapshot.
  - by rewrite forEach_collect.
  - intros x a st1 a' st2. unfold bind, get, ret. by intros [= _ ->].
Qed.

(** The deletion loop of lines 174-178: the iterated set is the set deleted
    from, entry [i] is emptied when the iterator stands on it, and the entries
    are walked to the end. *)
Lemma forOfFrom_retain m a st d :
  m < length (heap st) → a ≠ m → cell st m = d → NoDup (SetData.live d) →
  ∀ fuel i, i + fuel = length d →
    forOfFrom fuel m i (λ id _,
        let! present := setHas a id in
        if negb present then setDelete m id else ret tt) tt
      (setHeap (<[m := retainData (cell st a) (take i d) ++ drop i d]> (heap st)) st)
    = Some (tt, setHeap (<[m := retainData (cell st a) d]> (heap st)) st).
Proof.
  intros Hm Hne Hd Hnd. induction fuel as [|fuel IH]; intros i Hi.
  - simpl. rewrite cell_insert_eq by done.
    rewrite take_ge, drop_ge, app_nil_r by lia.
    rewrite lookup_ge_None_2; [done|]. rewrite length_retainData. lia.
  - assert (i < length d) as Hlt by lia.
    destruct (lookup_lt_is_Some_2 _ _ Hlt) as [e He].
    simpl. rewrite cell_insert_eq by done.
    rewrite lookup_app_r by (rewrite length_retainData, length_take; lia).
    rewrite length_retainData, length_take, Nat.min_l, Nat.sub_diag by lia.
    rewrite (drop_S _ _ _ He). simpl.
    assert (take (S i) d = take i d ++ [e]) as Htake by by apply take_S_r.
    destruct e as [x|].
    + unfold bind, setHas, get.
      rewrite cell_insert_ne by done.
      change (default [] (heap st !! a)) with (cell st a).
      destruct (SetData.has x (cell st a)) eqn:Hx; simpl.
      * unfold ret. rewrite <-(IH (S i)) by lia. rewrite Htake.
        rewrite retainData_app. simpl. rewrite Hx. by rewrite <-app_assoc.
      * unfold setDelete, updCell, modify. rewrite cell_insert_eq by done. simpl.
        rewrite list_insert_insert_eq.
        rewrite delete_app_fresh.
        -- rewrite <-(IH (S i)) by lia. rewrite Htake.
           rewrite retainData_app. simpl. rewrite Hx. by rewrite <-app_assoc.
        -- intros Hin%elem_of_retainData.
           rewrite <-(take_drop i d), (drop_S _ _ _ He), live_app in Hnd.
           apply NoDup_app in Hnd as (_ & Hnd & _).
           apply (Hnd x); [by apply elem_of_live|simpl; left].
    + rewrite <-(IH (S i)) by lia. rewrite Htake.
      rewrite retainData_app. simpl. by rewrite <-app_assoc.
Qed.

Lemma retain_spec m a st :
  m < length (heap st) → a ≠ m → NoDup (members st m) →
  FacilityService.retain m a st
  = Some (tt, setHeap (<[m := retainData (cell st a) (cell st m)]> (heap st)) st).
Proof.
  intros Hm Hne Hnd. unfold FacilityService.retain, forOf.
  rewrite <-(forOfFrom_retain m a st (cell st m) Hm Hne eq_refl Hnd (length (cell st m)) 0)
    by done.
  simpl. rewrite drop_0. by rewrite insert_cell_id, setHeap_id.
Qed.

Lemma newSet_spec st :
  newSet st = Some (length (heap st), setHeap (heap st ++ [[]]) st).
Proof. done. Qed.

(** [new Set(src)] is a new object holding the elements of [src], without
    empty entries. *)
Lemma newSetFrom_spec src st :
  src < length (heap st) →
  newSetFrom src st
  = Some (length (heap st), setHeap (heap st ++ [addAllData (members st src) []]) st).
Proof.
  intros Hsrc. unfold newSetFrom, bind. rewrite newSet_spec.
  rewrite forOf_snapshot.
  - rewrite forEach_setAdd by (simpl; rewrite length_app; simpl; lia).
    unfold ret, members, cell. simpl.
    rewrite lookup_app_l by done.
    rewrite lookup_app_r, Nat.sub_diag by done. simpl.
    rewrite insert_app_r_alt, Nat.sub_diag by done. done.
  - intros x [] st1 [] st2 [= <-]. unfold cell. simpl.
    rewrite list_lookup_insert_ne; [done|]. lia.
Qed.

(** ** Pure reads *)

Lemma preserved_refl st : preserved st st.
Proof. by repeat split. Qed.

Lemma preserved_alloc st d v :
  preserved st (setVisited v (setHeap (heap st ++ [d]) st)).
Proof. repeat split; simpl. by apply prefix_app_r. Qed.

Lemma oneMoreSet_preserved st st' :
  oneMoreSet st st' → preserved st st' ∧ visited st' = visited st.
Proof.
  intros [->|[d ->]]; (split; [|done]).
  - apply preserved_refl.
  - apply (preserved_alloc st d (visited st)).
Qed.

Lemma preserved_members st st' l :
  preserved st st' → l < length (heap st) → members st' l = members st l.
Proof.
  intros (_ & _ & _ & _ & [k Hk]) Hl. unfold members, cell.
  by rewrite Hk, lookup_app_l.
Qed.

Lemma indexed_preserved st st' : indexed st → preserved st st' → indexed st'.
Proof.
  intros [H1 H2 H3 H4 H5] Hp.
  pose proof Hp as (Hf & Hi & Hn & Ha & [k Hk]).
  assert (length (heap st) ≤ length (heap st')) as Hlen
    by (rewrite Hk, length_app; lia).
  split.
  - intros t l Htl. rewrite Hn in Htl. specialize (H1 _ _ Htl). lia.
  - intros a l Hal. rewrite Ha in Hal. specialize (H2 _ _ Hal). lia.
  - intros i f Hif. rewrite Hi in Hif. rewrite Hf. eauto.
  - intros t l x Htl Hx. rewrite Hn in Htl. rewrite Hi.
    rewrite (preserved_members _ _ _ Hp) in Hx by eauto. eauto.
  - intros a l x Hal Hx. rewrite Ha in Hal. rewrite Hi.
    rewrite (preserved_members _ _ _ Hp) in Hx by eauto. eauto.
Qed.

(** ** Result projections *)

Lemma elem_of_project st r xs :
  r ∈ project st xs ↔
  ∃ x f, x ∈ xs ∧ facilityIndex st !! x = Some f ∧ r = toResult f.
Proof.
  unfold project. rewrite list_elem_of_omap. split.
  - intros (x & Hx & Hr). destruct (facilityIndex st !! x) as [f|] eqn:Hf; [|done].
    injection Hr as <-. eauto.
  - intros (x & f & Hx & Hf & ->). exists x. by rewrite Hf.
Qed.

Lemma ids_project st xs :
  (∀ i f, facilityIndex st !! i = Some f → Facility.id f = i) →
  ids (project st xs) = filter (λ x, is_Some (facilityIndex st !! x)) xs.
Proof.
  intros Hid. induction xs as [|x xs IH]; [done|].
  unfold project, ids in *. simpl.
  destruct (facilityIndex st !! x) as [f|] eqn:Hf; simpl.
  - rewrite filter_cons_True by (rewrite Hf; eauto).
    f_equal; [by apply Hid|exact IH].
  - rewrite filter_cons_False; [exact IH|]. rewrite Hf. by intros [? ?].
Qed.

Lemma NoDup_ids_project st xs :
  (∀ i f, facilityIndex st !! i = Some f → Facility.id f = i) →
  NoDup xs → NoDup (ids (project st xs)).
Proof. intros Hid Hxs. rewrite ids_project by done. by apply NoDup_filter. Qed.

Lemma elem_of_ids_project st x xs :
  (∀ i f, facilityIndex st !! i = Some f → Facility.id f = i) →
  x ∈ ids (project st xs) ↔ x ∈ xs ∧ is_Some (facilityIndex st !! x).
Proof. intros Hid. rewrite ids_project by done. by rewrite list_elem_of_filter, (comm and). Qed.

(** ** Amenity filtering *)

Lemma hasAll_frame st st' labels x :
  amenityIndex st' = amenityIndex st →
  (∀ k l, amenityIndex st !! k = Some l → members st' l = members st l) →
  hasAll st' labels x ↔ hasAll st labels x.
Proof.
  intros Ha Hm. unfold hasAll. rewrite Ha.
  split; intros H a Hin; destruct (H a Hin) as (l & Hl & Hx); exists l;
    (split; [done|]); [by rewrite <-(Hm _ _ Hl)|by rewrite (Hm _ _ Hl)].
Qed.

Lemma hasAll_cons st a labels x :
  hasAll st (a :: labels) x ↔
  (∃ l, amenityIndex st !! a = Some l ∧ x ∈ members st l) ∧ hasAll st labels x.
Proof.
  unfold hasAll. split.
  - intros H. split; [apply H; left|]. intros b Hb. apply H. by right.
  - intros [Ha H] b [->|Hb]%elem_of_cons; eauto.
Qed.

Lemma members_insert_eq st m d :
  m < length (heap st) → members (setHeap (<[m := d]> (heap st)) st) m = SetData.live d.
Proof. intros Hm. unfold members. by rewrite cell_insert_eq. Qed.

Lemma members_insert_ne st m l d :
  l ≠ m → members (setHeap (<[m := d]> (heap st)) st) l = members st l.
Proof. intros Hm. unfold members. by rewrite cell_insert_ne. Qed.

Lemma size_zero d : (SetData.size d =? 0) = true ↔ SetData.live d = [].
Proof.
  unfold SetData.size. rewrite Nat.eqb_eq. split; [apply nil_length_inv|by intros ->].
Qed.

(** The loop over the remaining labels leaves in the working set exactly the
    identifiers that every label's posting set holds, or reports that there
    are none. *)
Lemma intersectRest_spec rest : ∀ m st,
  m < length (heap st) →
  (∀ k l, amenityIndex st !! k = Some l → l < m) →
  NoDup (members st m) →
  ∃ complete d,
    FacilityService.intersectRest m rest st
      = Some (complete, setHeap (<[m := d]> (heap st)) st) ∧
    NoDup (SetData.live d) ∧
    ∀ x, (complete = true ∧ x ∈ SetData.live d) ↔ (x ∈ members st m ∧ hasAll st rest x).
Proof.
  induction rest as [|a rest IH]; intros m st Hm Hlt Hnd.
  - exists true, (cell st m). simpl. unfold ret.
    rewrite insert_cell_id, setHeap_id. split; [done|]. split; [done|].
    intros x. unfold hasAll. split; [|intros [? _]; done].
    intros [_ Hx]. split; [done|]. by intros a ?%elem_of_nil.
  - simpl. unfold bind at 1. unfold get at 1.
    destruct (amenityIndex st !! a) as [s|] eqn:Ha.
    2:{ exists false, (cell st m). unfold ret.
        rewrite insert_cell_id, setHeap_id. split; [done|]. split; [done|].
        intros x. split; [by intros [? _]|].
        intros [_ [(l & Hl & _) _]%hasAll_cons]. congruence. }
    unfold bind at 1. unfold setSize at 1. unfold get at 1.
    destruct (SetData.size (cell st s) =? 0) eqn:Hsz.
    { exists false, (cell st m). unfold ret.
      rewrite insert_cell_id, setHeap_id. split; [done|]. split; [done|].
      intros x. split; [by intros [? _]|].
      intros [_ [(l & Hl & Hx) _]%hasAll_cons].
      assert (l = s) as -> by congruence.
      apply size_zero in Hsz. unfold members in Hx. rewrite Hsz in Hx.
      by apply elem_of_nil in Hx. }
    pose proof (Hlt _ _ Ha) as Hs.
    unfold bind at 1. rewrite retain_spec by (done || lia).
    set (st1 := setHeap _ st).
    assert (members st1 m = filter (λ x, x ∈ members st s) (members st m)) as Hm1.
    { unfold st1. rewrite members_insert_eq by done. apply live_retainData. }
    assert (∀ x, x ∈ members st m ∧ hasAll st (a :: rest) x
                 ↔ x ∈ members st1 m ∧ hasAll st1 rest x) as Hstep.
    { intros x. rewrite Hm1, list_elem_of_filter, hasAll_cons.
      rewrite (hasAll_frame st st1 rest x); [|done|].
      - split.
        + intros (Hx & (l & Hl & Hxl) & Hall).
          assert (l = s) as -> by congruence. done.
        + intros ((Hxs & Hx) & Hall). eauto.
      - intros k l Hl. apply members_insert_ne. specialize (Hlt _ _ Hl). lia. }
    unfold bind at 1. unfold setSize at 1. unfold get at 1.
    change (SetData.size (cell st1 m)) with (length (members st1 m)).
    destruct (length (members st1 m) =? 0) eqn:Hk.
    { exists false, (retainData (cell st s) (cell st m)). unfold ret.
      split; [done|]. split.
      { rewrite live_retainData. by apply NoDup_filter. }
      intros x. split; [by intros [? _]|].
      intros [Hx _]%Hstep. apply Nat.eqb_eq, nil_length_inv in Hk.
      rewrite Hk in Hx. by apply elem_of_nil in Hx. }
    destruct (IH m st1) as (complete & d & Hrun & Hd & Hpost).
    { unfold st1. simpl. by rewrite length_insert. }
    { done. }
    { rewrite Hm1. by apply NoDup_filter. }
    exists complete, d. rewrite Hrun. unfold st1. simpl.
    rewrite list_insert_insert_eq. split; [done|]. split; [done|].
    intros x. by rewrite Hpost, Hstep.
Qed.

Lemma hasAll_known st labels x :
  indexed st → labels ≠ [] → hasAll st labels x → is_Some (facilityIndex st !! x).
Proof.
  intros Hst Hne Hall. destruct labels as [|a labels]; [done|].
  destruct (Hall a) as (l & Hl & Hx); [left|].
  by eapply indexed_amenity_known.
Qed.

(** [filterByAmenities] returns, once each, the records that every label's
    posting set names, and writes a new set object only. *)
Lemma filterByAmenities_spec amenities st :
  indexed st →
  ∃ results st',
    FacilityService.filterByAmenities amenities st = Some (results, st') ∧
    oneMoreSet st st' ∧
    NoDup (ids results) ∧
    (∀ x, x ∈ ids results ↔
          amenities ≠ [] ∧ hasAll st (Js.toLowerCase <$> amenities) x) ∧
    (∀ r, r ∈ results →
          ∃ f, facilityIndex st !! FacilitySearchResult.id r = Some f ∧ r = toResult f).
Proof.
  intros Hst. unfold FacilityService.filterByAmenities.
  destruct amenities as [|a0 rest0].
  { exists [], st. simpl. split; [done|]. split; [by left|].
    split; [apply NoDup_nil_2|]. split.
    - intros x. split; [by intros ?%elem_of_nil|by intros [? _]].
    - by intros r ?%elem_of_nil. }
  rewrite fmap_cons.
  generalize (Js.toLowerCase a0) (Js.toLowerCase <$> rest0). intros first rest.
  cbv zeta.
  assert (∀ st', oneMoreSet st st' →
    (∀ x, ¬ hasAll st (first :: rest) x) →
    ∃ results st'0, Some ([] : list FacilitySearchResult.t, st') = Some (results, st'0) ∧
      oneMoreSet st st'0 ∧ NoDup (ids results) ∧
      (∀ x, x ∈ ids results ↔ a0 :: rest0 ≠ [] ∧ hasAll st (first :: rest) x) ∧
      (∀ r, r ∈ results →
            ∃ f, facilityIndex st !! FacilitySearchResult.id r = Some f ∧ r = toResult f))
    as Hnone.
  { intros st' Hp Hno. exists [], st'.
    split; [done|]. split; [done|]. split; [apply NoDup_nil_2|].
    split.
    - intros x. split; [by intros ?%elem_of_nil|by intros [_ ?%Hno]].
    - by intros r ?%elem_of_nil. }
  unfold bind at 1. unfold get at 1.
  destruct (amenityIndex st !! first) as [c|] eqn:Hc.
  2:{ apply Hnone; [by left|].
      intros x [(l & Hl & _) _]%hasAll_cons. congruence. }
  unfold bind at 1. unfold setSize at 1. unfold get at 1.
  destruct (SetData.size (cell st c) =? 0) eqn:Hsz.
  { apply Hnone; [by left|].
    intros x [(l & Hl & Hx) _]%hasAll_cons.
    assert (l = c) as -> by congruence.
    apply size_zero in Hsz. unfold members in Hx. rewrite Hsz in Hx.
    by apply elem_of_nil in Hx. }
  pose proof (indexed_amenity_alloc _ Hst _ _ Hc) as Hclt.
  unfold bind at 1. rewrite newSetFrom_spec by done.
  set (m := length (heap st)). set (st1 := setHeap _ st).
  assert (preserved st st1) as Hp1 by apply (preserved_alloc st _ (visited st)).
  assert (m < length (heap st1)) as Hm1.
  { unfold st1. simpl. rewrite length_app. simpl. unfold m. lia. }
  assert (members st1 m = SetData.live (addAllData (members st c) [])) as Hmem.
  { unfold members, cell, st1, m. simpl. by rewrite lookup_app_r, Nat.sub_diag. }
  destruct (intersectRest_spec rest m st1) as (complete & d & Hrun & Hd & Hpost).
  { done. }
  { intros k l Hl. by apply (indexed_amenity_alloc _ Hst k). }
  { rewrite Hmem. apply NoDup_live_addAll, NoDup_nil_2. }
  unfold bind at 1. rewrite Hrun.
  assert (setHeap (<[m := d]> (heap st1)) st1 = setHeap (heap st ++ [d]) st) as ->.
  { unfold st1, m. simpl. by rewrite insert_app_r_alt, Nat.sub_diag. }
  assert (∀ x, (complete = true ∧ x ∈ SetData.live d) ↔
               hasAll st (first :: rest) x) as Hall.
  { intros x. rewrite Hpost, Hmem, elem_of_live_addAll, hasAll_cons.
    rewrite (hasAll_frame st st1 rest x); [|done|].
    - split.
      + intros ([Hx|Hx%elem_of_nil] & Hr); [eauto|done].
      + intros ((l & Hl & Hx) & Hr). assert (l = c) as -> by congruence. tauto.
    - intros k l Hl. apply preserved_members; [done|].
      by apply (indexed_amenity_alloc _ Hst k). }
  destruct complete.
  - rewrite collect_spec. eexists _, _. split; [done|].
    set (st2 := setHeap (heap st ++ [d]) st).
    assert (members st2 m = SetData.live d) as Hmem2.
    { unfold members, cell, st2, m. simpl. by rewrite lookup_app_r, Nat.sub_diag. }
    rewrite Hmem2.
    assert (∀ i f, facilityIndex st2 !! i = Some f → Facility.id f = i) as Hid.
    { intros i f Hf. by apply (indexed_id _ Hst). }
    split; [right; by exists d|].
    split; [by apply NoDup_ids_project|]. split.
    + intros x. rewrite elem_of_ids_project by done.
      split.
      * intros [Hx _]. split; [done|]. apply Hall. done.
      * intros [_ Hx]. split; [by apply Hall|].
        by apply (hasAll_known st (first :: rest)).
    + intros r (x & f & Hx & Hf & ->)%elem_of_project.
      exists f. split; [|done]. simpl.
      destruct (indexed_id _ Hst _ _ Hf) as [-> _]. done.
  - apply Hnone; [right; by exists d|].
    intros x Hx%Hall. by destruct Hx.
Qed.

(** ** Name search *)

Lemma NameMap_get_elem k v m : NameMap.get k m = Some v → (k, v) ∈ m.
Proof.
  induction m as [|[k' v'] m IH]; [done|]. simpl.
  destruct (decide (k' = k)) as [->|Hne].
  - intros [= ->]. left.
  - intros H. right. by apply IH.
Qed.

Lemma state_ext st st' :
  facilities st = facilities st' → facilityIndex st = facilityIndex st' →
  nameIndex st = nameIndex st' → amenityIndex st = amenityIndex st' →
  heap st = heap st' → visited st = visited st' → st = st'.
Proof. destruct st, st'. simpl. by intros -> -> -> -> -> ->. Qed.

Ltac state_fields :=
  apply state_ext;
  cbn [facilities facilityIndex nameIndex amenityIndex heap visited setHeap setVisited].

Lemma scanHits_frame st st' tok entries :
  (∀ t l, (t, l) ∈ entries → members st' l = members st l) →
  scanHits st' tok entries = scanHits st tok entries.
Proof.
  intros Hm. unfold scanHits. induction entries as [|[t l] es IH]; [done|].
  rewrite !bind_cons. rewrite IH by (intros t' l' ?; apply (Hm t' l'); by right).
  simpl. rewrite (Hm t l) by left. done.
Qed.

Lemma tokenHits_frame st st' tok :
  nameIndex st' = nameIndex st →
  (∀ t l, (t, l) ∈ nameIndex st → members st' l = members st l) →
  tokenHits st' tok = tokenHits st tok.
Proof.
  intros Hn Hm. unfold tokenHits. rewrite Hn, (scanHits_frame st st') by done.
  f_equal. destruct (NameMap.get tok (nameIndex st)) as [l|] eqn:Hl; [|done].
  simpl. apply (Hm tok), NameMap_get_elem, Hl.
Qed.

Lemma members_heap st st' l :
  heap st' !! l = heap st !! l → members st' l = members st l.
Proof. intros Hl. unfold members, cell. by rewrite Hl. Qed.

(** The scan visits every entry handed to it. *)
Lemma scan_spec m tok entries : ∀ st,
  m < length (heap st) →
  (∀ t l, (t, l) ∈ entries → l < m) →
  forEach (λ entry _, FacilityService.scanEntry m tok entry) entries tt st
  = Some (tt, setVisited (visited st + length entries)
                (setHeap (<[m := addAllData (scanHits st tok entries) (cell st m)]>
                            (heap st)) st)).
Proof.
  induction entries as [|[t l] es IH]; intros st Hm Hlt.
  - simpl. unfold ret. rewrite insert_cell_id, setHeap_id, Nat.add_0_r.
    by destruct st.
  - assert (l < m) as Hl by (apply (Hlt t); left).
    assert (∀ t' l', (t', l') ∈ es → l' < m) as Hlt' by (intros; eapply Hlt; by right).
    cbn [forEach]. unfold bind at 1. unfold FacilityService.scanEntry at 1.
    unfold bind at 1. unfold modify at 1.
    unfold scanHits. rewrite bind_cons. fold (scanHits st tok es). cbn [fst snd].
    destruct (negb (bool_decide (t = tok)) && Js.startsWith t tok).
    + rewrite addAll_spec by (cbn [heap setVisited]; done || lia).
      change (members (setVisited (S (visited st)) st) l) with (members st l).
      change (cell (setVisited (S (visited st)) st) m) with (cell st m).
      rewrite IH by (cbn [heap setHeap setVisited]; rewrite ?length_insert; done).
      f_equal. f_equal. state_fields; [done..| |simpl; lia].
      rewrite list_insert_insert_eq. f_equal.
      rewrite cell_insert_eq by done.
      rewrite (scanHits_frame st).
      * by rewrite addAllData_app.
      * intros t' l' Hin. specialize (Hlt' _ _ Hin). apply members_heap.
        cbn [heap setHeap setVisited]. apply list_lookup_insert_ne. lia.
    + unfold ret. rewrite IH by done.
      f_equal. f_equal. state_fields; [done..|simpl; lia].
Qed.

Lemma matchToken_spec m tok st :
  m < length (heap st) →
  (∀ t l, (t, l) ∈ nameIndex st → l < m) →
  FacilityService.matchToken m tok st
  = Some (tt, setVisited (visited st + length (nameIndex st))
                (setHeap (<[m := addAllData (tokenHits st tok) (cell st m)]>
                            (heap st)) st)).
Proof.
  intros Hm Hlt. unfold FacilityService.matchToken.
  unfold bind at 1. unfold get at 1. unfold tokenHits.
  destruct (NameMap.get tok (nameIndex st)) as [s|] eqn:Hs.
  - pose proof (Hlt _ _ (NameMap_get_elem _ _ _ Hs)) as Hsm.
    unfold bind at 1. rewrite addAll_spec by (done || lia).
    unfold bind at 1. unfold get at 1.
    rewrite scan_spec by (cbn [heap setHeap nameIndex]; rewrite ?length_insert; done).
    f_equal. f_equal. state_fields; [done..| |done].
    rewrite list_insert_insert_eq. f_equal.
    rewrite cell_insert_eq by done.
    rewrite (scanHits_frame st).
    + by rewrite addAllData_app.
    + intros t' l' Hin. specialize (Hlt _ _ Hin). apply members_heap.
      cbn [heap setHeap]. apply list_lookup_insert_ne. lia.
  - unfold bind at 1. unfold ret at 1. unfold bind at 1. unfold get at 1.
    rewrite scan_spec by done. done.
Qed.

Lemma bind_tokenHits_frame st st' (toks : list string) :
  nameIndex st' = nameIndex st →
  (∀ t l, (t, l) ∈ nameIndex st → members st' l = members st l) →
  toks ≫= tokenHits st' = toks ≫= tokenHits st.
Proof.
  intros Hn Hm. induction toks as [|tok toks IH]; [done|].
  by rewrite !bind_cons, IH, (tokenHits_frame st st').
Qed.

Lemma matchTokens_spec m toks : ∀ st,
  m < length (heap st) →
  (∀ t l, (t, l) ∈ nameIndex st → l < m) →
  forEach (λ queryToken _, FacilityService.matchToken m queryToken) toks tt st
  = Some (tt, setVisited (visited st + length toks * length (nameIndex st))
                (setHeap (<[m := addAllData (toks ≫= tokenHits st) (cell st m)]>
                            (heap st)) st)).
Proof.
  induction toks as [|tok toks IH]; intros st Hm Hlt.
  - simpl. unfold ret. rewrite insert_cell_id, setHeap_id, Nat.add_0_r.
    by destruct st.
  - cbn [forEach]. unfold bind at 1. rewrite matchToken_spec by done.
    rewrite IH by (cbn [heap setHeap setVisited nameIndex]; rewrite ?length_insert; done).
    f_equal. f_equal. state_fields; [done..| |simpl; lia].
    rewrite list_insert_insert_eq. f_equal.
    rewrite bind_cons, addAllData_app.
    rewrite (bind_tokenHits_frame st).
    + f_equal. unfold cell at 1. cbn [heap setHeap setVisited].
      by rewrite list_lookup_insert_eq.
    + done.
    + intros t l Hin. specialize (Hlt _ _ Hin). apply members_heap.
      cbn [heap setHeap setVisited]. apply list_lookup_insert_ne. lia.
Qed.

(** [searchByName] as a function of the state: the matched identifiers are
    projected and sorted, one new set object is allocated, and every query
    token costs one pass over the whole name index. *)
Lemma searchByName_spec `{Collator} query st :
  indexed st →
  FacilityService.searchByName query st
  = Some (if blank query then ([], st)
          else (Array.sort (FacilityService.relevance (normalize query))
                  (project st (matches st query)),
                setVisited (visited st + length (queryTokens query) * length (nameIndex st))
                  (setHeap (heap st ++ [addAllData (queryTokens query ≫= tokenHits st) []])
                     st))).
Proof.
  intros Hst. unfold FacilityService.searchByName. fold (blank query).
  destruct (blank query); [done|].
  fold (normalize query). fold (queryTokens query). cbv zeta.
  unfold bind at 1. rewrite newSet_spec.
  set (m := length (heap st)). set (st1 := setHeap (heap st ++ [[]]) st).
  assert (m < length (heap st1)) as Hm.
  { unfold st1, m. simpl. rewrite length_app. simpl. lia. }
  assert (∀ t l, (t, l) ∈ nameIndex st1 → l < m) as Hlt.
  { intros t l Hin. by apply (indexed_name_alloc _ Hst t). }
  unfold bind at 1. rewrite matchTokens_spec by done.
  unfold bind at 1. rewrite collect_spec. unfold ret.
  rewrite (bind_tokenHits_frame st st1); [|done|].
  2:{ intros t l' Hin.
      apply (preserved_members st st1); [apply (preserved_alloc st _ (visited st))|].
      by apply (indexed_name_alloc _ Hst t). }
  assert (cell st1 m = []) as Hcell.
  { unfold cell, st1, m. simpl. by rewrite lookup_app_r, Nat.sub_diag. }
  rewrite Hcell.
  assert (<[m := addAllData (queryTokens query ≫= tokenHits st) []]> (heap st1)
          = heap st ++ [addAllData (queryTokens query ≫= tokenHits st) []]) as ->.
  { unfold st1, m. simpl. by rewrite insert_app_r_alt, Nat.sub_diag. }
  f_equal. f_equal.
  f_equal. unfold matches, members, cell. simpl.
  by rewrite lookup_app_r, Nat.sub_diag.
Qed.

(** ** Index construction *)

Lemma NameMap_get_set_eq k v m : NameMap.get k (NameMap.set k v m) = Some v.
Proof.
  induction m as [|[k' v'] m IH]; simpl.
  - by rewrite decide_True.
  - destruct (decide (k' = k)) as [->|Hne]; simpl.
    + by rewrite decide_True.
    + by rewrite decide_False.
Qed.

Lemma NameMap_get_set_ne k k' v m :
  k' ≠ k → NameMap.get k' (NameMap.set k v m) = NameMap.get k' m.
Proof.
  intros Hne. induction m as [|[k0 v0] m IH]; simpl.
  - by rewrite decide_False.
  - destruct (decide (k0 = k)) as [->|Hne0]; simpl.
    + by rewrite !decide_False.
    + destruct (decide (k0 = k')); [done|]. exact IH.
Qed.

Lemma NameMap_set_fresh k v m :
  NameMap.get k m = None → NameMap.set k v m = m ++ [(k, v)].
Proof.
  induction m as [|[k' v'] m IH]; simpl; [done|].
  destruct (decide (k' = k)); [done|]. intros Hm. by rewrite IH.
Qed.

Lemma NameMap_get_None k m : NameMap.get k m = None → k ∉ m.*1.
Proof.
  induction m as [|[k' v'] m IH]; simpl.
  - intros _. apply not_elem_of_nil.
  - destruct (decide (k' = k)); [done|]. intros Hm.
    apply not_elem_of_cons. split; [done|]. by apply IH.
Qed.

Lemma NameMap_elem_get k v m : NoDup m.*1 → (k, v) ∈ m → NameMap.get k m = Some v.
Proof.
  induction m as [|[k' v'] m IH]; simpl.
  - by intros _ ?%elem_of_nil.
  - intros [Hk Hm]%NoDup_cons [[= -> ->]|Hin]%elem_of_cons.
    + by rewrite decide_True.
    + destruct (decide (k' = k)) as [->|Hne]; [|by apply IH].
      exfalso. apply Hk. apply list_elem_of_fmap. by exists (k, v).
Qed.

Lemma members_add st l x l' :
  l < length (heap st) →
  members (setHeap (<[l := SetData.add x (cell st l)]> (heap st)) st) l'
  = if decide (l' = l) then SetData.live (SetData.add x (cell st l)) else members st l'.
Proof.
  intros Hl. destruct (decide (l' = l)) as [->|Hne].
  - by apply members_insert_eq.
  - by apply members_insert_ne.
Qed.

Lemma separated_add st l x :
  separated st → separated (setHeap (<[l := SetData.add x (cell st l)]> (heap st)) st).
Proof.
  intros [H1 H2 H3 H4 H5 H6].
  split; cbn [nameIndex amenityIndex heap setHeap]; rewrite ?length_insert; done.
Qed.

(** Adding to the set of a name token. *)
Lemma namePosting_add_name st t l x :
  separated st → NameMap.get t (nameIndex st) = Some l →
  let st' := setHeap (<[l := SetData.add x (cell st l)]> (heap st)) st in
  (∀ t' y, y ∈ namePosting st' t' ↔ y ∈ namePosting st t' ∨ (t' = t ∧ y = x)) ∧
  (∀ a, amenityPosting st' a = amenityPosting st a).
Proof.
  intros Hsep Ht st'. pose proof (separated_name_alloc _ Hsep _ _ Ht) as Hl. split.
  - intros t' y. unfold namePosting. cbn [nameIndex st' setHeap].
    destruct (NameMap.get t' (nameIndex st)) as [l'|] eqn:Ht'; simpl.
    + unfold st'. rewrite members_add by done.
      destruct (decide (l' = l)) as [->|Hne].
      * rewrite (separated_name _ Hsep _ _ _ Ht' Ht).
        rewrite elem_of_live_add. unfold members. tauto.
      * split; [tauto|]. intros [?|[-> _]]; [done|]. congruence.
    + rewrite elem_of_nil. split; [tauto|]. intros [?|[-> _]]; [done|]. congruence.
  - intros a. unfold amenityPosting. cbn [amenityIndex st' setHeap].
    destruct (amenityIndex st !! a) as [l'|] eqn:Ha; simpl; [|done].
    unfold st'. rewrite members_add by done.
    rewrite decide_False; [done|]. intros ->.
    by apply (separated_cross _ Hsep _ _ _ Ht Ha).
Qed.

(** Adding to the set of an amenity label. *)
Lemma amenityPosting_add_amenity st a l x :
  separated st → amenityIndex st !! a = Some l →
  let st' := setHeap (<[l := SetData.add x (cell st l)]> (heap st)) st in
  (∀ a' y, y ∈ amenityPosting st' a' ↔ y ∈ amenityPosting st a' ∨ (a' = a ∧ y = x)) ∧
  (∀ t, namePosting st' t = namePosting st t).
Proof.
  intros Hsep Ha st'. pose proof (separated_amenity_alloc _ Hsep _ _ Ha) as Hl. split.
  - intros a' y. unfold amenityPosting. cbn [amenityIndex st' setHeap].
    destruct (amenityIndex st !! a') as [l'|] eqn:Ha'; simpl.
    + unfold st'. rewrite members_add by done.
      destruct (decide (l' = l)) as [->|Hne].
      * rewrite (separated_amenity _ Hsep _ _ _ Ha' Ha).
        rewrite elem_of_live_add. unfold members. tauto.
      * split; [tauto|]. intros [?|[-> _]]; [done|]. congruence.
    + rewrite elem_of_nil. split; [tauto|]. intros [?|[-> _]]; [done|]. congruence.
  - intros t. unfold namePosting. cbn [nameIndex st' setHeap].
    destruct (NameMap.get t (nameIndex st)) as [l'|] eqn:Ht; simpl; [|done].
    unfold st'. rewrite members_add by done.
    rewrite decide_False; [done|]. intros ->.
    by apply (separated_cross _ Hsep _ _ _ Ht Ha).
Qed.

(** A new key with a new empty set. *)
Lemma separated_new_name st t :
  separated st → NameMap.get t (nameIndex st) = None →
  let st' := setNameIndex (NameMap.set t (length (heap st)) (nameIndex st))
               (setHeap (heap st ++ [[]]) st) in
  separated st' ∧ NameMap.get t (nameIndex st') = Some (length (heap st)) ∧
  (∀ t', namePosting st' t' = namePosting st t') ∧
  (∀ a, amenityPosting st' a = amenityPosting st a).
Proof.
  intros [H1 H2 H3 H4 H5 H6] Ht st'.
  assert (∀ t' l, NameMap.get t' (nameIndex st') = Some l →
            (t' = t ∧ l = length (heap st)) ∨
            (t' ≠ t ∧ NameMap.get t' (nameIndex st) = Some l)) as Hget.
  { intros t' l. cbn [nameIndex st' setNameIndex].
    destruct (decide (t' = t)) as [->|Hne].
    - rewrite NameMap_get_set_eq. intros [= <-]. by left.
    - rewrite NameMap_get_set_ne by done. by right. }
  assert (∀ l, l < length (heap st) → members st' l = members st l) as Hmem.
  { intros l Hl. apply members_heap. cbn [heap st' setNameIndex setHeap].
    by apply lookup_app_l. }
  split; [split|split; [|split]].
  - cbn [nameIndex st' setNameIndex]. rewrite NameMap_set_fresh by done.
    rewrite fmap_app. apply NoDup_app. split; [done|]. split; [|apply NoDup_singleton].
    intros k Hk ->%list_elem_of_singleton. by apply (NameMap_get_None _ _ Ht).
  - intros t' l [[-> ->]|[_ Hl]]%Hget; cbn [heap st' setNameIndex setHeap];
      rewrite length_app; simpl; [lia|]. specialize (H2 _ _ Hl). lia.
  - intros a l Hl. cbn [heap st' setNameIndex setHeap].
    rewrite length_app. specialize (H3 _ _ Hl). lia.
  - intros t1 t2 l [[-> ->]|[_ Hl1]]%Hget [[-> Hl]|[_ Hl2]]%Hget; try done.
    + specialize (H2 _ _ Hl2). lia.
    + specialize (H2 _ _ Hl1). lia.
    + by apply (H4 _ _ l).
  - exact H5.
  - intros t' a l [[-> ->]|[_ Hl]]%Hget Ha.
    + specialize (H3 _ _ Ha). lia.
    + by apply (H6 _ _ _ Hl Ha).
  - cbn [nameIndex st' setNameIndex]. apply NameMap_get_set_eq.
  - intros t'. unfold namePosting. cbn [nameIndex st' setNameIndex].
    destruct (decide (t' = t)) as [->|Hne].
    + rewrite NameMap_get_set_eq, Ht. simpl.
      unfold members, cell. cbn [heap st' setNameIndex setHeap].
      by rewrite lookup_app_r, Nat.sub_diag.
    + rewrite NameMap_get_set_ne by done.
      destruct (NameMap.get t' (nameIndex st)) as [l|] eqn:Hl; simpl; [|done].
      apply Hmem. by apply (H2 t').
  - intros a. unfold amenityPosting. cbn [amenityIndex st' setNameIndex setHeap].
    destruct (amenityIndex st !! a) as [l|] eqn:Hl; simpl; [|done].
    apply Hmem. by apply (H3 a).
Qed.

Lemma separated_new_amenity st a :
  separated st → amenityIndex st !! a = None →
  let st' := setAmenityIndex (<[a := length (heap st)]> (amenityIndex st))
               (setHeap (heap st ++ [[]]) st) in
  separated st' ∧ amenityIndex st' !! a = Some (length (heap st)) ∧
  (∀ t, namePosting st' t = namePosting st t) ∧
  (∀ a', amenityPosting st' a' = amenityPosting st a').
Proof.
  intros [H1 H2 H3 H4 H5 H6] Ha st'.
  assert (∀ a' l, amenityIndex st' !! a' = Some l →
            (a' = a ∧ l = length (heap st)) ∨
            (a' ≠ a ∧ amenityIndex st !! a' = Some l)) as Hget.
  { intros a' l. cbn [amenityIndex st' setAmenityIndex].
    destruct (decide (a' = a)) as [->|Hne].
    - rewrite lookup_insert_eq. intros [= <-]. by left.
    - rewrite lookup_insert_ne by done. by right. }
  assert (∀ l, l < length (heap st) → members st' l = members st l) as Hmem.
  { intros l Hl. apply members_heap. cbn [heap st' setAmenityIndex setHeap].
    by apply lookup_app_l. }
  split; [split|split; [|split]].
  - exact H1.
  - intros t l Hl. cbn [heap st' setAmenityIndex setHeap].
    rewrite length_app. specialize (H2 _ _ Hl). lia.
  - intros a' l [[-> ->]|[_ Hl]]%Hget; cbn [heap st' setAmenityIndex setHeap];
      rewrite length_app; simpl; [lia|]. specialize (H3 _ _ Hl). lia.
  - exact H4.
  - intros a1 a2 l [[-> ->]|[_ Hl1]]%Hget [[-> Hl]|[_ Hl2]]%Hget; try done.
    + specialize (H3 _ _ Hl2). lia.
    + specialize (H3 _ _ Hl1). lia.
    + by apply (H5 _ _ l).
  - intros t a' l Hl [[-> ->]|[_ Ha']]%Hget.
    + specialize (H2 _ _ Hl). lia.
    + by apply (H6 _ _ _ Hl Ha').
  - cbn [amenityIndex st' setAmenityIndex]. apply lookup_insert_eq.
  - intros t. unfold namePosting. cbn [nameIndex st' setAmenityIndex setHeap].
    destruct (NameMap.get t (nameIndex st)) as [l|] eqn:Hl; simpl; [|done].
    apply Hmem. by apply (H2 t).
  - intros a'. unfold amenityPosting. cbn [amenityIndex st' setAmenityIndex].
    destruct (decide (a' = a)) as [->|Hne].
    + rewrite lookup_insert_eq, Ha. simpl.
      unfold members, cell. cbn [heap st' setAmenityIndex setHeap].
      by rewrite lookup_app_r, Nat.sub_diag.
    + rewrite lookup_insert_ne by done.
      destruct (amenityIndex st !! a') as [l|] eqn:Hl; simpl; [|done].
      apply Hmem. by apply (H3 a').
Qed.

(** Lines 34-37. *)
Lemma indexToken_spec id t st :
  separated st →
  ∃ st', FacilityService.indexToken id t st = Some (tt, st') ∧ separated st' ∧
    facilities st' = facilities st ∧ facilityIndex st' = facilityIndex st ∧
    visited st' = visited st ∧
    (∀ t' y, y ∈ namePosting st' t' ↔ y ∈ namePosting st t' ∨ (t' = t ∧ y = id)) ∧
    (∀ a, amenityPosting st' a = amenityPosting st a).
Proof.
  intros Hsep. unfold FacilityService.indexToken, NameMap.has.
  unfold bind at 1. unfold get at 1.
  destruct (NameMap.get t (nameIndex st)) as [l|] eqn:Hl.
  - rewrite bool_decide_eq_true_2 by eauto. cbn [negb].
    unfold bind at 1. unfold ret at 1. unfold bind at 1. unfold get at 1. rewrite Hl.
    destruct (namePosting_add_name st t l id Hsep Hl) as [Hn Ha].
    eexists. split; [reflexivity|]. split; [by apply separated_add|]. done.
  - rewrite bool_decide_eq_false_2 by (by intros [? ?]). cbn [negb].
    unfold bind at 1. unfold bind at 1. rewrite newSet_spec. unfold modify at 1.
    destruct (separated_new_name st t Hsep Hl) as (Hsep1 & Hget & Hn1 & Ha1).
    cbv zeta in Hsep1, Hget, Hn1, Ha1.
    set (st1 := setNameIndex _ _) in *.
    unfold bind at 1. unfold get at 1.
    change (nameIndex (setNameIndex (NameMap.set t (length (heap st))
              (nameIndex (setHeap (heap st ++ [[]]) st))) (setHeap (heap st ++ [[]]) st)))
      with (nameIndex st1).
    rewrite Hget.
    destruct (namePosting_add_name st1 t _ id Hsep1 Hget) as [Hn Ha].
    eexists. split; [reflexivity|]. split; [by apply separated_add|].
    split; [done|]. split; [done|]. split; [done|]. split.
    + intros t' y. by rewrite Hn, Hn1.
    + intros a. by rewrite Ha, Ha1.
Qed.

(** Lines 42-46. *)
Lemma indexAmenity_spec id amenity st :
  separated st →
  ∃ st', FacilityService.indexAmenity id amenity st = Some (tt, st') ∧ separated st' ∧
    facilities st' = facilities st ∧ facilityIndex st' = facilityIndex st ∧
    visited st' = visited st ∧
    (∀ a y, y ∈ amenityPosting st' a ↔
            y ∈ amenityPosting st a ∨ (a = Js.toLowerCase amenity ∧ y = id)) ∧
    (∀ t, namePosting st' t = namePosting st t).
Proof.
  intros Hsep. unfold FacilityService.indexAmenity. cbv zeta.
  generalize (Js.toLowerCase amenity). intros a.
  unfold bind at 1. unfold get at 1.
  destruct (amenityIndex st !! a) as [l|] eqn:Hl.
  - rewrite bool_decide_eq_true_2 by eauto. cbn [negb].
    unfold bind at 1. unfold ret at 1. unfold bind at 1. unfold get at 1. rewrite Hl.
    destruct (amenityPosting_add_amenity st a l id Hsep Hl) as [Ha Hn].
    eexists. split; [reflexivity|]. split; [by apply separated_add|]. done.
  - rewrite bool_decide_eq_false_2 by (by intros [? ?]). cbn [negb].
    unfold bind at 1. unfold bind at 1. rewrite newSet_spec. unfold modify at 1.
    destruct (separated_new_amenity st a Hsep Hl) as (Hsep1 & Hget & Hn1 & Ha1).
    cbv zeta in Hsep1, Hget, Hn1, Ha1.
    set (st1 := setAmenityIndex _ _) in *.
    unfold bind at 1. unfold get at 1.
    change (amenityIndex (setAmenityIndex (<[a := length (heap st)]>
              (amenityIndex (setHeap (heap st ++ [[]]) st))) (setHeap (heap st ++ [[]]) st)))
      with (amenityIndex st1).
    rewrite Hget.
    destruct (amenityPosting_add_amenity st1 a _ id Hsep1 Hget) as [Ha Hn].
    eexists. split; [reflexivity|]. split; [by apply separated_add|].
    split; [done|]. split; [done|]. split; [done|]. split.
    + intros a' y. by rewrite Ha, Ha1.
    + intros t. by rewrite Hn, Hn1.
Qed.

Lemma indexTokens_spec id ts : ∀ st,
  separated st →
  ∃ st', forEach (λ token _, FacilityService.indexToken id token) ts tt st
           = Some (tt, st') ∧ separated st' ∧
    facilities st' = facilities st ∧ facilityIndex st' = facilityIndex st ∧
    visited st' = visited st ∧
    (∀ t y, y ∈ namePosting st' t ↔ y ∈ namePosting st t ∨ (t ∈ ts ∧ y = id)) ∧
    (∀ a, amenityPosting st' a = amenityPosting st a).
Proof.
  induction ts as [|t ts IH]; intros st Hsep.
  - exists st. simpl. repeat (split; [done|]). split; [|done].
    intros t y. rewrite elem_of_nil. tauto.
  - destruct (indexToken_spec id t st Hsep) as (st1 & Hrun1 & Hsep1 & Hf1 & Hi1 & Hv1 & Hn1 & Ha1).
    destruct (IH st1 Hsep1) as (st2 & Hrun2 & Hsep2 & Hf2 & Hi2 & Hv2 & Hn2 & Ha2).
    exists st2. cbn [forEach]. unfold bind. rewrite Hrun1, Hrun2.
    split; [done|]. split; [done|].
    split; [congruence|]. split; [congruence|]. split; [congruence|]. split.
    + intros t' y. rewrite Hn2, Hn1, elem_of_cons. tauto.
    + intros a. by rewrite Ha2, Ha1.
Qed.

Lemma indexAmenities_spec id amenities : ∀ st,
  separated st →
  ∃ st', forEach (λ amenity _, FacilityService.indexAmenity id amenity) amenities tt st
           = Some (tt, st') ∧ separated st' ∧
    facilities st' = facilities st ∧ facilityIndex st' = facilityIndex st ∧
    visited st' = visited st ∧
    (∀ a y, y ∈ amenityPosting st' a ↔
            y ∈ amenityPosting st a ∨ (a ∈ Js.toLowerCase <$> amenities ∧ y = id)) ∧
    (∀ t, namePosting st' t = namePosting st t).
Proof.
  induction amenities as [|a0 amenities IH]; intros st Hsep.
  - exists st. simpl. repeat (split; [done|]). split; [|done].
    intros t y. rewrite elem_of_nil. tauto.
  - destruct (indexAmenity_spec id a0 st Hsep)
      as (st1 & Hrun1 & Hsep1 & Hf1 & Hi1 & Hv1 & Ha1 & Hn1).
    destruct (IH st1 Hsep1) as (st2 & Hrun2 & Hsep2 & Hf2 & Hi2 & Hv2 & Ha2 & Hn2).
    exists st2. cbn [forEach]. unfold bind. rewrite Hrun1, Hrun2.
    split; [done|]. split; [done|].
    split; [congruence|]. split; [congruence|]. split; [congruence|]. split.
    + intros a y. rewrite Ha2, Ha1, fmap_cons, elem_of_cons. tauto.
    + intros t. by rewrite Hn2, Hn1.
Qed.

Lemma idMap_snoc done f : idMap (done ++ [f]) = <[Facility.id f := f]> (idMap done).
Proof. unfold idMap. by rewrite fmap_app, reverse_app. Qed.

(** Lines 28-47: one record more in the indexes. *)
Lemma indexFacility_spec done f st :
  built done st →
  ∃ st', FacilityService.indexFacility f st = Some (tt, st') ∧
    built (done ++ [f]) st' ∧ facilities st' = facilities st.
Proof.
  intros [Hsep Hids Hnames Hamen Hvis]. unfold FacilityService.indexFacility.
  unfold bind at 1. unfold modify at 1.
  set (st0 := setFacilityIndex _ st).
  assert (separated st0) as Hsep0 by (by destruct Hsep).
  destruct (indexTokens_spec (Facility.id f)
              (FacilityService.tokenizeName (Facility.name f)) st0 Hsep0)
    as (st1 & Hrun1 & Hsep1 & Hf1 & Hi1 & Hv1 & Hn1 & Ha1).
  destruct (indexAmenities_spec (Facility.id f) (Facility.facilities f) st1 Hsep1)
    as (st2 & Hrun2 & Hsep2 & Hf2 & Hi2 & Hv2 & Ha2 & Hn2).
  exists st2. unfold bind at 1. rewrite Hrun1, Hrun2.
  split; [done|]. split; [|by rewrite Hf2, Hf1]. split.
  - done.
  - rewrite Hi2, Hi1, idMap_snoc, <-Hids. done.
  - intros t x. rewrite Hn2, Hn1.
    change (namePosting st0 t) with (namePosting st t). rewrite Hnames.
    setoid_rewrite elem_of_app. setoid_rewrite list_elem_of_singleton. split.
    + intros [(g & Hg & Hid & Ht)|[Ht ->]]; [exists g|exists f]; tauto.
    + intros (g & [Hg| ->] & Hid & Ht); [left; eauto|right; done].
  - intros a x. rewrite Ha2, Ha1.
    change (amenityPosting st0 a) with (amenityPosting st a). rewrite Hamen.
    setoid_rewrite elem_of_app. setoid_rewrite list_elem_of_singleton. split.
    + intros [(g & Hg & Hid & Ht)|[Ht ->]]; [exists g|exists f]; tauto.
    + intros (g & [Hg| ->] & Hid & Ht); [left; eauto|right; done].
  - rewrite Hv2, Hv1. exact Hvis.
Qed.

Lemma indexFacilities_spec rest : ∀ done st,
  built done st →
  ∃ st', forEach (λ facility _, FacilityService.indexFacility facility) rest tt st
           = Some (tt, st') ∧
    built (done ++ rest) st' ∧ facilities st' = facilities st.
Proof.
  induction rest as [|f rest IH]; intros done st Hb.
  - exists st. rewrite app_nil_r. done.
  - destruct (indexFacility_spec done f st Hb) as (st1 & Hrun1 & Hb1 & Hf1).
    destruct (IH _ st1 Hb1) as (st2 & Hrun2 & Hb2 & Hf2).
    exists st2. cbn [forEach]. unfold bind. rewrite Hrun1, Hrun2.
    rewrite <-app_assoc in Hb2. split; [done|]. split; [done|]. congruence.
Qed.

(** The constructor always completes, and the service it returns holds the
    records of its input. *)
Lemma constructor_built data :
  ∃ st, FacilityService.constructor data = Some st ∧ built data st ∧ facilities st = data.
Proof.
  unfold FacilityService.constructor, FacilityService.buildIndexes.
  unfold bind, get. cbn [facilities].
  set (st0 := {| facilities := data; facilityIndex := ∅; nameIndex := [];
                 amenityIndex := ∅; heap := []; visited := 0 |}).
  assert (built [] st0) as Hb0.
  { split; try done.
    - split; try done. apply NoDup_nil_2.
    - intros t x. unfold namePosting. simpl. rewrite elem_of_nil.
      split; [done|]. by intros (f & ?%elem_of_nil & _).
    - intros a x. unfold amenityPosting. simpl. rewrite lookup_empty. simpl.
      rewrite elem_of_nil. split; [done|]. by intros (f & ?%elem_of_nil & _). }
  destruct (indexFacilities_spec data [] st0 Hb0) as (st & Hrun & Hb & Hf).
  exists st. rewrite Hrun. done.
Qed.

(** The keys of the name index are tokens of the indexed names. *)
Lemma NameMap_set_keys k v m k' :
  k' ∈ (NameMap.set k v m).*1 → k' ∈ m.*1 ∨ k' = k.
Proof.
  induction m as [|[k0 v0] m IH]; simpl.
  - intros ->%list_elem_of_singleton. by right.
  - destruct (decide (k0 = k)) as [->|Hne]; simpl.
    + intros H. by left.
    + intros [->|Hin]%elem_of_cons; [left; left|].
      destruct (IH Hin); [left; by right|by right].
Qed.

Lemma indexToken_keys id t st st' :
  FacilityService.indexToken id t st = Some (tt, st') →
  ∀ k, k ∈ (nameIndex st').*1 → k ∈ (nameIndex st).*1 ∨ k = t.
Proof.
  unfold FacilityService.indexToken, NameMap.has.
  unfold bind at 1. unfold get at 1.
  destruct (NameMap.get t (nameIndex st)) as [l|] eqn:Hl.
  - rewrite bool_decide_eq_true_2 by eauto. cbn [negb].
    unfold bind at 1. unfold ret at 1. unfold bind at 1. unfold get at 1. rewrite Hl.
    intros [= <-] k Hk. by left.
  - rewrite bool_decide_eq_false_2 by (by intros [? ?]). cbn [negb].
    unfold bind at 1. unfold bind at 1. rewrite newSet_spec. unfold modify at 1.
    unfold bind at 1. unfold get at 1. cbn [nameIndex setNameIndex setHeap].
    rewrite NameMap_get_set_eq.
    intros [= <-] k Hk. by apply NameMap_set_keys in Hk.
Qed.

Lemma indexAmenity_names id amenity st st' :
  FacilityService.indexAmenity id amenity st = Some (tt, st') →
  nameIndex st' = nameIndex st.
Proof.
  unfold FacilityService.indexAmenity. cbv zeta.
  generalize (Js.toLowerCase amenity). intros a.
  unfold bind at 1. unfold get at 1.
  destruct (amenityIndex st !! a) as [l|] eqn:Hl.
  - rewrite bool_decide_eq_true_2 by eauto. cbn [negb].
    unfold bind at 1. unfold ret at 1. unfold bind at 1. unfold get at 1. rewrite Hl.
    by intros [= <-].
  - rewrite bool_decide_eq_false_2 by (by intros [? ?]). cbn [negb].
    unfold bind at 1. unfold bind at 1. rewrite newSet_spec. unfold modify at 1.
    unfold bind at 1. unfold get at 1. cbn [amenityIndex setAmenityIndex setHeap].
    rewrite lookup_insert_eq. by intros [= <-].
Qed.

Lemma indexTokens_keys id ts : ∀ st st',
  forEach (λ token _, FacilityService.indexToken id token) ts tt st = Some (tt, st') →
  ∀ k, k ∈ (nameIndex st').*1 → k ∈ (nameIndex st).*1 ∨ k ∈ ts.
Proof.
  induction ts as [|t ts IH]; intros st st'; cbn [forEach].
  - intros [= <-] k Hk. by left.
  - unfold bind.
    destruct (FacilityService.indexToken id t st) as [[[] st1]|] eqn:Hrun1; [|done].
    intros Hrun2 k Hk.
    destruct (IH _ _ Hrun2 k Hk) as [Hk1|Hk1]; [|right; by right].
    destruct (indexToken_keys _ _ _ _ Hrun1 k Hk1) as [?| ->]; [by left|right; left].
Qed.

Lemma indexAmenities_names id amenities : ∀ st st',
  forEach (λ amenity _, FacilityService.indexAmenity id amenity) amenities tt st
    = Some (tt, st') →
  nameIndex st' = nameIndex st.
Proof.
  induction amenities as [|a amenities IH]; intros st st'; cbn [forEach].
  - by intros [= <-].
  - unfold bind.
    destruct (FacilityService.indexAmenity id a st) as [[[] st1]|] eqn:Hrun1; [|done].
    intros Hrun2. rewrite (IH _ _ Hrun2). by eapply indexAmenity_names.
Qed.

Lemma indexFacilities_keys fs : ∀ st st',
  forEach (λ facility _, FacilityService.indexFacility facility) fs tt st = Some (tt, st') →
  ∀ k, k ∈ (nameIndex st').*1 →
    k ∈ (nameIndex st).*1 ∨
    ∃ f, f ∈ fs ∧ k ∈ FacilityService.tokenizeName (Facility.name f).
Proof.
  induction fs as [|f fs IH]; intros st st'; cbn [forEach].
  - intros [= <-] k Hk. by left.
  - unfold bind at 1.
    destruct (FacilityService.indexFacility f st) as [[[] st1]|] eqn:Hrun1; [|done].
    intros Hrun2 k Hk.
    destruct (IH _ _ Hrun2 k Hk) as [Hk1|(g & Hg & Hkg)].
    2:{ right. exists g. split; [by right|done]. }
    unfold FacilityService.indexFacility in Hrun1.
    unfold bind at 1 in Hrun1. unfold modify at 1 in Hrun1.
    unfold bind at 1 in Hrun1.
    destruct (forEach _ (FacilityService.tokenizeName (Facility.name f)) tt _)
      as [[[] st0]|] eqn:Hrun0; [|done].
    rewrite (indexAmenities_names _ _ _ _ Hrun1) in Hk1.
    destruct (indexTokens_keys _ _ _ _ Hrun0 k Hk1) as [?|?]; [by left|].
    right. exists f. split; [left|done].
Qed.

Lemma constructor_keys data st :
  FacilityService.constructor data = Some st →
  ∀ k, k ∈ (nameIndex st).*1 →
    ∃ f, f ∈ data ∧ k ∈ FacilityService.tokenizeName (Facility.name f).
Proof.
  unfold FacilityService.constructor, FacilityService.buildIndexes.
  unfold bind, get. cbn [facilities].
  destruct (forEach _ data tt _) as [[[] st0]|] eqn:Hrun; [|done].
  intros [= <-] k Hk.
  destruct (indexFacilities_keys _ _ _ Hrun k Hk) as [Hnil|?]; [|done].
  by apply elem_of_nil in Hnil.
Qed.

(** ** The identifier map *)

Lemma idMap_lookup_Some data i f :
  idMap data !! i = Some f → Facility.id f = i ∧ f ∈ data.
Proof.
  unfold idMap. intros Hin%elem_of_list_to_map_2.
  apply elem_of_reverse, list_elem_of_fmap in Hin as (g & [= -> ->] & Hg). done.
Qed.

(** The record found under an identifier is the last one that carries it. *)
Lemma idMap_last pre f post :
  (∀ g, g ∈ post → Facility.id g ≠ Facility.id f) →
  idMap (pre ++ f :: post) !! Facility.id f = Some f.
Proof.
  induction post as [|g post IH] using rev_ind; intros Hpost.
  - rewrite idMap_snoc. apply lookup_insert_eq.
  - rewrite app_comm_cons, app_assoc, idMap_snoc.
    rewrite lookup_insert_ne.
    + apply IH. intros g' Hg'. apply Hpost, elem_of_app. by left.
    + apply Hpost, elem_of_app. right. by apply list_elem_of_singleton.
Qed.

Lemma idMap_is_Some data f : f ∈ data → is_Some (idMap data !! Facility.id f).
Proof.
  induction data as [|g data IH] using rev_ind; [by intros ?%elem_of_nil|].
  rewrite idMap_snoc. intros [Hf| ->%list_elem_of_singleton]%elem_of_app.
  - destruct (decide (Facility.id g = Facility.id f)) as [->|Hne].
    + rewrite lookup_insert_eq. eauto.
    + rewrite lookup_insert_ne by done. by apply IH.
  - rewrite lookup_insert_eq. eauto.
Qed.

Lemma idMap_lookup_None data i :
  idMap data !! i = None ↔ ∀ f, f ∈ data → Facility.id f ≠ i.
Proof.
  split.
  - intros Hnone f Hf <-. destruct (idMap_is_Some data f Hf) as [g Hg]. congruence.
  - intros Hno. destruct (idMap data !! i) as [f|] eqn:Hf; [|done].
    apply idMap_lookup_Some in Hf as [Hid Hf]. by destruct (Hno f Hf).
Qed.

(** ** The constructed service *)

Lemma built_indexed data st : built data st → facilities st = data → indexed st.
Proof.
  intros [Hsep Hids Hnames Hamen Hvis] Hdata. split.
  - intros t l Hin. apply (separated_name_alloc _ Hsep t).
    apply NameMap_elem_get; [apply Hsep|done].
  - apply Hsep.
  - intros i f. rewrite Hids, Hdata. apply idMap_lookup_Some.
  - intros t l x Hin Hx.
    assert (x ∈ namePosting st t) as (f & Hf & <- & _)%Hnames.
    { unfold namePosting. by rewrite (NameMap_elem_get t l) by (apply Hsep || done). }
    rewrite Hids. by apply idMap_is_Some.
  - intros a l x Hl Hx.
    assert (x ∈ amenityPosting st a) as (f & Hf & <- & _)%Hamen.
    { unfold amenityPosting. by rewrite Hl. }
    rewrite Hids. by apply idMap_is_Some.
Qed.

Lemma constructor_indexed data :
  ∃ st, FacilityService.constructor data = Some st ∧ built data st ∧
        facilities st = data ∧ indexed st.
Proof.
  destruct (constructor_built data) as (st & Hrun & Hb & Hf).
  exists st. eauto using built_indexed.
Qed.

(** ** Sorting *)

Lemma insert_Permutation {A} (cmp : A → A → Z) x l :
  Array.insert cmp x l ≡ₚ x :: l.
Proof.
  induction l as [|y l IH]; simpl; [done|].
  destruct (cmp x y <=? 0)%Z; [done|]. rewrite IH. apply Permutation_swap.
Qed.

Lemma sort_Permutation {A} (cmp : A → A → Z) l : Array.sort cmp l ≡ₚ l.
Proof.
  induction l as [|x l IH]; simpl; [done|].
  rewrite insert_Permutation. by constructor.
Qed.

Lemma insert_StronglySorted {A} (cmp : A → A → Z) x l :
  (∀ a b, (cmp a b ≤ 0)%Z ∨ (cmp b a ≤ 0)%Z) →
  (∀ a b c, (cmp a b ≤ 0)%Z → (cmp b c ≤ 0)%Z → (cmp a c ≤ 0)%Z) →
  StronglySorted (λ a b, (cmp a b ≤ 0)%Z) l →
  StronglySorted (λ a b, (cmp a b ≤ 0)%Z) (Array.insert cmp x l).
Proof.
  intros Htotal Htrans. induction 1 as [|y l Hl IH Hy]; simpl.
  - repeat constructor.
  - destruct (cmp x y <=? 0)%Z eqn:Hxy.
    + apply Z.leb_le in Hxy. constructor; [by constructor|].
      constructor; [done|]. eapply Forall_impl; [exact Hy|].
      intros z Hz. by eapply Htrans.
    + apply Z.leb_gt in Hxy. constructor; [done|].
      rewrite insert_Permutation. constructor; [|done].
      destruct (Htotal x y); [lia|done].
Qed.

Lemma sort_StronglySorted {A} (cmp : A → A → Z) l :
  (∀ a b, (cmp a b ≤ 0)%Z ∨ (cmp b a ≤ 0)%Z) →
  (∀ a b c, (cmp a b ≤ 0)%Z → (cmp b c ≤ 0)%Z → (cmp a c ≤ 0)%Z) →
  StronglySorted (λ a b, (cmp a b ≤ 0)%Z) (Array.sort cmp l).
Proof.
  intros Htotal Htrans. induction l as [|x l IH]; simpl; [constructor|].
  by apply insert_StronglySorted.
Qed.

Lemma insert_sublist {A} (cmp : A → A → Z) x l : l `sublist_of` Array.insert cmp x l.
Proof.
  induction l as [|y l IH]; simpl; [by constructor|].
  destruct (cmp x y <=? 0)%Z; [by constructor|]. by constructor.
Qed.

Lemma insert_before {A} (cmp : A → A → Z) x b l :
  b ∈ l → (cmp x b ≤ 0)%Z → [x; b] `sublist_of` Array.insert cmp x l.
Proof.
  induction l as [|y l IH]; [by intros ?%elem_of_nil|].
  intros Hb Hxb. simpl. destruct (cmp x y <=? 0)%Z eqn:Hxy.
  - constructor. by apply singleton_sublist_l.
  - apply Z.leb_gt in Hxy. apply elem_of_cons in Hb as [->|Hb]; [lia|].
    constructor. by apply IH.
Qed.

(** The sort is stable: an element stays before a later element that it does
    not compare after. *)
Lemma sort_stable {A} (cmp : A → A → Z) a b l :
  [a; b] `sublist_of` l → (cmp a b ≤ 0)%Z → [a; b] `sublist_of` Array.sort cmp l.
Proof.
  intros Hl Hab. induction l as [|x l IH]; simpl.
  - by apply sublist_nil_r in Hl.
  - apply sublist_cons_r in Hl as [Hl|(l' & [= <- <-] & Hb)].
    + etrans; [by apply IH|apply insert_sublist].
    + apply insert_before; [|done].
      rewrite sort_Permutation. by apply singleton_sublist_l.
Qed.

(** *** A stable sort has one result *)

Lemma sublist_pair_elem {A} (a b : A) l : [a; b] `sublist_of` l → a ∈ l ∧ b ∈ l.
Proof.
  intros Hl. split; (eapply elem_of_sublist; [|exact Hl]).
  - left.
  - right. left.
Qed.

Lemma NoDup_pair_ne {A} (a b : A) l : NoDup l → [a; b] `sublist_of` l → a ≠ b.
Proof.
  intros Hnd Hl ->. eapply sublist_NoDup in Hnd; [|exact Hl].
  apply NoDup_cons in Hnd as [Hb _]. apply Hb. left.
Qed.

Lemma NoDup_pair_cases {A} (a b : A) l :
  a ∈ l → b ∈ l → a ≠ b → [a; b] `sublist_of` l ∨ [b; a] `sublist_of` l.
Proof.
  induction l as [|x l IH]; [by intros ?%elem_of_nil|].
  intros Ha Hb Hne. apply elem_of_cons in Ha as [->|Ha].
  - apply elem_of_cons in Hb as [->|Hb]; [done|].
    left. constructor. by apply singleton_sublist_l.
  - apply elem_of_cons in Hb as [->|Hb].
    + right. constructor. by apply singleton_sublist_l.
    + destruct (IH Ha Hb Hne); [left|right]; by constructor.
Qed.

Lemma NoDup_pair_once {A} (a b : A) l :
  NoDup l → [a; b] `sublist_of` l → [b; a] `sublist_of` l → False.
Proof.
  induction 1 as [|x l Hx Hnd IH]; intros Hab Hba.
  - by apply sublist_nil_r in Hab.
  - apply sublist_cons_r in Hab as [Hab|(l1 & [= <- <-] & Hb)];
      apply sublist_cons_r in Hba as [Hba|(l2 & [= <- <-] & Ha)].
    + by apply IH.
    + apply Hx. by apply (sublist_pair_elem a b).
    + apply Hx. by apply (sublist_pair_elem b a).
    + apply Hx. by apply singleton_sublist_l.
Qed.

Lemma StronglySorted_pair {A} (R : A → A → Prop) a b l :
  StronglySorted R l → [a; b] `sublist_of` l → R a b.
Proof.
  induction 1 as [|x l Hl IH Hx]; intros Hab.
  - by apply sublist_nil_r in Hab.
  - apply sublist_cons_r in Hab as [Hab|(l1 & [= <- <-] & Hb)]; [by apply IH|].
    eapply Forall_forall; [exact Hx|]. by apply singleton_sublist_l.
Qed.

(** Two arrangements of the same distinct elements that put every two
    elements in the same order are equal. *)
Lemma NoDup_pairs_eq {A} (l1 : list A) : ∀ l2,
  NoDup l1 → l1 ≡ₚ l2 →
  (∀ a b, [a; b] `sublist_of` l1 → [a; b] `sublist_of` l2) → l1 = l2.
Proof.
  induction l1 as [|x l1 IH]; intros l2 Hnd Hp Hord.
  - by apply Permutation_nil_l in Hp.
  - assert (NoDup l2) as Hnd2 by (by rewrite <-Hp).
    apply NoDup_cons in Hnd as [Hx Hnd].
    destruct l2 as [|y l2]; [by apply Permutation_nil_r in Hp|].
    assert (y = x) as ->.
    { assert (y ∈ x :: l1) as Hin by (rewrite Hp; left).
      apply elem_of_cons in Hin as [->|Hy]; [done|]. exfalso.
      assert ([x; y] `sublist_of` y :: l2) as Hxy.
      { apply Hord. constructor. by apply singleton_sublist_l. }
      assert (x ≠ y) as Hne by (by intros ->).
      apply sublist_cons_r in Hxy as [Hxy|(l' & [= ->] & _)]; [|done].
      apply NoDup_cons in Hnd2 as [Hy2 _]. destruct Hy2.
      by apply (sublist_pair_elem x y). }
    f_equal. apply Permutation_cons_inv in Hp. apply IH; [done..|].
    intros a b Hab. assert (a ≠ x) as Hne.
    { intros ->. apply Hx. by apply (sublist_pair_elem x b). }
    assert ([a; b] `sublist_of` x :: l2) as Hab2 by (apply Hord; by constructor).
    by apply sublist_cons_r in Hab2 as [?|(l' & [= ->] & _)].
Qed.

(** When [comparefn] is a consistent comparison of the distinct elements of
    [l], every array that is a permutation of [l], is sorted by [comparefn]
    and keeps the order of the elements that compare as equal, is the array
    that the insertion sort returns. *)
Lemma sort_unique {A} (cmp : A → A → Z) (l out : list A) :
  NoDup l →
  (∀ a b, (cmp a b ≤ 0)%Z ∨ (cmp b a ≤ 0)%Z) →
  (∀ a b c, (cmp a b ≤ 0)%Z → (cmp b c ≤ 0)%Z → (cmp a c ≤ 0)%Z) →
  (∀ a b, a ∈ l → b ∈ l → a ≠ b → Z.sgn (cmp b a) = (- Z.sgn (cmp a b))%Z) →
  out ≡ₚ l →
  StronglySorted (λ a b, (cmp a b ≤ 0)%Z) out →
  (∀ a b, [a; b] `sublist_of` l → cmp a b = 0%Z → [a; b] `sublist_of` out) →
  out = Array.sort cmp l.
Proof.
  intros Hnd Htotal Htrans Hswap Hp Hsorted Hstable.
  assert (NoDup out) as Hndo by (by rewrite Hp).
  apply NoDup_pairs_eq; [done|by rewrite sort_Permutation|].
  intros a b Hab.
  destruct (sublist_pair_elem a b _ Hab) as [Ha Hb]. rewrite Hp in Ha, Hb.
  pose proof (NoDup_pair_ne a b _ Hndo Hab) as Hne.
  pose proof (StronglySorted_pair _ a b _ Hsorted Hab) as Hle. cbv beta in Hle.
  pose proof (Hswap a b Ha Hb Hne) as Hsgn.
  destruct (decide (cmp a b = 0%Z)) as [Hz|Hnz].
  - destruct (NoDup_pair_cases a b l Ha Hb Hne) as [Hl|Hl].
    + apply sort_stable; [done|lia].
    + destruct (NoDup_pair_once a b out Hndo Hab). apply Hstable; [done|].
      apply Z.sgn_null_iff. by rewrite Hsgn, Hz.
  - assert (a ∈ Array.sort cmp l ∧ b ∈ Array.sort cmp l) as [Ha' Hb']
      by (by rewrite !sort_Permutation).
    destruct (NoDup_pair_cases a b _ Ha' Hb' Hne) as [Hs|Hs]; [done|].
    pose proof (StronglySorted_pair _ b a _ (sort_StronglySorted cmp l Htotal Htrans) Hs)
      as Hba. cbv beta in Hba.
    assert (cmp a b < 0)%Z as Hlt by lia.
    rewrite (Z.sgn_neg _ Hlt) in Hsgn.
    assert (0 < cmp b a)%Z by (apply Z.sgn_pos_iff; lia). lia.
Qed.

Lemma elem_of_ids_sort (cmp : FacilitySearchResult.t → FacilitySearchResult.t → Z) x l :
  x ∈ ids (Array.sort cmp l) ↔ x ∈ ids l.
Proof. unfold ids. by rewrite sort_Permutation. Qed.

(** * The claims *)

(** C2.  For every record set and every pair of amenity labels [a] and [b],
    the set of identifiers returned by [filterByAmenities([a, b])] is the
    intersection of the sets of identifiers returned by
    [filterByAmenities([a])] and by [filterByAmenities([b])]. *)
Theorem C2_amenity_conjunction (data : list Facility.t) (a b : string) :
  ∃ st rab ra rb sab sa sb,
    FacilityService.constructor data = Some st ∧
    FacilityService.filterByAmenities [a; b] st = Some (rab, sab) ∧
    FacilityService.filterByAmenities [a] st = Some (ra, sa) ∧
    FacilityService.filterByAmenities [b] st = Some (rb, sb) ∧
    (list_to_set (ids rab) : gset string)
    = list_to_set (ids ra) ∩ list_to_set (ids rb).
Proof.
  destruct (constructor_indexed data) as (st & Hrun & _ & _ & Hst).
  destruct (filterByAmenities_spec [a; b] st Hst) as (rab & sab & Hab & _ & _ & Hiab & _).
  destruct (filterByAmenities_spec [a] st Hst) as (ra & sa & Ha & _ & _ & Hia & _).
  destruct (filterByAmenities_spec [b] st Hst) as (rb & sb & Hb & _ & _ & Hib & _).
  exists st, rab, ra, rb, sab, sa, sb. repeat (split; [done|]).
  apply set_eq. intros x.
  rewrite elem_of_intersection, !elem_of_list_to_set, Hiab, Hia, Hib.
  rewrite !fmap_cons, fmap_nil, !hasAll_cons.
  assert (hasAll st [] x) as Hnil by (by intros ? ?%elem_of_nil).
  split.
  - intros (_ & Hxa & Hxb & _). done.
  - intros [(_ & Hxa & _) (_ & Hxb & _)]. done.
Qed.

(** C3.  For every record of the index, every token [t] of its name and every
    non-empty prefix [p] of [t], [searchByName(p)] returns a result whose
    identifier is the identifier of that record. *)
Theorem C3_prefix_correctness `{Collator} (data : list Facility.t) (f : Facility.t)
    (t p r : string) :
  f ∈ data →
  t ∈ FacilityService.tokenizeName (Facility.name f) →
  t = p +:+ r → p ≠ "" →
  ∃ st results st',
    FacilityService.constructor data = Some st ∧
    FacilityService.searchByName p st = Some (results, st') ∧
    Facility.id f ∈ ids results.
Proof.
  intros Hf Ht -> Hp.
  destruct (constructor_indexed data) as (st & Hrun & Hb & Hdata & Hst).
  destruct (tokenizeName_token _ _ Ht) as (_ & Hsp & Hlo).
  destruct (prefix_query p r Hp Hsp Hlo) as (Hne & Htrim & Hnorm & Htoks).
  exists st. rewrite (searchByName_spec p st Hst).
  assert (blank p = false) as ->.
  { unfold blank. rewrite Hne, Htrim. by destruct p. }
  eexists _, _. split; [done|]. split; [done|].
  apply elem_of_ids_sort.
  assert (∀ i g, facilityIndex st !! i = Some g → Facility.id g = i) as Hid.
  { intros i g Hg. by apply (indexed_id _ Hst). }
  apply elem_of_ids_project; [done|]. split.
  - unfold matches, queryTokens, normalize. rewrite Hnorm, Htoks.
    rewrite bind_cons. apply elem_of_live_addAll. left. apply elem_of_app. left.
    assert (Facility.id f ∈ namePosting st (p +:+ r)) as Hpost.
    { apply (built_names _ _ Hb). eauto. }
    unfold namePosting in Hpost.
    destruct (NameMap.get (p +:+ r) (nameIndex st)) as [l|] eqn:Hl;
      [|by apply elem_of_nil in Hpost].
    simpl in Hpost. unfold tokenHits. apply elem_of_app.
    destruct (decide (p +:+ r = p)) as [Heq|Hneq].
    + left. rewrite Heq in Hl. by rewrite Hl.
    + right. unfold scanHits. apply list_elem_of_bind.
      exists (p +:+ r, l). split; [|by apply NameMap_get_elem].
      cbn [fst snd]. rewrite bool_decide_eq_false_2 by done.
      by rewrite startsWith_app.
  - rewrite (built_ids _ _ Hb). by apply idMap_is_Some.
Qed.

Lemma C3_prefix_correctness_witness :
  ∃ st results st',
    FacilityService.constructor scenario = Some st ∧
    FacilityService.searchByName "fit" st = Some (results, st') ∧
    "f1" ∈ ids results.
Proof.
  apply (C3_prefix_correctness scenario
           (facility "f1" "City Fitness Central" ["Pool"; "Sauna"]) "fitness" "fit" "ness").
  - left.
  - vm_compute. right. left.
  - reflexivity.
  - discriminate.
Defined.

Lemma searchByName_results `{Collator} query st :
  indexed st →
  ∃ st', FacilityService.searchByName query st
         = Some (if blank query then []
                 else Array.sort (FacilityService.relevance (normalize query))
                        (project st (matches st query)), st') ∧
         preserved st st' ∧
         visited st' = (if blank query then visited st
                        else visited st + length (queryTokens query) * length (nameIndex st)).
Proof.
  intros Hst. rewrite (searchByName_spec query st Hst). destruct (blank query).
  - exists st. split; [done|]. split; [apply preserved_refl|done].
  - eexists. split; [done|]. split; [apply preserved_alloc|done].
Qed.

Lemma getById_spec id st :
  FacilityService.getById id st
  = Some (if Js.nonEmpty id then facilityIndex st !! id else None, st).
Proof. unfold FacilityService.getById. by destruct (Js.nonEmpty id). Qed.

(** C9.  Every query is a pure read.  On a service whose indexes are in
    place, [searchByName], [filterByAmenities] and [getById] return normally
    and leave the record sequence, the identifier map, the name index, the
    amenity index and every set object that existed before the call as they
    were: a query writes only to the set object it allocates itself, and the
    deletions of the amenity intersection go to such a copy.  (The cost
    counter [visited] is not part of the service.) *)
Theorem C9_queries_are_pure_reads `{Collator} (st : State)
    (query : string) (amenities : list string) (id : string) :
  indexed st →
  (∃ results st', FacilityService.searchByName query st = Some (results, st') ∧
                  preserved st st' ∧ indexed st') ∧
  (∃ results st', FacilityService.filterByAmenities amenities st = Some (results, st') ∧
                  preserved st st' ∧ indexed st') ∧
  (∃ result st', FacilityService.getById id st = Some (result, st') ∧
                 preserved st st' ∧ indexed st').
Proof.
  intros Hst. split; [|split].
  - rewrite (searchByName_spec query st Hst). destruct (blank query).
    + eexists _, _. split; [done|]. split; [apply preserved_refl|done].
    + eexists _, _. split; [done|].
      assert (preserved st
        (setVisited (visited st + length (queryTokens query) * length (nameIndex st))
           (setHeap (heap st ++ [addAllData (queryTokens query ≫= tokenHits st) []]) st)))
        as Hp by apply preserved_alloc.
      split; [done|]. by eapply indexed_preserved.
  - destruct (filterByAmenities_spec amenities st Hst) as (r & st' & Hrun & Hp & _).
    apply oneMoreSet_preserved in Hp as [Hp _].
    exists r, st'. split; [done|]. split; [done|]. by eapply indexed_preserved.
  - rewrite getById_spec. eexists _, _. split; [done|].
    split; [apply preserved_refl|done].
Qed.

Lemma C9_queries_are_pure_reads_witness :
  ∃ st, FacilityService.constructor scenario = Some st ∧
    (∃ results st', FacilityService.searchByName "city gym" st = Some (results, st') ∧
                    preserved st st' ∧ indexed st') ∧
    (∃ results st', FacilityService.filterByAmenities ["Pool"; "Sauna"] st
                      = Some (results, st') ∧
                    preserved st st' ∧ indexed st') ∧
    (∃ result st', FacilityService.getById "f2" st = Some (result, st') ∧
                   preserved st st' ∧ indexed st').
Proof.
  destruct (constructor_indexed scenario) as (st & Hrun & _ & _ & Hst).
  exists st. split; [exact Hrun|].
  exact (C9_queries_are_pure_reads st "city gym" ["Pool"; "Sauna"] "f2" Hst).
Defined.

(** C10.  In the results of [searchByName] and of [filterByAmenities] every
    identifier occurs at most once, whatever number of query tokens a record
    matches and whatever the number of times a token occurs in its name, and
    every result is the projection of a record of the store, the one filed
    under its identifier. *)
Theorem C10_results_without_duplicates `{Collator} (data : list Facility.t)
    (query : string) (amenities : list string) :
  ∃ st found st1 filtered st2,
    FacilityService.constructor data = Some st ∧
    FacilityService.searchByName query st = Some (found, st1) ∧
    FacilityService.filterByAmenities amenities st = Some (filtered, st2) ∧
    NoDup (ids found) ∧ NoDup (ids filtered) ∧
    ∀ r, r ∈ found ∨ r ∈ filtered →
      ∃ f, f ∈ data ∧ r = toResult f ∧
           facilityIndex st !! FacilitySearchResult.id r = Some f.
Proof.
  destruct (constructor_indexed data) as (st & Hrun & Hb & Hdata & Hst).
  destruct (filterByAmenities_spec amenities st Hst)
    as (filtered & st2 & Hfil & _ & Hnd & _ & Hproj).
  assert (∀ i g, facilityIndex st !! i = Some g → Facility.id g = i) as Hid.
  { intros i g Hg. by apply (indexed_id _ Hst). }
  destruct (searchByName_results query st Hst) as (st1 & Hsearch & _).
  exists st. eexists _, st1, filtered, st2.
  split; [done|]. split; [exact Hsearch|]. split; [done|].
  split; [|split; [done|]].
  - destruct (blank query); [apply NoDup_nil_2|].
    unfold ids. rewrite sort_Permutation.
    apply NoDup_ids_project; [done|].
    apply NoDup_live_addAll, NoDup_nil_2.
  - intros r [Hr|Hr].
    + destruct (blank query); [by apply elem_of_nil in Hr|].
      rewrite sort_Permutation in Hr.
      apply elem_of_project in Hr as (x & f & _ & Hf & ->).
      destruct (indexed_id _ Hst _ _ Hf) as [Hx Hin].
      exists f. rewrite Hdata in Hin. split; [done|]. split; [done|].
      simpl. by rewrite Hx.
    + destruct (Hproj r Hr) as (f & Hf & ->).
      destruct (indexed_id _ Hst _ _ Hf) as [Hx Hin].
      exists f. rewrite Hdata in Hin. done.
Qed.

(** C5, as stated, fails: of two records with the identifier ["f1"] the
    second replaces the first in the identifier map, so [getById("f1")] is
    the record admitted last, and [getCount()] is 2 for one identifier.  And
    a record whose identifier is the empty string is kept, counted and
    returned by [filterByAmenities], without [getById] ever returning it. *)
Lemma C5_duplicate_overwrites :
  (∃ st, FacilityService.constructor duplicates = Some st ∧
     FacilityService.getById "f1" st
       = Some (Some (facility "f1" "Second Gym" ["Sauna"]), st) ∧
     facility "f1" "Second Gym" ["Sauna"] ≠ facility "f1" "First Gym" ["Pool"] ∧
     FacilityService.getCount st = Some (2, st) ∧
     length (remove_dups (Facility.id <$> duplicates)) = 1) ∧
  (∃ st results st',
     FacilityService.constructor anonymous = Some st ∧
     FacilityService.getCount st = Some (1, st) ∧
     FacilityService.filterByAmenities ["pool"] st = Some (results, st') ∧
     ids results = [""] ∧
     FacilityService.getById "" st = Some (None, st)).
Proof.
  split.
  - eexists. split; [vm_compute; reflexivity|].
    split; [vm_compute; reflexivity|]. split; [discriminate|].
    split; vm_compute; reflexivity.
  - eexists _, _, _. split; [vm_compute; reflexivity|].
    split; [vm_compute; reflexivity|]. split; [vm_compute; reflexivity|].
    split; reflexivity.
Qed.

(** C5, amended.  The constructor makes no uniqueness check and skips no
    record: every input record is kept in the record sequence, so
    [getCount()] is the length of the input.  In the identifier map a record
    replaces an earlier record with the same identifier: for a non-empty
    [id], [getById(id)] returns the last input record carrying [id]; for the
    empty string [getById] returns [null], also when a record carries it.
    When the identifiers of the input are pairwise distinct, [getById]
    returns each record under its identifier, the empty identifier apart, and
    the count is the number of distinct identifiers. *)
Theorem C5_last_record_wins (data : list Facility.t) :
  ∃ st, FacilityService.constructor data = Some st ∧
    facilities st = data ∧
    FacilityService.getCount st = Some (length data, st) ∧
    (∀ pre f post, data = pre ++ f :: post →
       (∀ g, g ∈ post → Facility.id g ≠ Facility.id f) →
       FacilityService.getById (Facility.id f) st
       = Some (if Js.nonEmpty (Facility.id f) then Some f else None, st)) ∧
    FacilityService.getById "" st = Some (None, st) ∧
    (NoDup (Facility.id <$> data) →
       (∀ f, f ∈ data →
          FacilityService.getById (Facility.id f) st
          = Some (if Js.nonEmpty (Facility.id f) then Some f else None, st)) ∧
       length data = length (remove_dups (Facility.id <$> data))).
Proof.
  destruct (constructor_indexed data) as (st & Hrun & Hb & Hdata & Hst).
  exists st. split; [done|]. split; [done|]. split.
  { unfold FacilityService.getCount, get. by rewrite Hdata. }
  assert (∀ pre f post, data = pre ++ f :: post →
       (∀ g, g ∈ post → Facility.id g ≠ Facility.id f) →
       FacilityService.getById (Facility.id f) st
       = Some (if Js.nonEmpty (Facility.id f) then Some f else None, st)) as Hlast.
  { intros pre f post -> Hpost. rewrite getById_spec.
    by rewrite (built_ids _ _ Hb), idMap_last. }
  split; [exact Hlast|]. split; [by rewrite getById_spec|].
  intros Hnd. split.
  - intros f Hf.
    apply list_elem_of_split in Hf as (pre & post & ->).
    apply (Hlast pre f post); [done|].
    intros g Hg Heq.
    rewrite fmap_app, fmap_cons in Hnd.
    apply NoDup_app in Hnd as (_ & _ & Hnd). apply NoDup_cons in Hnd as [Hnd _].
    apply Hnd. rewrite <-Heq. by apply list_elem_of_fmap_2.
  - rewrite <-(length_fmap Facility.id data). apply Permutation_length.
    apply NoDup_Permutation; [done|apply NoDup_remove_dups|].
    intros x. by rewrite elem_of_remove_dups.
Qed.

(** C7, as stated, fails: [getById] does not trim.  The identifier ["f1"]
    padded with blanks trims to ["f1"], which is stored, and is not found. *)
Lemma C7_padded_identifier_not_found :
  ∃ st, FacilityService.constructor scenario = Some st ∧
    Js.trim " f1 " = "f1" ∧
    FacilityService.getById "f1" st
      = Some (Some (facility "f1" "City Fitness Central" ["Pool"; "Sauna"]), st) ∧
    FacilityService.getById " f1 " st = Some (None, st).
Proof.
  eexists. split; [vm_compute; reflexivity|].
  split; [reflexivity|]. split; vm_compute; reflexivity.
Qed.

(** C7, amended.  [getById] looks the identifier up as it is given, without
    trimming or any other normalization.  It always returns normally: the
    not-found value when the identifier is empty or is not, character for
    character, the identifier of a stored record, and otherwise the full
    stored record filed under that identifier.  White space around the
    identifier is part of it. *)
Theorem C7_getById_exact_lookup (data : list Facility.t) (id : string) :
  ∃ st result,
    FacilityService.constructor data = Some st ∧
    FacilityService.getById id st = Some (result, st) ∧
    (id = "" ∨ (∀ f, f ∈ data → Facility.id f ≠ id) → result = None) ∧
    (id ≠ "" → (∃ f, f ∈ data ∧ Facility.id f = id) →
       ∃ f, result = Some f ∧ f ∈ data ∧ Facility.id f = id).
Proof.
  destruct (constructor_indexed data) as (st & Hrun & Hb & Hdata & Hst).
  exists st. rewrite getById_spec. eexists. split; [done|]. split; [done|].
  rewrite (built_ids _ _ Hb). split.
  - intros [->|Hno]; [done|]. destruct (Js.nonEmpty id); [|done].
    by apply idMap_lookup_None.
  - intros Hne (f & Hf & <-).
    assert (Js.nonEmpty (Facility.id f) = true) as ->
      by (by destruct (Facility.id f)).
    destruct (idMap_is_Some data f Hf) as [g Hg]. exists g.
    by destruct (idMap_lookup_Some _ _ _ Hg).
Qed.

(** C8, as stated, fails: labels are not trimmed.  ["Pool"] is the amenity of
    both records of the scenario, and the same label between blanks finds
    none; in the other direction, a record whose amenity was given as
    ["Pool "] is not found by ["Pool"]. *)
Lemma C8_padded_label_not_found :
  ∃ st results st1 st2 st' st3,
    FacilityService.constructor scenario = Some st ∧
    FacilityService.filterByAmenities ["Pool"] st = Some (results, st1) ∧
    ids results = ["f1"; "f2"] ∧
    Js.trim " Pool " = "Pool" ∧
    FacilityService.filterByAmenities [" Pool "] st = Some ([], st2) ∧
    FacilityService.constructor [facility "f3" "Harbour Gym" ["Pool "]] = Some st' ∧
    FacilityService.filterByAmenities ["Pool"] st' = Some ([], st3).
Proof.
  eexists _, _, _, _, _, _. split; [vm_compute; reflexivity|].
  split; [vm_compute; reflexivity|]. split; [reflexivity|]. split; [reflexivity|].
  split; [vm_compute; reflexivity|].
  split; vm_compute; reflexivity.
Qed.

(** C8, amended.  Amenity lookup is insensitive to letter case and sensitive
    to white space: a label is lower-cased, and not trimmed, both when a
    record is indexed and when it is looked up.  [filterByAmenities([a])]
    returns the records that carry an amenity with the lower-case form of
    [a]; labels with the same lower-case form give the same result; a label
    whose lower-case form no record carries gives the empty result. *)
Theorem C8_amenity_lookup_case_insensitive (data : list Facility.t) :
  ∃ st, FacilityService.constructor data = Some st ∧
    (∀ a, ∃ results st',
       FacilityService.filterByAmenities [a] st = Some (results, st') ∧
       ∀ x, x ∈ ids results ↔
            ∃ f b, f ∈ data ∧ Facility.id f = x ∧ b ∈ Facility.facilities f ∧
                   Js.toLowerCase b = Js.toLowerCase a) ∧
    (∀ a b, Js.toLowerCase a = Js.toLowerCase b →
       FacilityService.filterByAmenities [a] st
       = FacilityService.filterByAmenities [b] st) ∧
    (∀ a, (∀ f b, f ∈ data → b ∈ Facility.facilities f →
                  Js.toLowerCase b ≠ Js.toLowerCase a) →
       ∃ st', FacilityService.filterByAmenities [a] st = Some ([], st')).
Proof.
  destruct (constructor_indexed data) as (st & Hrun & Hb & Hdata & Hst).
  exists st. split; [done|].
  assert (∀ a, ∃ results st',
       FacilityService.filterByAmenities [a] st = Some (results, st') ∧
       ∀ x, x ∈ ids results ↔
            ∃ f b, f ∈ data ∧ Facility.id f = x ∧ b ∈ Facility.facilities f ∧
                   Js.toLowerCase b = Js.toLowerCase a) as Hone.
  { intros a.
    destruct (filterByAmenities_spec [a] st Hst) as (r & st' & Hr & _ & _ & Hids & _).
    exists r, st'. split; [done|]. intros x. rewrite Hids.
    rewrite fmap_cons, fmap_nil, hasAll_cons.
    pose proof (built_amenities _ _ Hb (Js.toLowerCase a) x) as Hpost.
    unfold amenityPosting in Hpost. split.
    - intros (_ & (l & Hl & Hx) & _). rewrite Hl in Hpost. simpl in Hpost.
      apply Hpost in Hx as (f & Hf & Hid & (b & Hb' & Hin)%list_elem_of_fmap).
      exists f, b. done.
    - intros (f & b & Hf & Hid & Hin & Hlow).
      split; [done|]. split; [|by intros ? ?%elem_of_nil].
      assert (x ∈ from_option (members st) [] (amenityIndex st !! Js.toLowerCase a))
        as Hx.
      { apply Hpost. exists f. split; [done|]. split; [done|].
        rewrite <-Hlow. by apply list_elem_of_fmap_2. }
      destruct (amenityIndex st !! Js.toLowerCase a) as [l|];
        [eauto|by apply elem_of_nil in Hx]. }
  split; [exact Hone|]. split.
  - intros a b Hab. unfold FacilityService.filterByAmenities.
    by rewrite !fmap_cons, Hab.
  - intros a Hno. destruct (Hone a) as (r & st' & Hr & Hids).
    exists st'. rewrite Hr. do 2 f_equal.
    destruct r as [|r0 r]; [done|]. exfalso.
    destruct (Hids (FacilitySearchResult.id r0)) as [(f & b & Hf & _ & Hin & Hlow) _].
    { unfold ids. rewrite fmap_cons. left. }
    by apply (Hno f b).
Qed.

(** ** Ranking *)

#[export] Instance codeUnit_consistent : Consistent codeUnitCollator.
Proof.
  split; unfold localeCompare, codeUnitCollator, codeUnitCompare.
  - intros a. pose proof (String.compare_antisym a a) as Hanti.
    by destruct (String.compare a a).
  - intros a b. rewrite (String.compare_antisym a b).
    by destruct (String.compare b a).
  - intros a b c Hab Hbc.
    assert (String.le a b) as Hab'.
    { unfold String.le, String.leb. by destruct (String.compare a b). }
    assert (String.le b c) as Hbc'.
    { unfold String.le, String.leb. by destruct (String.compare b c). }
    assert (String.le a c) as Hac by (by etrans).
    unfold String.le, String.leb in Hac. by destruct (String.compare a c).
Qed.

Section Ranking.
Context `{Consistent}.

Lemma localeCompare_total a b :
  (localeCompare a b ≤ 0)%Z ∨ (localeCompare b a ≤ 0)%Z.
Proof.
  destruct (Z.le_gt_cases (localeCompare a b) 0) as [?|Hgt]; [by left|right].
  pose proof (localeCompare_swap a b) as Hswap.
  rewrite (Z.sgn_pos _ Hgt) in Hswap.
  apply Z.lt_le_incl, Z.sgn_neg_iff. lia.
Qed.

(** The comparator is at most zero exactly in these cases. *)
Lemma relevance_le q a b :
  (FacilityService.relevance q a b ≤ 0)%Z ↔
  tier q a = 0 ∨ tier q a < tier q b ∨
  (tier q a = tier q b ∧
   (localeCompare (FacilitySearchResult.name a) (FacilitySearchResult.name b) ≤ 0)%Z).
Proof.
  unfold FacilityService.relevance, tier. cbv zeta.
  destruct (bool_decide (Js.toLowerCase (FacilitySearchResult.name a) = q)),
    (bool_decide (Js.toLowerCase (FacilitySearchResult.name b) = q)),
    (Js.startsWith (Js.toLowerCase (FacilitySearchResult.name a)) q),
    (Js.startsWith (Js.toLowerCase (FacilitySearchResult.name b)) q);
    cbn [andb negb]; split; intros; lia.
Qed.

Lemma relevance_total q a b :
  (FacilityService.relevance q a b ≤ 0)%Z ∨ (FacilityService.relevance q b a ≤ 0)%Z.
Proof.
  rewrite !relevance_le.
  destruct (localeCompare_total (FacilitySearchResult.name a) (FacilitySearchResult.name b)).
  - destruct (decide (tier q a ≤ tier q b)); [left|right]; lia.
  - destruct (decide (tier q b ≤ tier q a)); [right|left]; lia.
Qed.

Lemma relevance_trans q a b c :
  (FacilityService.relevance q a b ≤ 0)%Z → (FacilityService.relevance q b c ≤ 0)%Z →
  (FacilityService.relevance q a c ≤ 0)%Z.
Proof.
  rewrite !relevance_le. intros Hab Hbc.
  destruct (decide (tier q a = 0)); [by left|]. right.
  destruct Hab as [?|[?|[? Hab]]], Hbc as [?|[?|[? Hbc]]]; try lia.
  right. split; [lia|]. by eapply localeCompare_trans.
Qed.

Lemma StronglySorted_lookup {A} (R : A → A → Prop) l i j a b :
  StronglySorted R l → i < j → l !! i = Some a → l !! j = Some b → R a b.
Proof.
  intros Hl. revert i j. induction Hl as [|x l Hl IH Hx]; intros i j Hij Hi Hj.
  - by rewrite lookup_nil in Hi.
  - destruct j as [|j]; [lia|]. destruct i as [|i]; simpl in *.
    + injection Hi as <-. eapply Forall_forall; [exact Hx|].
      by eapply list_elem_of_lookup_2.
    + apply (IH i j); [lia|done..].
Qed.

(** Unless both results equal the query, the comparator reverses its sign
    when its arguments are swapped. *)
Lemma relevance_swap q a b :
  ¬ (tier q a = 0 ∧ tier q b = 0) →
  Z.sgn (FacilityService.relevance q b a) = (- Z.sgn (FacilityService.relevance q a b))%Z.
Proof.
  unfold FacilityService.relevance, tier. cbv zeta.
  destruct (bool_decide (Js.toLowerCase (FacilitySearchResult.name a) = q)),
    (bool_decide (Js.toLowerCase (FacilitySearchResult.name b) = q)),
    (Js.startsWith (Js.toLowerCase (FacilitySearchResult.name a)) q),
    (Js.startsWith (Js.toLowerCase (FacilitySearchResult.name b)) q);
    cbn [andb negb]; intros Hne; try done; try (by destruct Hne);
    apply localeCompare_swap.
Qed.

End Ranking.

(** When the records whose lower-case name is the query share one identifier,
    at most one result equals the query. *)
Lemma project_exact_unique data st query xs a b :
  facilityIndex st = idMap data →
  (∀ f g, f ∈ exactMatches data query → g ∈ exactMatches data query →
          Facility.id f = Facility.id g) →
  a ∈ project st xs → b ∈ project st xs →
  tier (normalize query) a = 0 → tier (normalize query) b = 0 → a = b.
Proof.
  intros Hids Hone (x & f & _ & Hf & ->)%elem_of_project
    (y & g & _ & Hg & ->)%elem_of_project Ha Hb.
  rewrite Hids in Hf, Hg.
  destruct (idMap_lookup_Some _ _ _ Hf) as [Hx Hfin].
  destruct (idMap_lookup_Some _ _ _ Hg) as [Hy Hgin].
  assert (∀ h, h ∈ data → tier (normalize query) (toResult h) = 0 →
               h ∈ exactMatches data query) as Hexact.
  { intros h Hh Ht. apply list_elem_of_filter. split; [|done].
    unfold tier in Ht. cbn [FacilitySearchResult.name toResult] in Ht.
    destruct (bool_decide (Js.toLowerCase (Facility.name h) = normalize query)) eqn:Hd;
      [by apply bool_decide_eq_true in Hd|].
    by destruct (Js.startsWith _ _). }
  assert (x = y) as -> by (rewrite <-Hx, <-Hy; apply Hone; auto).
  congruence.
Qed.

(** C1, as stated, fails.  Two matching records with the same display name
    and different identifiers compare as equal in both directions, so the
    order of their results is the order in which they were indexed, not the
    order of their identifiers: the same two records give ["f2"; "f1"] or
    ["f1"; "f2"].  Of two records whose lower-case names both equal the
    query, the comparator puts each before the other.  And the name of a
    record is lower-cased but not trimmed: the record named [" City Gym"],
    whose trimmed lower-case name is the query ["city gym"], is of the third
    tier and comes after a record whose name only starts with the query. *)
Lemma C1_ties_not_broken_by_identifier :
  FacilityService.relevance "city"
    (toResult (facility "f1" "City Gym" ["Sauna"]))
    (toResult (facility "f2" "City Gym" ["Pool"])) = 0%Z ∧
  FacilityService.relevance "city"
    (toResult (facility "f2" "City Gym" ["Pool"]))
    (toResult (facility "f1" "City Gym" ["Sauna"])) = 0%Z ∧
  (∃ st results st',
     FacilityService.constructor twins = Some st ∧
     FacilityService.searchByName "city" st = Some (results, st') ∧
     ids results = ["f2"; "f1"]) ∧
  (∃ st results st',
     FacilityService.constructor (reverse twins) = Some st ∧
     FacilityService.searchByName "city" st = Some (results, st') ∧
     ids results = ["f1"; "f2"]) ∧
  FacilityService.relevance "city gym"
    (toResult (facility "f1" "City Gym" []))
    (toResult (facility "f3" "CITY GYM" [])) = (-1)%Z ∧
  FacilityService.relevance "city gym"
    (toResult (facility "f3" "CITY GYM" []))
    (toResult (facility "f1" "City Gym" [])) = (-1)%Z ∧
  (∃ st results st',
     FacilityService.constructor padded = Some st ∧
     FacilityService.searchByName "city gym" st = Some (results, st') ∧
     Js.trim (Js.toLowerCase " City Gym") = normalize "city gym" ∧
     tier (normalize "city gym") (toResult (facility "f2" " City Gym" [])) = 2 ∧
     tier (normalize "city gym") (toResult (facility "f1" "City Gym Plus" [])) = 1 ∧
     ids results = ["f1"; "f2"]).
Proof.
  split; [reflexivity|]. split; [reflexivity|]. split; [|split].
  - eexists _, _, _. split; [vm_compute; reflexivity|].
    split; [vm_compute; reflexivity|]. reflexivity.
  - eexists _, _, _. split; [vm_compute; reflexivity|].
    split; [vm_compute; reflexivity|]. reflexivity.
  - split; [reflexivity|]. split; [reflexivity|].
    eexists _, _, _. split; [vm_compute; reflexivity|].
    split; [vm_compute; reflexivity|]. by repeat split.
Qed.

(** C1, amended.  For every search query that is the lower-case name of the
    records of at most one identifier, [searchByName] returns its results in
    three tiers: first the result whose lower-case name (the name is not
    trimmed) equals the normalized query, of which there is at most one, then
    the results whose lower-case name starts with it, then all others; a
    result of a lower tier compares before a result of a higher tier.  Within
    the second and within the third tier the results are in ascending order
    of [localeCompare] on the display names, and there the comparator is
    [localeCompare] of the display names alone: it does not look at
    identifiers, two records with the same display name compare as equal, and
    results that the comparator does not put the other way round keep the
    order in which they were matched.  The array returned is the only
    permutation of the matched results that is sorted by the comparator and
    keeps the order of the results that compare as equal: it does not depend
    on the algorithm of the sort.  (Nothing is said of a query that the
    records of two identifiers equal: the comparator then puts each of the
    two before the other.) *)
Theorem C1_three_tier_order `{Consistent} (data : list Facility.t) (query : string) :
  (∀ f g, f ∈ exactMatches data query → g ∈ exactMatches data query →
          Facility.id f = Facility.id g) →
  ∃ st results st',
    FacilityService.constructor data = Some st ∧
    FacilityService.searchByName query st = Some (results, st') ∧
    (∀ i j a b, i < j → results !! i = Some a → results !! j = Some b →
       tier (normalize query) a ≤ tier (normalize query) b ∧
       (tier (normalize query) a = tier (normalize query) b →
        tier (normalize query) a ≠ 0 →
        (localeCompare (FacilitySearchResult.name a) (FacilitySearchResult.name b) ≤ 0)%Z)) ∧
    (∀ a b, a ∈ results → b ∈ results →
       tier (normalize query) a = 0 → tier (normalize query) b = 0 → a = b) ∧
    (∀ a b, tier (normalize query) a < tier (normalize query) b →
       (FacilityService.relevance (normalize query) a b < 0)%Z ∧
       (0 < FacilityService.relevance (normalize query) b a)%Z) ∧
    (∀ a b, tier (normalize query) a = tier (normalize query) b →
       tier (normalize query) a ≠ 0 →
       FacilityService.relevance (normalize query) a b
       = localeCompare (FacilitySearchResult.name a) (FacilitySearchResult.name b)) ∧
    (∀ a b, FacilitySearchResult.name a = FacilitySearchResult.name b →
       tier (normalize query) a ≠ 0 →
       FacilityService.relevance (normalize query) a b = 0%Z) ∧
    (blank query = false →
     (∀ a b, [a; b] `sublist_of` project st (matches st query) →
        (FacilityService.relevance (normalize query) a b ≤ 0)%Z →
        [a; b] `sublist_of` results) ∧
     (∀ sorted,
        sorted ≡ₚ project st (matches st query) →
        StronglySorted (λ a b, (FacilityService.relevance (normalize query) a b ≤ 0)%Z)
          sorted →
        (∀ a b, [a; b] `sublist_of` project st (matches st query) →
           FacilityService.relevance (normalize query) a b = 0%Z →
           [a; b] `sublist_of` sorted) →
        sorted = results)).
Proof.
  intros Hone.
  destruct (constructor_indexed data) as (st & Hrun & Hbuilt & _ & Hst).
  destruct (searchByName_results query st Hst) as (st' & Hsearch & _).
  pose proof (λ a b, project_exact_unique data st query (matches st query) a b
                       (built_ids _ _ Hbuilt) Hone) as Hunique.
  set (q := normalize query) in *.
  assert (∀ a b, tier q a = tier q b → tier q a ≠ 0 →
       FacilityService.relevance q a b
       = localeCompare (FacilitySearchResult.name a) (FacilitySearchResult.name b))
    as Hsame.
  { intros a b. unfold tier, FacilityService.relevance. cbv zeta.
    destruct (bool_decide (Js.toLowerCase (FacilitySearchResult.name a) = q)); [done|].
    destruct (bool_decide (Js.toLowerCase (FacilitySearchResult.name b) = q));
      [by destruct (Js.startsWith _ q)|].
    by destruct (Js.startsWith (Js.toLowerCase (FacilitySearchResult.name a)) q),
      (Js.startsWith (Js.toLowerCase (FacilitySearchResult.name b)) q). }
  exists st. eexists _, st'. split; [done|]. split; [exact Hsearch|].
  split; [|split; [|split; [|split; [exact Hsame|split]]]].
  - intros i j a b Hij Hi Hj.
    destruct (blank query); [by rewrite lookup_nil in Hi|].
    assert (FacilityService.relevance q a b ≤ 0)%Z as Hab.
    { pose proof (sort_StronglySorted (FacilityService.relevance q)
        (project st (matches st query)) (relevance_total q) (relevance_trans q))
        as Hsorted.
      exact (StronglySorted_lookup _ _ i j a b Hsorted Hij Hi Hj). }
    apply relevance_le in Hab. lia.
  - intros a b Ha Hb. destruct (blank query); [by apply elem_of_nil in Ha|].
    rewrite sort_Permutation in Ha, Hb. by apply Hunique.
  - intros a b Hlt. unfold tier, FacilityService.relevance in *. cbv zeta in *.
    destruct (bool_decide (Js.toLowerCase (FacilitySearchResult.name a) = q)),
      (bool_decide (Js.toLowerCase (FacilitySearchResult.name b) = q)),
      (Js.startsWith (Js.toLowerCase (FacilitySearchResult.name a)) q),
      (Js.startsWith (Js.toLowerCase (FacilitySearchResult.name b)) q);
      cbn [andb negb]; lia.
  - intros a b Hname Hne. rewrite Hsame; [|by unfold tier; rewrite Hname|done].
    rewrite Hname. apply localeCompare_refl.
  - intros ->. split; [intros a b Hab Hle; by apply sort_stable|].
    intros sorted Hp Hsorted Hstable.
    apply sort_unique; try done.
    + eapply NoDup_fmap_1. apply NoDup_ids_project.
      * intros i f Hf. by apply (indexed_id _ Hst).
      * apply NoDup_live_addAll, NoDup_nil_2.
    + apply relevance_total.
    + apply relevance_trans.
    + intros a b Ha Hb Hne. apply relevance_swap. intros [Hta Htb].
      by apply Hne, Hunique.
Qed.

Lemma C1_three_tier_order_witness :
  ∃ st results st',
    FacilityService.constructor scenario = Some st ∧
    FacilityService.searchByName "City Gym Plus" st = Some (results, st') ∧
    ∀ i j a b, i < j → results !! i = Some a → results !! j = Some b →
      tier "city gym plus" a ≤ tier "city gym plus" b ∧
      (tier "city gym plus" a = tier "city gym plus" b → tier "city gym plus" a ≠ 0 →
       (localeCompare (FacilitySearchResult.name a) (FacilitySearchResult.name b) ≤ 0)%Z).
Proof.
  destruct (C1_three_tier_order (H := codeUnit_consistent) scenario "City Gym Plus")
    as (st & results & st' & Hcreate & Hsearch & Hsorted & _).
  - assert (exactMatches scenario "City Gym Plus" = [facility "f2" "City Gym Plus" ["Pool"]])
      as -> by (vm_compute; reflexivity).
    by intros f g ->%list_elem_of_singleton ->%list_elem_of_singleton.
  - exists st, results, st'. split; [exact Hcreate|]. split; [exact Hsearch|].
    exact Hsorted.
Defined.




(** The name index has one entry for every distinct token of the indexed
    names. *)
Lemma nameIndex_vocabulary data st :
  FacilityService.constructor data = Some st →
  length (nameIndex st)
  = length (remove_dups
              (data ≫= λ f, FacilityService.tokenizeName (Facility.name f))).
Proof.
  intros Hrun. destruct (constructor_built data) as (st0 & Hrun0 & Hb & _).
  assert (st0 = st) as -> by congruence.
  rewrite <-(length_fmap fst (nameIndex st)).
  apply Permutation_length, NoDup_Permutation.
  - apply Hb.
  - apply NoDup_remove_dups.
  - intros t. rewrite elem_of_remove_dups, list_elem_of_bind. split.
    + intros (f & Hf & Ht)%(constructor_keys data st Hrun). eauto.
    + intros (f & Ht & Hf).
      assert (Facility.id f ∈ namePosting st t) as Hin
        by (apply (built_names _ _ Hb); eauto).
      unfold namePosting in Hin.
      destruct (NameMap.get t (nameIndex st)) as [l|] eqn:Hl;
        [|by apply elem_of_nil in Hin].
      apply list_elem_of_fmap. exists (t, l). split; [done|]. by apply NameMap_get_elem.
Qed.

(** C6: what the code does.  A search visits, for each query token, every
    entry of the name index, and the name index has one entry for every
    distinct token of the indexed names: the number of entries visited is the
    number of query tokens times the size of the vocabulary.  The same
    one-token query ["a"] visits one entry in a vocabulary of one token and
    three entries in a vocabulary of three. *)
Theorem C6_lookup_scans_vocabulary `{Collator} (data : list Facility.t) (query : string) :
  ∃ st results st',
    FacilityService.constructor data = Some st ∧ visited st = 0 ∧
    FacilityService.searchByName query st = Some (results, st') ∧
    visited st' = (if blank query then 0
                   else length (queryTokens query) * length (nameIndex st)) ∧
    length (nameIndex st)
    = length (remove_dups
                (data ≫= λ f, FacilityService.tokenizeName (Facility.name f))) ∧
    (∃ st1 r1 st1' st3 r3 st3',
       FacilityService.constructor smallVocabulary = Some st1 ∧
       FacilityService.searchByName (collator := codeUnitCollator) "a" st1 = Some (r1, st1') ∧
       visited st1' = 1 ∧
       FacilityService.constructor largeVocabulary = Some st3 ∧
       FacilityService.searchByName (collator := codeUnitCollator) "a" st3 = Some (r3, st3') ∧
       visited st3' = 3).
Proof.
  destruct (constructor_indexed data) as (st & Hrun & Hb & _ & Hst).
  destruct (searchByName_results query st Hst) as (st' & Hsearch & _ & Hvis).
  exists st. eexists _, st'. split; [done|].
  split; [apply (built_visited _ _ Hb)|]. split; [exact Hsearch|]. split.
  { rewrite Hvis, (built_visited _ _ Hb). by destruct (blank query). }
  split; [by apply nameIndex_vocabulary|].
  eexists _, _, _, _, _, _.
  split; [vm_compute; reflexivity|]. split; [vm_compute; reflexivity|].
  split; [vm_compute; reflexivity|]. split; [vm_compute; reflexivity|].
  split; vm_compute; reflexivity.
Qed.

(** * Further properties: the queries, the routes, the scan-based version, the middleware *)

(** ** White space, trimming and case *)

Lemma trimStart_allSpace s : allSpace s → Js.trimStart s = "".
Proof.
  unfold allSpace. induction s as [|c s IH]; simpl; [done|].
  intros [Hc Hs]%Forall_cons. rewrite Hc. auto.
Qed.

Lemma trimEnd_nonspace c s :
  Js.isWhiteSpace c = false → ∃ r, Js.trimEnd (String c s) = String c r.
Proof. intros Hc. simpl. destruct (Js.trimEnd s); rewrite ?Hc; eauto. Qed.

Lemma trimStart_cases s :
  (Js.trimStart s = "" ∧ allSpace s) ∨
  (∃ c r, Js.trimStart s = String c r ∧ Js.isWhiteSpace c = false).
Proof.
  unfold allSpace. induction s as [|c s IH]; simpl.
  - left. split; [done|constructor].
  - destruct (Js.isWhiteSpace c) eqn:Hc.
    + destruct IH as [[-> Hs]|IH]; [left|right; done].
      split; [done|]. by constructor.
    + right. eauto.
Qed.

Lemma trim_cases s :
  (Js.trim s = "" ∧ allSpace s) ∨
  (∃ c r, Js.trim s = String c r ∧ Js.isWhiteSpace c = false).
Proof.
  unfold Js.trim. destruct (trimStart_cases s) as [[-> Hs]|(c & r & -> & Hc)].
  - left. done.
  - right. destruct (trimEnd_nonspace c r Hc) as [r' ->]. eauto.
Qed.

Lemma trim_allSpace s : Js.trim s = "" ↔ allSpace s.
Proof.
  split.
  - intros Ht. destruct (trim_cases s) as [[_ Hs]|(c & r & Hr & _)]; [done|congruence].
  - intros Hs. unfold Js.trim. by rewrite trimStart_allSpace.
Qed.

Lemma blank_allSpace q : blank q = true ↔ allSpace q.
Proof.
  rewrite <- trim_allSpace. unfold blank. destruct q as [|c q]; [done|].
  cbn [Js.nonEmpty negb orb]. rewrite Nat.eqb_eq.
  destruct (Js.trim (String c q)); simpl; split; congruence.
Qed.

Lemma trimStart_toLowerCase s :
  Js.trimStart (Js.toLowerCase s) = Js.toLowerCase (Js.trimStart s).
Proof.
  induction s as [|c s IH]; simpl; [done|].
  rewrite lowerChar_space. by destruct (Js.isWhiteSpace c).
Qed.

Lemma trimEnd_toLowerCase s :
  Js.trimEnd (Js.toLowerCase s) = Js.toLowerCase (Js.trimEnd s).
Proof.
  induction s as [|c s IH]; simpl; [done|].
  rewrite IH, lowerChar_space.
  destruct (Js.trimEnd s); simpl; [|done]. by destruct (Js.isWhiteSpace c).
Qed.

Lemma trim_toLowerCase s : Js.trim (Js.toLowerCase s) = Js.toLowerCase (Js.trim s).
Proof. unfold Js.trim. by rewrite trimStart_toLowerCase, trimEnd_toLowerCase. Qed.

Lemma blank_queryTokens q : blank q = true → queryTokens q = [].
Proof.
  intros Hq%blank_allSpace%trim_allSpace.
  unfold queryTokens, normalize. by rewrite trim_toLowerCase, Hq.
Qed.

Lemma nonblank_queryTokens q :
  blank q = false → ∃ qt rest, queryTokens q = qt :: rest.
Proof.
  intros Hq. destruct (trim_cases q) as [[_ Hs]|(c & r & Hr & Hc)].
  - apply blank_allSpace in Hs. congruence.
  - unfold queryTokens, normalize. rewrite trim_toLowerCase, Hr. simpl.
    rewrite lowerChar_space, Hc.
    destruct (Js.split (Js.toLowerCase r)); rewrite filter_cons_True by done; eauto.
Qed.

Lemma normalize_lowered q : lowered (normalize q).
Proof. unfold normalize. rewrite trim_toLowerCase. apply toLowerCase_lowered. Qed.

Lemma queryTokens_word q qt :
  qt ∈ queryTokens q →
  blank qt = false ∧ normalize qt = qt ∧ queryTokens qt = [qt].
Proof.
  unfold queryTokens at 1. intros [Hne Hin]%list_elem_of_filter.
  assert (noSpace qt) as Hns.
  { pose proof (split_noSpace (normalize q)) as Hall.
    rewrite Forall_forall in Hall. auto. }
  assert (lowered qt) as Hlow.
  { pose proof (split_chars (λ c, Js.lowerChar c = c) _ (normalize_lowered q)) as Hall.
    rewrite Forall_forall in Hall. by apply Hall. }
  assert (normalize qt = qt) as Hn.
  { unfold normalize. by rewrite toLowerCase_id, trim_word. }
  split; [|split; [done|]].
  - unfold blank. rewrite trim_word by done.
    destruct qt; [done|]. done.
  - unfold queryTokens. rewrite Hn, split_word by done.
    by rewrite filter_cons_True, filter_nil.
Qed.

(** ** The name index in terms of the records *)

Lemma tokenHits_built data st qt x :
  built data st →
  x ∈ tokenHits st qt ↔
  ∃ f t, f ∈ data ∧ Facility.id f = x ∧
         t ∈ FacilityService.tokenizeName (Facility.name f) ∧
         Js.startsWith t qt = true.
Proof.
  intros Hb. unfold tokenHits. rewrite elem_of_app. split.
  - intros [Hx|Hx].
    + change (x ∈ namePosting st qt) in Hx.
      apply (built_names _ _ Hb) in Hx as (f & ? & ? & ?).
      exists f, qt. auto using startsWith_refl.
    + unfold scanHits in Hx. apply list_elem_of_bind in Hx as ([t l] & Hx & Hin).
      cbn [fst snd] in Hx.
      destruct (negb (bool_decide (t = qt)) && Js.startsWith t qt) eqn:E;
        [|by apply elem_of_nil in Hx].
      apply andb_true_iff in E as [_ E].
      assert (x ∈ namePosting st t) as Hp.
      { unfold namePosting.
        by rewrite (NameMap_elem_get _ _ _ (separated_keys _ (built_separated _ _ Hb)) Hin). }
      apply (built_names _ _ Hb) in Hp as (f & ? & ? & ?). exists f, t. auto.
  - intros (f & t & Hf & Hid & Ht & Hs).
    assert (x ∈ namePosting st t) as Hp by (apply (built_names _ _ Hb); eauto).
    unfold namePosting in Hp.
    destruct (NameMap.get t (nameIndex st)) as [l|] eqn:El;
      [|by apply elem_of_nil in Hp].
    simpl in Hp. destruct (decide (t = qt)) as [->|Hne].
    + left. by rewrite El.
    + right. unfold scanHits. apply list_elem_of_bind. exists (t, l).
      split; [|by apply NameMap_get_elem].
      cbn [fst snd]. by rewrite bool_decide_eq_false_2, Hs.
Qed.

Lemma matches_built data st q x :
  built data st →
  x ∈ matches st q ↔
  ∃ f qt t, f ∈ data ∧ Facility.id f = x ∧ qt ∈ queryTokens q ∧
            t ∈ FacilityService.tokenizeName (Facility.name f) ∧
            Js.startsWith t qt = true.
Proof.
  intros Hb. unfold matches. rewrite elem_of_live_addAll, list_elem_of_bind.
  split.
  - intros [(qt & Hx & Hq)|Hx]; [|by apply elem_of_nil in Hx].
    apply (tokenHits_built _ _ _ _ Hb) in Hx as (f & t & ? & ? & ? & ?).
    exists f, qt, t. auto.
  - intros (f & qt & t & ? & ? & ? & ? & ?). left. exists qt. split; [|done].
    apply (tokenHits_built _ _ _ _ Hb). eauto 10.
Qed.

Lemma searchByName_ids `{Collator} data st q :
  built data st → facilities st = data →
  ∃ results st',
    FacilityService.searchByName q st = Some (results, st') ∧
    ∀ x, x ∈ ids results ↔
         ∃ f qt t, f ∈ data ∧ Facility.id f = x ∧ qt ∈ queryTokens q ∧
                   t ∈ FacilityService.tokenizeName (Facility.name f) ∧
                   Js.startsWith t qt = true.
Proof.
  intros Hb Hf. pose proof (built_indexed _ _ Hb Hf) as Hi.
  destruct (searchByName_results q st Hi) as (st' & Hrun & _).
  eexists _, st'. split; [exact Hrun|]. intros x.
  destruct (blank q) eqn:Hq.
  - rewrite (blank_queryTokens _ Hq). split.
    + by intros ?%elem_of_nil.
    + intros (f & qt & t & _ & _ & ?%elem_of_nil & _). done.
  - rewrite elem_of_ids_sort.
    rewrite elem_of_ids_project
      by (intros i f Hl; by destruct (indexed_id _ Hi _ _ Hl)).
    rewrite (matches_built _ _ _ _ Hb). split; [tauto|].
    intros Hx. split; [done|].
    destruct Hx as (f & _ & _ & Hin & <- & _).
    rewrite (built_ids _ _ Hb). by apply idMap_is_Some.
Qed.

(** X1.  [searchByName] returns an identifier exactly when a record of the
    input with that identifier has, among the whitespace-separated words of
    its lower-cased name, one that starts with one of the words of the
    lower-cased query: the words of the query are alternatives, and nothing
    else is matched. *)
Theorem X1_search_matches_word_prefixes `{Collator} (data : list Facility.t) (query : string) :
  ∃ st results st',
    FacilityService.constructor data = Some st ∧
    FacilityService.searchByName query st = Some (results, st') ∧
    ∀ x, x ∈ ids results ↔
         ∃ f qt t, f ∈ data ∧ Facility.id f = x ∧ qt ∈ queryTokens query ∧
                   t ∈ FacilityService.tokenizeName (Facility.name f) ∧
                   Js.startsWith t qt = true.
Proof.
  destruct (constructor_built data) as (st & Hc & Hb & Hf).
  destruct (searchByName_ids data st query Hb Hf) as (results & st' & Hrun & Hx).
  by exists st, results, st'.
Qed.

(** X2.  [searchByName] reads its query up to letter case and surrounding
    white space: two queries whose trimmed lower-case forms agree give the
    same results in the same order. *)
Theorem X2_search_ignores_case_and_padding `{Collator} (data : list Facility.t)
    (q1 q2 : string) :
  Js.toLowerCase (Js.trim q1) = Js.toLowerCase (Js.trim q2) →
  ∃ st results st',
    FacilityService.constructor data = Some st ∧
    FacilityService.searchByName q1 st = Some (results, st') ∧
    FacilityService.searchByName q2 st = Some (results, st').
Proof.
  intros Heq.
  destruct (constructor_indexed data) as (st & Hc & _ & _ & Hi).
  assert (normalize q1 = normalize q2) as Hn.
  { unfold normalize. by rewrite !trim_toLowerCase. }
  assert (blank q1 = blank q2) as Hbl.
  { apply eq_true_iff_eq. rewrite !blank_allSpace, <- !trim_allSpace.
    split; intros Ht; rewrite Ht in Heq; simpl in Heq.
    - by destruct (Js.trim q2).
    - by destruct (Js.trim q1). }
  exists st. rewrite !searchByName_spec by done.
  unfold matches, queryTokens. rewrite Hn, Hbl.
  destruct (blank q2); eauto.
Qed.

Lemma X2_search_ignores_case_and_padding_witness :
  ∃ st results st',
    FacilityService.constructor scenario = Some st ∧
    FacilityService.searchByName "  CITY gym " st = Some (results, st') ∧
    FacilityService.searchByName "City Gym" st = Some (results, st').
Proof. apply (X2_search_ignores_case_and_padding scenario). reflexivity. Defined.

Lemma searchByName_allSpace `{Collator} st query :
  allSpace query → FacilityService.searchByName query st = Some ([], st).
Proof.
  intros Hq%blank_allSpace. unfold FacilityService.searchByName.
  change (negb (Js.nonEmpty query) || (String.length (Js.trim query) =? 0))
    with (blank query).
  by rewrite Hq.
Qed.

(** X3.  A query that is empty or consists of white space only returns the
    empty array without reading the indexes: no set object is allocated and
    no index entry is visited, whatever the state of the service. *)
Theorem X3_blank_query_returns_nothing `{Collator} (st : State) (query : string) :
  allSpace query →
  FacilityService.searchByName query st = Some ([], st).
Proof.
  intros Hq. apply trim_allSpace in Hq as Htrim.
  unfold FacilityService.searchByName. rewrite Htrim. cbn [String.length Nat.eqb].
  by rewrite orb_true_r.
Qed.

Lemma X3_blank_query_returns_nothing_witness :
  ∃ st, FacilityService.constructor scenario = Some st ∧
        FacilityService.searchByName (String (ascii_of_N 9) "  ") st = Some ([], st).
Proof.
  destruct (constructor_built scenario) as (st & Hc & _).
  exists st. split; [exact Hc|].
  apply (X3_blank_query_returns_nothing st). repeat constructor.
Defined.

(** X4.  The words of a query are searched independently: the records found
    for a query are those found for at least one of its words searched
    alone. *)
Theorem X4_search_is_union_over_words `{Collator} (data : list Facility.t) (query : string) :
  ∃ st results st',
    FacilityService.constructor data = Some st ∧
    FacilityService.searchByName query st = Some (results, st') ∧
    (∀ qt, qt ∈ queryTokens query →
           ∃ rs s, FacilityService.searchByName qt st = Some (rs, s)) ∧
    ∀ x, x ∈ ids results ↔
         ∃ qt rs s, qt ∈ queryTokens query ∧
                    FacilityService.searchByName qt st = Some (rs, s) ∧ x ∈ ids rs.
Proof.
  destruct (constructor_built data) as (st & Hc & Hb & Hf).
  destruct (searchByName_ids data st query Hb Hf) as (results & st' & Hrun & Hx).
  exists st, results, st'. split; [done|]. split; [done|]. split.
  - intros qt _.
    destruct (searchByName_ids data st qt Hb Hf) as (rs & s & Hrs & _). eauto.
  - intros x. rewrite Hx. split.
    + intros (f & qt & t & Hin & Hid & Hqt & Ht & Hs).
      destruct (searchByName_ids data st qt Hb Hf) as (rs & s & Hrs & Hy).
      exists qt, rs, s. split; [done|]. split; [done|]. apply Hy.
      exists f, qt, t. destruct (queryTokens_word _ _ Hqt) as (_ & _ & ->).
      rewrite list_elem_of_singleton. auto.
    + intros (qt & rs & s & Hqt & Hrs & Hin).
      destruct (searchByName_ids data st qt Hb Hf) as (rs' & s' & Hrs' & Hy).
      rewrite Hrs in Hrs'. injection Hrs' as <- <-.
      apply Hy in Hin as (f & qt' & t & ? & ? & Hq' & ? & ?).
      destruct (queryTokens_word _ _ Hqt) as (_ & _ & Hw). rewrite Hw in Hq'.
      apply list_elem_of_singleton in Hq' as ->. exists f, qt, t. auto.
Qed.

(** ** The amenity index in terms of the records *)

Lemma hasAll_built data st labels x :
  built data st →
  hasAll st (Js.toLowerCase <$> labels) x ↔
  ∀ a, a ∈ labels → ∃ f, f ∈ data ∧ Facility.id f = x ∧ carries f a.
Proof.
  intros Hb. unfold hasAll, carries. split.
  - intros H a Ha.
    destruct (H (Js.toLowerCase a)) as (l & Hl & Hx); [by apply list_elem_of_fmap_2|].
    assert (x ∈ amenityPosting st (Js.toLowerCase a)) as Hp.
    { unfold amenityPosting. by rewrite Hl. }
    apply (built_amenities _ _ Hb) in Hp as (f & Hf & Hid & Hin).
    apply list_elem_of_fmap in Hin as (b & Hb' & Hin). eauto 10.
  - intros H a' (a & -> & Ha)%list_elem_of_fmap.
    destruct (H a Ha) as (f & Hf & Hid & b & Hin & Hlow).
    assert (x ∈ amenityPosting st (Js.toLowerCase a)) as Hp.
    { apply (built_amenities _ _ Hb). exists f. split; [done|]. split; [done|].
      rewrite <- Hlow. by apply list_elem_of_fmap_2. }
    unfold amenityPosting in Hp.
    destruct (amenityIndex st !! Js.toLowerCase a) as [l|]; [eauto|].
    by apply elem_of_nil in Hp.
Qed.

Lemma filterByAmenities_ids data st labels :
  built data st → facilities st = data →
  ∃ results st',
    FacilityService.filterByAmenities labels st = Some (results, st') ∧
    NoDup (ids results) ∧
    (∀ x, x ∈ ids results ↔
          labels ≠ [] ∧
          ∀ a, a ∈ labels → ∃ f, f ∈ data ∧ Facility.id f = x ∧ carries f a) ∧
    (∀ r, r ∈ results →
          ∃ f, idMap data !! FacilitySearchResult.id r = Some f ∧ r = toResult f).
Proof.
  intros Hb Hf. pose proof (built_indexed _ _ Hb Hf) as Hi.
  destruct (filterByAmenities_spec labels st Hi) as (rs & st' & Hrun & _ & Hnd & Hx & Hr).
  exists rs, st'. split; [done|]. split; [done|]. split.
  - intros x. by rewrite Hx, (hasAll_built _ _ _ _ Hb).
  - intros r Hin. rewrite <- (built_ids _ _ Hb). auto.
Qed.

(** Records with pairwise distinct identifiers are told apart by their
    identifiers. *)
Lemma NoDup_ids_inj (data : list Facility.t) f g :
  NoDup (Facility.id <$> data) → f ∈ data → g ∈ data →
  Facility.id f = Facility.id g → f = g.
Proof.
  induction data as [|h data IH]; [by intros _ ?%elem_of_nil|].
  rewrite fmap_cons, NoDup_cons, !elem_of_cons.
  intros [Hh Hnd] [->|Hf] [->|Hg] Heq; [done| | |by apply IH].
  - exfalso. apply Hh. rewrite Heq. by apply list_elem_of_fmap_2.
  - exfalso. apply Hh. rewrite <- Heq. by apply list_elem_of_fmap_2.
Qed.

Lemma idMap_NoDup data f :
  NoDup (Facility.id <$> data) → f ∈ data → idMap data !! Facility.id f = Some f.
Proof.
  intros Hnd Hf. destruct (idMap_is_Some data f Hf) as [g Hg].
  destruct (idMap_lookup_Some _ _ _ Hg) as [Hid Hin].
  by rewrite Hg, (NoDup_ids_inj data g f Hnd Hin Hf Hid).
Qed.

(** X5.  For every list of labels, [filterByAmenities] returns, once each,
    the identifiers under which every label is carried, up to letter case, by
    some record of the input; for the empty list it returns nothing. *)
Theorem X5_amenities_all_labels (data : list Facility.t) (labels : list string) :
  ∃ st results st',
    FacilityService.constructor data = Some st ∧
    FacilityService.filterByAmenities labels st = Some (results, st') ∧
    NoDup (ids results) ∧
    ∀ x, x ∈ ids results ↔
         labels ≠ [] ∧
         ∀ a, a ∈ labels → ∃ f, f ∈ data ∧ Facility.id f = x ∧ carries f a.
Proof.
  destruct (constructor_built data) as (st & Hc & Hb & Hf).
  destruct (filterByAmenities_ids data st labels Hb Hf) as (rs & st' & Hrun & Hnd & Hx & _).
  by exists st, rs, st'.
Qed.

(** X6.  The answer of [filterByAmenities] depends on the set of lower-cased
    labels only: two label lists with the same lower-case labels, in any
    order and with any repetition, return the same records, possibly in
    another order. *)
Theorem X6_amenities_label_order_irrelevant (data : list Facility.t)
    (labels1 labels2 : list string) :
  (∀ a, a ∈ Js.toLowerCase <$> labels1 ↔ a ∈ Js.toLowerCase <$> labels2) →
  ∃ st results1 st1 results2 st2,
    FacilityService.constructor data = Some st ∧
    FacilityService.filterByAmenities labels1 st = Some (results1, st1) ∧
    FacilityService.filterByAmenities labels2 st = Some (results2, st2) ∧
    results1 ≡ₚ results2.
Proof.
  intros Hsame.
  destruct (constructor_indexed data) as (st & Hc & Hb & Hf & Hi).
  destruct (filterByAmenities_spec labels1 st Hi) as (r1 & st1 & Hrun1 & _ & Hnd1 & Hx1 & Hr1).
  destruct (filterByAmenities_spec labels2 st Hi) as (r2 & st2 & Hrun2 & _ & Hnd2 & Hx2 & Hr2).
  exists st, r1, st1, r2, st2. split; [done|]. split; [done|]. split; [done|].
  assert (labels1 ≠ [] ↔ labels2 ≠ []) as Hne.
  { destruct labels1 as [|a l1], labels2 as [|b l2]; [done| | |done].
    - specialize (Hsame (Js.toLowerCase b)). rewrite fmap_cons in Hsame.
      destruct Hsame as [_ Hs]. exfalso. eapply elem_of_nil, Hs. left.
    - specialize (Hsame (Js.toLowerCase a)). rewrite fmap_cons in Hsame.
      destruct Hsame as [Hs _]. exfalso. eapply elem_of_nil, Hs. left. }
  assert (∀ x, x ∈ ids r1 ↔ x ∈ ids r2) as Hids.
  { intros x. rewrite Hx1, Hx2. unfold hasAll.
    split; intros [? Hall]; (split; [tauto|]); intros a Ha; apply Hall, Hsame, Ha. }
  assert (∀ ra rb r, (∀ x, x ∈ ids ra → x ∈ ids rb) →
            (∀ r, r ∈ ra → ∃ f, facilityIndex st !! FacilitySearchResult.id r = Some f
                                 ∧ r = toResult f) →
            (∀ r, r ∈ rb → ∃ f, facilityIndex st !! FacilitySearchResult.id r = Some f
                                 ∧ r = toResult f) →
            r ∈ ra → r ∈ rb) as Hsub.
  { intros ra rb r Hab Ha Hbb Hin.
    assert (FacilitySearchResult.id r ∈ ids rb) as Hid
      by (apply Hab; by apply list_elem_of_fmap_2).
    apply list_elem_of_fmap in Hid as (r' & Hid & Hin').
    destruct (Ha r Hin) as (f & Hf1 & ->). destruct (Hbb r' Hin') as (f' & Hf2 & ->).
    rewrite Hid, Hf2 in Hf1. by injection Hf1 as ->. }
  apply NoDup_Permutation.
  - by apply (NoDup_fmap_1 FacilitySearchResult.id).
  - by apply (NoDup_fmap_1 FacilitySearchResult.id).
  - intros r. split; apply Hsub; try done; intros x; by apply Hids.
Qed.

Lemma X6_amenities_label_order_irrelevant_witness :
  ∃ st results1 st1 results2 st2,
    FacilityService.constructor scenario = Some st ∧
    FacilityService.filterByAmenities ["Pool"; "Sauna"] st = Some (results1, st1) ∧
    FacilityService.filterByAmenities ["sauna"; "POOL"; "pool"] st = Some (results2, st2) ∧
    results1 ≡ₚ results2.
Proof.
  apply (X6_amenities_label_order_irrelevant scenario).
  intros a. vm_compute Js.toLowerCase. cbn [fmap list_fmap].
  rewrite !elem_of_cons. pose proof (elem_of_nil a). tauto.
Defined.

(** X7.  When the identifiers of the input are pairwise distinct,
    [filterByAmenities] returns exactly the projections of the records that
    themselves carry every label, up to letter case.  (With a repeated
    identifier the labels may be spread over the records that share it.) *)
Theorem X7_amenities_unique_ids (data : list Facility.t) (labels : list string) :
  NoDup (Facility.id <$> data) →
  ∃ st results st',
    FacilityService.constructor data = Some st ∧
    FacilityService.filterByAmenities labels st = Some (results, st') ∧
    ∀ r, r ∈ results ↔
         labels ≠ [] ∧
         ∃ f, f ∈ data ∧ r = toResult f ∧ ∀ a, a ∈ labels → carries f a.
Proof.
  intros Hnd.
  destruct (constructor_built data) as (st & Hc & Hb & Hf).
  destruct (filterByAmenities_ids data st labels Hb Hf) as (rs & st' & Hrun & _ & Hx & Hr).
  exists st, rs, st'. split; [done|]. split; [done|]. intros r. split.
  - intros Hin. destruct (Hr r Hin) as (f & Hlook & ->).
    destruct (idMap_lookup_Some _ _ _ Hlook) as [Hid Hfin].
    assert (FacilitySearchResult.id (toResult f) ∈ ids rs) as Hids
      by (by apply list_elem_of_fmap_2).
    apply Hx in Hids as [Hne Hall]. split; [done|]. exists f.
    split; [done|]. split; [done|]. intros a Ha.
    destruct (Hall a Ha) as (g & Hg & Hgid & Hcar).
    by rewrite <- (NoDup_ids_inj data g f Hnd Hg Hfin Hgid).
  - intros (Hne & f & Hfin & -> & Hall).
    assert (Facility.id f ∈ ids rs) as Hids.
    { apply Hx. split; [done|]. intros a Ha. exists f. auto. }
    apply list_elem_of_fmap in Hids as (r & Hid & Hin).
    destruct (Hr r Hin) as (g & Hlook & ->).
    destruct (idMap_lookup_Some _ _ _ Hlook) as [Hgid Hgin].
    simpl in Hid. by rewrite (NoDup_ids_inj data f g Hnd Hfin Hgin Hid).
Qed.

Lemma X7_amenities_unique_ids_witness :
  ∃ st results st',
    FacilityService.constructor scenario = Some st ∧
    FacilityService.filterByAmenities ["pool"; "SAUNA"] st = Some (results, st') ∧
    ∀ r, r ∈ results ↔
         ["pool"; "SAUNA"] ≠ [] ∧
         ∃ f, f ∈ scenario ∧ r = toResult f ∧ ∀ a, a ∈ ["pool"; "SAUNA"] → carries f a.
Proof.
  apply (X7_amenities_unique_ids scenario).
  apply (bool_decide_unpack _). vm_compute. exact I.
Defined.

(** ** Ranking: an exact match comes first *)

(** X8.  When the identifiers of the input are pairwise distinct and exactly
    one record has a lower-cased name that is the normalized form of a
    non-blank query, that record is the first result of [searchByName]. *)
Theorem X8_exact_match_first `{Consistent} (data : list Facility.t) (f : Facility.t)
    (query : string) :
  NoDup (Facility.id <$> data) →
  blank query = false →
  exactMatches data query = [f] →
  ∃ st rest st',
    FacilityService.constructor data = Some st ∧
    FacilityService.searchByName query st = Some (toResult f :: rest, st').
Proof.
  intros Hnd Hq Hexact.
  assert (f ∈ data ∧ Js.toLowerCase (Facility.name f) = normalize query) as [Hf Hname].
  { assert (f ∈ exactMatches data query) as Hin by (rewrite Hexact; left).
    by apply list_elem_of_filter in Hin as [? ?]. }
  assert (∀ g h, g ∈ exactMatches data query → h ∈ exactMatches data query →
                 Facility.id g = Facility.id h) as Hone.
  { rewrite Hexact. by intros g h ->%list_elem_of_singleton ->%list_elem_of_singleton. }
  destruct (constructor_indexed data) as (st & Hc & Hb & Hdata & Hi).
  destruct (searchByName_results query st Hi) as (st' & Hrun & _).
  rewrite Hq in Hrun.
  set (l := project st (matches st query)) in *.
  assert (toResult f ∈ l) as Hin.
  { apply elem_of_project. exists (Facility.id f), f. split; [|split; [|done]].
    - apply (matches_built _ _ _ _ Hb).
      destruct (nonblank_queryTokens _ Hq) as (qt & more & Hqt).
      exists f, qt, qt. split; [done|]. split; [done|]. split; [rewrite Hqt; left|].
      split; [|apply startsWith_refl].
      unfold FacilityService.tokenizeName. rewrite Hname.
      change (qt ∈ queryTokens query). rewrite Hqt. left.
    - rewrite (built_ids _ _ Hb). by apply idMap_NoDup. }
  assert (tier (normalize query) (toResult f) = 0) as Htier.
  { unfold tier. cbn [toResult FacilitySearchResult.name].
    by rewrite bool_decide_eq_true_2. }
  pose proof (sort_StronglySorted (FacilityService.relevance (normalize query)) l
                (relevance_total _) (relevance_trans _)) as Hsorted.
  pose proof (sort_Permutation (FacilityService.relevance (normalize query)) l) as Hperm.
  destruct (Array.sort (FacilityService.relevance (normalize query)) l)
    as [|first rest] eqn:Hs.
  { rewrite <-Hperm in Hin. by apply elem_of_nil in Hin. }
  exists st, rest, st'. split; [done|]. rewrite Hrun. f_equal. f_equal. f_equal.
  assert (first ∈ l) as Hfirst by (rewrite <-Hperm; left).
  pose proof Hin as Hrest.
  rewrite <-Hperm in Hrest. apply elem_of_cons in Hrest as [->|Hrest]; [done|].
  apply StronglySorted_inv in Hsorted as [_ Hall].
  rewrite Forall_forall in Hall. specialize (Hall _ Hrest). cbv beta in Hall.
  apply relevance_le in Hall.
  apply (project_exact_unique data st query (matches st query));
    [exact (built_ids _ _ Hb)|done|done|done|lia|done].
Qed.

Lemma X8_exact_match_first_witness :
  ∃ st rest st',
    FacilityService.constructor scenario = Some st ∧
    FacilityService.searchByName " city GYM plus" st
    = Some (toResult (facility "f2" "City Gym Plus" ["Pool"]) :: rest, st').
Proof.
  apply (X8_exact_match_first (H := codeUnit_consistent) scenario
           (facility "f2" "City Gym Plus" ["Pool"])).
  - apply (bool_decide_unpack _). vm_compute. exact I.
  - reflexivity.
  - vm_compute. reflexivity.
Defined.

(** ** The tokenizer *)

Lemma split_space_head s :
  Js.beginsWithSpace s = true → ∃ ps, Js.split s = "" :: ps.
Proof.
  induction s as [|c s IH]; [done|]. simpl. intros ->.
  destruct (Js.beginsWithSpace s); eauto.
Qed.

Lemma split_cons_space c s :
  Js.isWhiteSpace c = true →
  Js.split (String c s)
  = if Js.beginsWithSpace s then Js.split s else "" :: Js.split s.
Proof. intros Hc. simpl. by rewrite Hc. Qed.

Lemma split_cons_word c s :
  Js.isWhiteSpace c = false →
  Js.split (String c s)
  = match Js.split s with
    | p :: ps => String c p :: ps
    | [] => [String c ""]
    end.
Proof. intros Hc. simpl. by rewrite Hc. Qed.

Lemma words_space c s :
  Js.isWhiteSpace c = true →
  filter (λ w, Js.nonEmpty w) (Js.split (String c s))
  = filter (λ w, Js.nonEmpty w) (Js.split s).
Proof.
  intros Hc. simpl. rewrite Hc. destruct (Js.beginsWithSpace s); [done|].
  by rewrite filter_cons_False by (by intros []).
Qed.

Lemma words_allSpace_app sp s :
  allSpace sp →
  filter (λ w, Js.nonEmpty w) (Js.split (sp +:+ s))
  = filter (λ w, Js.nonEmpty w) (Js.split s).
Proof.
  unfold allSpace. induction sp as [|c sp IH]; [done|].
  simpl chars. intros [Hc Hsp]%Forall_cons.
  change (String c sp +:+ s) with (String c (sp +:+ s)).
  rewrite words_space by done. auto.
Qed.

Lemma split_app_space s1 sp s2 :
  allSpace sp → sp ≠ "" →
  ∃ p ps' ps,
    Js.split s1 = p :: ps' ∧ Js.split (s1 +:+ sp +:+ s2) = p :: ps ∧
    filter (λ w, Js.nonEmpty w) ps
    = filter (λ w, Js.nonEmpty w) ps' ++ filter (λ w, Js.nonEmpty w) (Js.split s2).
Proof.
  intros Hsp Hne.
  assert (Js.beginsWithSpace (sp +:+ s2) = true) as Hbws.
  { destruct sp as [|c0 sp]; [done|]. unfold allSpace in Hsp. simpl in Hsp.
    by apply Forall_cons in Hsp as [? _]. }
  induction s1 as [|c s1 IH].
  - change ("" +:+ sp +:+ s2) with (sp +:+ s2).
    destruct (split_space_head _ Hbws) as [ps Hps].
    exists "", [], ps. split; [done|]. split; [done|].
    pose proof (words_allSpace_app sp s2 Hsp) as Hw. rewrite Hps in Hw.
    by rewrite filter_cons_False in Hw by (by intros []).
  - destruct IH as (p & ps' & ps & H1 & H2 & H3).
    change (String c s1 +:+ sp +:+ s2) with (String c (s1 +:+ sp +:+ s2)).
    destruct (Js.isWhiteSpace c) eqn:Hc.
    + rewrite !split_cons_space by done. destruct s1 as [|c' r].
      * change ("" +:+ sp +:+ s2) with (sp +:+ s2) in *. rewrite Hbws.
        simpl in H1. injection H1 as <- <-.
        exists "", [""], ps. split; [done|]. split; [done|].
        rewrite H3. by rewrite filter_cons_False by (by intros []).
      * change (String c' r +:+ sp +:+ s2) with (String c' (r +:+ sp +:+ s2)) in *.
        cbn [Js.beginsWithSpace]. destruct (Js.isWhiteSpace c') eqn:Hc'.
        -- exists p, ps', ps. done.
        -- rewrite H1, H2. exists "", (p :: ps'), (p :: ps).
           split; [done|]. split; [done|].
           destruct (Js.nonEmpty p) eqn:Hp.
           ++ rewrite !(filter_cons_True _ p) by (by rewrite Hp). by rewrite H3.
           ++ rewrite !(filter_cons_False _ p) by (rewrite Hp; by intros []). done.
    + rewrite !split_cons_word by done. rewrite H1, H2.
      exists (String c p), ps', ps. done.
Qed.

Lemma words_app_space s1 sp s2 :
  allSpace sp → sp ≠ "" →
  filter (λ w, Js.nonEmpty w) (Js.split (s1 +:+ sp +:+ s2))
  = filter (λ w, Js.nonEmpty w) (Js.split s1)
    ++ filter (λ w, Js.nonEmpty w) (Js.split s2).
Proof.
  intros Hsp Hne.
  destruct (split_app_space s1 sp s2 Hsp Hne) as (p & ps' & ps & -> & -> & H3).
  destruct (Js.nonEmpty p) eqn:Hp.
  - rewrite !(filter_cons_True _ p) by (by rewrite Hp). by rewrite H3.
  - rewrite !(filter_cons_False _ p) by (rewrite Hp; by intros []). done.
Qed.

(** X9.  Tokenizing is compositional at white space.  When lower-casing two
    strings joined by a non-empty run of white space gives the lower case of
    the first, the white space, and the lower case of the second (as it does
    for code units below 256; outside that range a capital sigma at the end
    of the first string is lower-cased otherwise when something follows),
    the tokens of the joined string are the tokens of the first followed by
    the tokens of the second. *)
Theorem X9_tokenizeName_concatenation (s1 sp s2 : string) :
  allSpace sp → sp ≠ "" →
  Js.toLowerCase (s1 +:+ sp +:+ s2) = Js.toLowerCase s1 +:+ sp +:+ Js.toLowerCase s2 →
  FacilityService.tokenizeName (s1 +:+ sp +:+ s2)
  = FacilityService.tokenizeName s1 ++ FacilityService.tokenizeName s2.
Proof.
  intros Hsp Hne Hlower. unfold FacilityService.tokenizeName.
  rewrite Hlower. by apply words_app_space.
Qed.

Lemma X9_tokenizeName_concatenation_witness :
  FacilityService.tokenizeName ("City Gym" +:+ "  " +:+ "Plus")
  = FacilityService.tokenizeName "City Gym" ++ FacilityService.tokenizeName "Plus".
Proof.
  apply X9_tokenizeName_concatenation.
  - unfold allSpace. simpl. repeat constructor.
  - discriminate.
  - reflexivity.
Defined.

Lemma split_chars_bind s : Js.split s ≫= chars = chars (unspaced s).
Proof.
  induction s as [|c s IH]; [done|]. simpl.
  destruct (Js.isWhiteSpace c).
  - destruct (Js.beginsWithSpace s); [done|]. by rewrite bind_cons.
  - simpl. rewrite <- IH. by destruct (Js.split s).
Qed.

Lemma words_chars_bind (l : list string) :
  filter (λ w, Js.nonEmpty w) l ≫= chars = l ≫= chars.
Proof.
  induction l as [|w l IH]; [done|]. destruct w as [|c w].
  - rewrite filter_cons_False by (by intros []). by rewrite bind_cons.
  - rewrite filter_cons_True by done. by rewrite !bind_cons, IH.
Qed.

(** X10.  The tokens of a name are non-empty lower-case words without white
    space, and together they hold, in order, every code unit of the
    lower-cased name that is not white space: digits and punctuation stay
    inside the tokens. *)
Theorem X10_tokenizeName_keeps_all_but_space (name : string) :
  Forall (λ t, t ≠ "" ∧ noSpace t ∧ lowered t) (FacilityService.tokenizeName name) ∧
  FacilityService.tokenizeName name ≫= chars = chars (unspaced (Js.toLowerCase name)).
Proof.
  split.
  - apply Forall_forall. intros t. apply tokenizeName_token.
  - unfold FacilityService.tokenizeName. by rewrite words_chars_bind, split_chars_bind.
Qed.

(** ** The routes *)

Lemma newSetOf_spec xs st :
  newSetOf xs st
  = Some (length (heap st), setHeap (heap st ++ [addAllData xs []]) st).
Proof.
  unfold newSetOf, bind. rewrite newSet_spec.
  rewrite forEach_setAdd by (cbn [heap setHeap]; rewrite length_app; simpl; lia).
  unfold ret. f_equal. f_equal. state_fields; try done.
  unfold cell. cbn [heap setHeap].
  rewrite lookup_app_r, Nat.sub_diag by lia. simpl.
  replace (length (heap st)) with (length (heap st) + 0) at 1 by lia.
  by rewrite insert_app_r.
Qed.

Lemma preserved_trans st1 st2 st3 :
  preserved st1 st2 → preserved st2 st3 → preserved st1 st3.
Proof.
  intros (? & ? & ? & ? & ?) (? & ? & ? & ? & ?).
  repeat split; try congruence. by etrans.
Qed.

Lemma preserved_grow st d : preserved st (setHeap (heap st ++ [d]) st).
Proof. repeat split; try done. by apply prefix_app_r. Qed.

Lemma amenityList_nil amenities :
  Forall (λ c, Js.isWhiteSpace c = true ∨ c = ","%char) (chars amenities) →
  amenityList amenities = [].
Proof.
  unfold amenityList. intros Hall.
  assert (Forall allSpace (Js.splitAt "," amenities)) as Hpieces.
  { induction amenities as [|c s IH]; simpl.
    - repeat constructor.
    - simpl in Hall. apply Forall_cons in Hall as [Hc Hs]. specialize (IH Hs).
      case_bool_decide as Heq.
      + constructor; [constructor|done].
      + destruct Hc as [Hc|Hc]; [|done].
        destruct (Js.splitAt "," s) as [|p ps].
        * repeat constructor. done.
        * apply Forall_cons in IH as [Hp Hps]. constructor; [|done].
          by constructor. }
  induction Hpieces as [|p ps Hp Hps IH]; [done|].
  rewrite fmap_cons. apply trim_allSpace in Hp. rewrite Hp.
  by rewrite filter_cons_False by (by intros []).
Qed.

Lemma tryCatch_Some {A} (body handler : M A) st r :
  body st = Some r → tryCatch body handler st = Some r.
Proof. unfold tryCatch. by intros ->. Qed.

Lemma amenityList_nonEmpty a : amenityList a ≠ [] → Js.nonEmpty a = true.
Proof. by destruct a. Qed.

Lemma has_addAllData x xs :
  SetData.has x (addAllData xs []) = true ↔ x ∈ xs.
Proof.
  rewrite has_true, elem_of_live_addAll. split; [|by left].
  intros [?|?%elem_of_nil]; done.
Qed.

Section RouteLemmas.
Context `{Collator} `{Validator}.

Lemma search_invalid query st :
  Routes.searchQuerySchema query = None →
  Routes.search query st
  = Some (Routes.statusJson 400
            (Routes.Invalid "Invalid query parameters"
               (searchIssues (Routes.q query) (Routes.amenities query))), st).
Proof. intros Hs. unfold Routes.search. by rewrite Hs. Qed.

Lemma search_plain query q am st :
  indexed st →
  Routes.searchQuerySchema query = Some (q, am) →
  from_option amenityList [] am = [] →
  ∃ found st',
    FacilityService.searchByName q st = Some (found, st') ∧
    Routes.search query st
    = Some (Routes.json (Routes.SearchResults q (length found) found), st') ∧
    preserved st st'.
Proof.
  intros Hi Hs Ham.
  destruct (searchByName_results q st Hi) as (s1 & Hrun & Hpres & _).
  eexists _, s1. split; [exact Hrun|]. split; [|done].
  apply tryCatch_Some. rewrite Hs. unfold bind. rewrite Hrun.
  destruct am as [a|]; [|done]. simpl in Ham.
  destruct (Js.nonEmpty a); [|done].
  change (filter (λ a, Js.nonEmpty a) (Js.trim <$> Js.splitAt "," a))
    with (amenityList a).
  by rewrite Ham.
Qed.

Lemma search_filtered query q a st :
  indexed st →
  Routes.searchQuerySchema query = Some (q, Some a) →
  amenityList a ≠ [] →
  ∃ found s1 filtered s2 st',
    FacilityService.searchByName q st = Some (found, s1) ∧
    FacilityService.filterByAmenities (amenityList a) st = Some (filtered, s2) ∧
    Routes.search query st
    = Some (Routes.json
              (Routes.SearchResults q
                 (length (filter (λ r, FacilitySearchResult.id r ∈ ids filtered) found))
                 (filter (λ r, FacilitySearchResult.id r ∈ ids filtered) found)), st') ∧
    preserved st st'.
Proof.
  intros Hi Hs Ham.
  destruct (searchByName_results q st Hi) as (s1 & Hrun & Hpres & _).
  pose proof (indexed_preserved _ _ Hi Hpres) as Hi1.
  destruct (filterByAmenities_spec (amenityList a) st Hi)
    as (filtered & s2 & Hfil & _ & _ & Hx & _).
  destruct (filterByAmenities_spec (amenityList a) s1 Hi1)
    as (filtered1 & s3 & Hfil1 & Hone & _ & Hx1 & _).
  assert (∀ x, x ∈ ids filtered1 ↔ x ∈ ids filtered) as Hsame.
  { intros x. rewrite Hx, Hx1. pose proof Hpres as (_ & _ & _ & Ha & _).
    rewrite (hasAll_frame st s1); [done|done|].
    intros k l Hl. apply preserved_members; [done|].
    by apply (indexed_amenity_alloc _ Hi k). }
  eexists _, s1, filtered, s2, _. split; [exact Hrun|]. split; [exact Hfil|].
  split.
  - apply tryCatch_Some. rewrite Hs. unfold bind at 1. rewrite Hrun.
    rewrite (amenityList_nonEmpty _ Ham).
    change (filter (λ a, Js.nonEmpty a) (Js.trim <$> Js.splitAt "," a))
      with (amenityList a).
    assert ((0 <? length (amenityList a)) = true) as ->.
    { apply Nat.ltb_lt. destruct (amenityList a); [done|simpl; lia]. }
    unfold bind. rewrite Hfil1, newSetOf_spec. unfold get, ret.
    unfold cell. cbn [heap setHeap].
    rewrite lookup_app_r, Nat.sub_diag by lia. cbn [lookup list_lookup default].
    rewrite (list_filter_iff _ (λ r, FacilitySearchResult.id r ∈ ids filtered)).
    + reflexivity.
    + intros r. rewrite <- Hsame. rewrite <- has_addAllData.
      by destruct (SetData.has _ _).
  - eapply preserved_trans; [exact Hpres|]. eapply preserved_trans.
    + by apply oneMoreSet_preserved.
    + apply preserved_grow.
Qed.

End RouteLemmas.

Lemma splitAt_word (w : string) :
  ","%char ∉ chars w → Js.splitAt "," w = [w].
Proof.
  induction w as [|c w IH]; [done|]. simpl. rewrite not_elem_of_cons.
  intros [Hc Hw]. rewrite bool_decide_eq_false_2 by done. by rewrite IH.
Qed.

Lemma splitAt_app (w r : string) :
  ","%char ∉ chars w →
  Js.splitAt "," (w +:+ String "," r) = w :: Js.splitAt "," r.
Proof.
  induction w as [|c w IH]; [done|]. simpl. rewrite not_elem_of_cons.
  intros [Hc Hw]. rewrite bool_decide_eq_false_2 by done. by rewrite IH.
Qed.

Lemma splitAt_concat (labels : list string) :
  Forall (λ l, ","%char ∉ chars l) labels → labels ≠ [] →
  Js.splitAt "," (String.concat "," labels) = labels.
Proof.
  induction 1 as [|l ls Hl Hls IH]; [done|]. intros _.
  destruct ls as [|l' ls].
  - simpl. by apply splitAt_word.
  - change (String.concat "," (l :: l' :: ls))
      with (l +:+ String "," (String.concat "," (l' :: ls))).
    rewrite splitAt_app by done. by rewrite IH.
Qed.

(** X13.  An [amenities] parameter made of commas and white space only names
    no label and is ignored: the search route answers as it does without the
    parameter. *)
Theorem X13_search_route_blank_amenities `{Collator} `{Validator} (st : State)
    (q amenities : string) :
  1 ≤ String.length q ≤ 100 →
  Forall (λ c, Js.isWhiteSpace c = true ∨ c = ","%char) (chars amenities) →
  Routes.search {| Routes.q := Some (Str q); Routes.amenities := Some (Str amenities) |} st
  = Routes.search {| Routes.q := Some (Str q); Routes.amenities := None |} st.
Proof.
  intros [Hlo Hhi] Hall%amenityList_nil.
  apply Nat.leb_le in Hlo, Hhi.
  unfold Routes.search, Routes.searchQuerySchema. cbn [Routes.q Routes.amenities].
  rewrite Hlo, Hhi. cbn [andb].
  change (filter (λ a, Js.nonEmpty a) (Js.trim <$> Js.splitAt "," amenities))
    with (amenityList amenities).
  rewrite Hall. by destruct (Js.nonEmpty amenities).
Qed.

Lemma X13_search_route_blank_amenities_witness :
  ∃ st, FacilityService.constructor scenario = Some st ∧
    Routes.search {| Routes.q := Some (Str "city"); Routes.amenities := Some (Str " , ,") |} st
    = Routes.search {| Routes.q := Some (Str "city"); Routes.amenities := None |} st.
Proof.
  destruct (constructor_built scenario) as (st & Hc & _).
  exists st. split; [exact Hc|].
  apply (X13_search_route_blank_amenities st "city" " , ,").
  - simpl. lia.
  - simpl. repeat (constructor; [first [left; reflexivity|right; reflexivity]|]).
    constructor.
Defined.

(** X14.  The [amenities] parameter is read as a comma-separated list whose
    labels are trimmed and whose empty labels are dropped: joining labels that
    hold no comma with commas and parsing the result gives back the trimmed
    non-empty labels, in order. *)
Theorem X14_amenity_parameter_round_trip (labels : list string) :
  Forall (λ l, ","%char ∉ chars l) labels →
  amenityList (String.concat "," labels)
  = filter (λ a, Js.nonEmpty a) (Js.trim <$> labels).
Proof.
  intros Hall. destruct labels as [|l ls]; [done|].
  unfold amenityList. by rewrite splitAt_concat.
Qed.

Lemma X14_amenity_parameter_round_trip_witness :
  amenityList (String.concat "," [" Pool "; ""; "Sauna"]) = ["Pool"; "Sauna"].
Proof.
  rewrite X14_amenity_parameter_round_trip; [reflexivity|].
  repeat constructor; apply (bool_decide_unpack _); vm_compute; exact I.
Defined.

(** ** The amenity index, entry by entry *)

Lemma amenityPosting_cell st a : amenityPosting st a = SetData.live (amenityCell st a).
Proof. unfold amenityPosting, amenityCell. by destruct (amenityIndex st !! a). Qed.

Lemma amenityCell_add st l x a :
  separated st → amenityIndex st !! a = Some l →
  ∀ a', amenityCell (setHeap (<[l := SetData.add x (cell st l)]> (heap st)) st) a'
        = if decide (a = a') then SetData.add x (amenityCell st a') else amenityCell st a'.
Proof.
  intros Hsep Ha a'. pose proof (separated_amenity_alloc _ Hsep _ _ Ha) as Hl.
  unfold amenityCell. cbn [amenityIndex setHeap].
  destruct (amenityIndex st !! a') as [l'|] eqn:Ha'; simpl.
  - destruct (decide (a = a')) as [->|Hne].
    + assert (l' = l) as -> by congruence. by rewrite cell_insert_eq.
    + rewrite cell_insert_ne; [done|]. intros ->.
      by apply Hne, (separated_amenity _ Hsep _ _ _ Ha Ha').
  - rewrite decide_False; [done|]. intros ->. congruence.
Qed.

Lemma amenityCell_add_name st l d t :
  separated st → NameMap.get t (nameIndex st) = Some l →
  ∀ a, amenityCell (setHeap (<[l := d]> (heap st)) st) a = amenityCell st a.
Proof.
  intros Hsep Ht a. unfold amenityCell. cbn [amenityIndex setHeap].
  destruct (amenityIndex st !! a) as [l'|] eqn:Ha; simpl; [|done].
  rewrite cell_insert_ne; [done|]. intros ->.
  by apply (separated_cross _ Hsep _ _ _ Ht Ha).
Qed.

Lemma cell_alloc st h l : l < length (heap st) → cell (setHeap (heap st ++ h) st) l = cell st l.
Proof. intros Hl. unfold cell. cbn [heap setHeap]. by rewrite lookup_app_l. Qed.

Lemma amenityCell_new_name st m :
  separated st →
  ∀ a, amenityCell (setNameIndex m (setHeap (heap st ++ [[]]) st)) a = amenityCell st a.
Proof.
  intros Hsep a. unfold amenityCell. cbn [amenityIndex setNameIndex setHeap].
  destruct (amenityIndex st !! a) as [l|] eqn:Ha; simpl; [|done].
  pose proof (separated_amenity_alloc _ Hsep _ _ Ha) as Hl.
  unfold cell. cbn [heap setNameIndex setHeap]. by rewrite lookup_app_l.
Qed.

Lemma amenityCell_new_amenity st a :
  separated st → amenityIndex st !! a = None →
  ∀ a', amenityCell (setAmenityIndex (<[a := length (heap st)]> (amenityIndex st))
                       (setHeap (heap st ++ [[]]) st)) a'
        = amenityCell st a'.
Proof.
  intros Hsep Ha a'. unfold amenityCell. cbn [amenityIndex setAmenityIndex setHeap].
  destruct (decide (a' = a)) as [->|Hne].
  - rewrite lookup_insert_eq, Ha. simpl. unfold cell.
    cbn [heap setAmenityIndex setHeap]. by rewrite lookup_app_r, Nat.sub_diag.
  - rewrite lookup_insert_ne by done.
    destruct (amenityIndex st !! a') as [l|] eqn:Ha'; simpl; [|done].
    pose proof (separated_amenity_alloc _ Hsep _ _ Ha') as Hl.
    unfold cell. cbn [heap setAmenityIndex setHeap]. by rewrite lookup_app_l.
Qed.

Lemma indexToken_amenityCell id t st st' :
  separated st → FacilityService.indexToken id t st = Some (tt, st') →
  ∀ a, amenityCell st' a = amenityCell st a.
Proof.
  intros Hsep. unfold FacilityService.indexToken, NameMap.has.
  unfold bind at 1. unfold get at 1.
  destruct (NameMap.get t (nameIndex st)) as [l|] eqn:Hl.
  - rewrite bool_decide_eq_true_2 by eauto. cbn [negb].
    unfold bind at 1. unfold ret at 1. unfold bind at 1. unfold get at 1. rewrite Hl.
    intros [= <-] a. by apply (amenityCell_add_name st l _ t).
  - rewrite bool_decide_eq_false_2 by (by intros [? ?]). cbn [negb].
    unfold bind at 1. unfold bind at 1. rewrite newSet_spec. unfold modify at 1.
    destruct (separated_new_name st t Hsep Hl) as (Hsep1 & Hget & _).
    cbv zeta in Hsep1, Hget.
    set (st1 := setNameIndex _ _) in *.
    unfold bind at 1. unfold get at 1.
    change (nameIndex (setNameIndex (NameMap.set t (length (heap st))
              (nameIndex (setHeap (heap st ++ [[]]) st))) (setHeap (heap st ++ [[]]) st)))
      with (nameIndex st1).
    rewrite Hget. intros [= <-] a.
    rewrite (amenityCell_add_name st1 _ _ t Hsep1 Hget).
    by apply amenityCell_new_name.
Qed.

Lemma indexAmenity_amenityCell id amenity st st' :
  separated st → FacilityService.indexAmenity id amenity st = Some (tt, st') →
  ∀ a, amenityCell st' a
       = if decide (Js.toLowerCase amenity = a) then SetData.add id (amenityCell st a)
         else amenityCell st a.
Proof.
  intros Hsep. unfold FacilityService.indexAmenity. cbv zeta.
  generalize (Js.toLowerCase amenity). intros k.
  unfold bind at 1. unfold get at 1.
  destruct (amenityIndex st !! k) as [l|] eqn:Hl.
  - rewrite bool_decide_eq_true_2 by eauto. cbn [negb].
    unfold bind at 1. unfold ret at 1. unfold bind at 1. unfold get at 1. rewrite Hl.
    intros [= <-] a. by apply amenityCell_add.
  - rewrite bool_decide_eq_false_2 by (by intros [? ?]). cbn [negb].
    unfold bind at 1. unfold bind at 1. rewrite newSet_spec. unfold modify at 1.
    destruct (separated_new_amenity st k Hsep Hl) as (Hsep1 & Hget & _).
    cbv zeta in Hsep1, Hget.
    set (st1 := setAmenityIndex _ _) in *.
    unfold bind at 1. unfold get at 1.
    change (amenityIndex (setAmenityIndex (<[k := length (heap st)]>
              (amenityIndex (setHeap (heap st ++ [[]]) st))) (setHeap (heap st ++ [[]]) st)))
      with (amenityIndex st1).
    rewrite Hget. intros [= <-] a.
    rewrite (amenityCell_add st1 _ id k Hsep1 Hget).
    by rewrite !(amenityCell_new_amenity st k Hsep Hl).
Qed.

Lemma postings_cons e evs k d :
  postings (e :: evs) k d
  = postings evs k (if decide (e.1 = k) then SetData.add e.2 d else d).
Proof. done. Qed.

Lemma postings_app ev1 ev2 k d :
  postings (ev1 ++ ev2) k d = postings ev2 k (postings ev1 k d).
Proof. apply foldl_app. Qed.

Lemma indexTokens_amenityCell id ts : ∀ st st',
  separated st →
  forEach (λ token _, FacilityService.indexToken id token) ts tt st = Some (tt, st') →
  ∀ a, amenityCell st' a = amenityCell st a.
Proof.
  induction ts as [|t ts IH]; intros st st' Hsep.
  - by intros [= <-].
  - cbn [forEach]. unfold bind.
    destruct (indexToken_spec id t st Hsep) as (st1 & Hrun1 & Hsep1 & _).
    rewrite Hrun1. intros Hrun2 a.
    rewrite (IH st1 st' Hsep1 Hrun2). by apply (indexToken_amenityCell id t).
Qed.

Lemma indexAmenities_amenityCell id amenities : ∀ st st',
  separated st →
  forEach (λ amenity _, FacilityService.indexAmenity id amenity) amenities tt st
    = Some (tt, st') →
  ∀ a, amenityCell st' a
       = postings ((λ x, (Js.toLowerCase x, id)) <$> amenities) a (amenityCell st a).
Proof.
  induction amenities as [|x amenities IH]; intros st st' Hsep.
  - by intros [= <-].
  - cbn [forEach]. unfold bind.
    destruct (indexAmenity_spec id x st Hsep) as (st1 & Hrun1 & Hsep1 & _).
    rewrite Hrun1. intros Hrun2 a.
    rewrite (IH st1 st' Hsep1 Hrun2). rewrite fmap_cons, postings_cons.
    cbn [fst snd]. by rewrite (indexAmenity_amenityCell id x st st1).
Qed.

Lemma indexFacility_amenityCell done f st st' :
  built done st → FacilityService.indexFacility f st = Some (tt, st') →
  ∀ a, amenityCell st' a
       = postings ((λ x, (Js.toLowerCase x, Facility.id f)) <$> Facility.facilities f) a
           (amenityCell st a).
Proof.
  intros Hb. pose proof (built_separated _ _ Hb) as Hsep.
  unfold FacilityService.indexFacility.
  unfold bind at 1. unfold modify at 1.
  set (st0 := setFacilityIndex _ st).
  assert (separated st0) as Hsep0 by (by destruct Hsep).
  destruct (indexTokens_spec (Facility.id f)
              (FacilityService.tokenizeName (Facility.name f)) st0 Hsep0)
    as (st1 & Hrun1 & Hsep1 & _).
  unfold bind at 1. rewrite Hrun1. intros Hrun2 a.
  rewrite (indexAmenities_amenityCell _ _ st1 st' Hsep1 Hrun2).
  by rewrite (indexTokens_amenityCell _ _ st0 st1 Hsep0 Hrun1).
Qed.

Lemma indexFacilities_amenityCell rest : ∀ done st st',
  built done st →
  forEach (λ facility _, FacilityService.indexFacility facility) rest tt st
    = Some (tt, st') →
  ∀ a, amenityCell st' a = postings (amenityEvents rest) a (amenityCell st a).
Proof.
  induction rest as [|f rest IH]; intros done st st' Hb.
  - by intros [= <-].
  - cbn [forEach]. unfold bind.
    destruct (indexFacility_spec done f st Hb) as (st1 & Hrun1 & Hb1 & _).
    rewrite Hrun1. intros Hrun2 a.
    rewrite (IH _ st1 st' Hb1 Hrun2).
    unfold amenityEvents. rewrite bind_cons, postings_app.
    by rewrite (indexFacility_amenityCell done f st st1).
Qed.

Lemma constructor_amenityCell data st :
  FacilityService.constructor data = Some st →
  ∀ a, amenityCell st a = postings (amenityEvents data) a [].
Proof.
  unfold FacilityService.constructor, FacilityService.buildIndexes.
  unfold bind, get. cbn [facilities].
  set (st0 := {| facilities := data; facilityIndex := ∅; nameIndex := [];
                 amenityIndex := ∅; heap := []; visited := 0 |}).
  assert (built [] st0) as Hb0.
  { split; try done.
    - split; try done. apply NoDup_nil_2.
    - intros t x. unfold namePosting. simpl. rewrite elem_of_nil.
      split; [done|]. by intros (f & ?%elem_of_nil & _).
    - intros a x. unfold amenityPosting. simpl. rewrite lookup_empty. simpl.
      rewrite elem_of_nil. split; [done|]. by intros (f & ?%elem_of_nil & _). }
  destruct (forEach _ data tt st0) as [[[] st1]|] eqn:Hrun; [|done].
  intros [= <-] a.
  by rewrite (indexFacilities_amenityCell data [] st0 st1 Hb0 Hrun).
Qed.

(** *** The posting sets in terms of the records *)

Lemma add_idem x d : SetData.add x (SetData.add x d) = SetData.add x d.
Proof.
  unfold SetData.add at 1.
  assert (SetData.has x (SetData.add x d) = true) as ->; [|done].
  apply has_true, elem_of_live_add. by left.
Qed.

Lemma postings_record id (labels : list string) k d :
  postings ((λ x, (x, id)) <$> labels) k d
  = if bool_decide (k ∈ labels) then SetData.add id d else d.
Proof.
  revert d. induction labels as [|a labels IH]; intros d; [done|].
  rewrite fmap_cons, postings_cons. cbn [fst snd]. rewrite IH.
  destruct (decide (a = k)) as [->|Hne].
  - rewrite (bool_decide_eq_true_2 (k ∈ k :: labels)) by left.
    rewrite add_idem. by destruct (bool_decide (k ∈ labels)).
  - destruct (bool_decide (k ∈ labels)) eqn:Hk.
    + apply bool_decide_eq_true in Hk.
      by rewrite (bool_decide_eq_true_2 (k ∈ a :: labels)) by (by right).
    + apply bool_decide_eq_false in Hk.
      rewrite (bool_decide_eq_false_2 (k ∈ a :: labels)); [done|].
      rewrite elem_of_cons. intros [->|?]; done.
Qed.

Lemma postings_amenityEvents data k : ∀ d,
  NoDup (Facility.id <$> data) →
  (∀ f, f ∈ data → Some (Facility.id f) ∉ d) →
  postings (amenityEvents data) k d
  = d ++ (Some ∘ Facility.id <$>
            filter (λ f, k ∈ Js.toLowerCase <$> Facility.facilities f) data).
Proof.
  induction data as [|f data IH]; intros d Hnd Hfresh.
  - by rewrite app_nil_r.
  - rewrite fmap_cons in Hnd. apply NoDup_cons in Hnd as [Hf Hnd].
    unfold amenityEvents. rewrite bind_cons, postings_app.
    fold (amenityEvents data).
    rewrite (list_fmap_compose Js.toLowerCase (λ x, (x, Facility.id f))).
    rewrite postings_record.
    assert (∀ d', (∀ g, g ∈ data → Some (Facility.id g) ∉ d') →
              postings (amenityEvents data) k d'
              = d' ++ (Some ∘ Facility.id <$>
                  filter (λ f, k ∈ Js.toLowerCase <$> Facility.facilities f) data)) as IH'
      by (intros d' Hd'; by apply IH).
    case_bool_decide as Hk.
    + rewrite filter_cons_True by done. rewrite fmap_cons.
      unfold SetData.add.
      assert (SetData.has (Facility.id f) d = false) as ->.
      { apply bool_decide_eq_false. apply Hfresh. left. }
      rewrite IH'; [by rewrite <- app_assoc|].
      intros g Hg [Hin|Hin%list_elem_of_singleton]%elem_of_app.
      * apply (Hfresh g); [by right|done].
      * injection Hin as Hin. apply Hf. rewrite <- Hin. by apply list_elem_of_fmap_2.
    + rewrite filter_cons_False by done. apply IH'.
      intros g Hg. apply Hfresh. by right.
Qed.

Lemma live_fmap_Some (xs : list string) : SetData.live (Some <$> xs) = xs.
Proof.
  unfold SetData.live. induction xs as [|x xs IH]; [done|].
  cbn. by f_equal.
Qed.

Lemma amenityPosting_unique data st k :
  FacilityService.constructor data = Some st →
  NoDup (Facility.id <$> data) →
  amenityPosting st k
  = Facility.id <$> filter (λ f, k ∈ Js.toLowerCase <$> Facility.facilities f) data.
Proof.
  intros Hc Hnd. rewrite amenityPosting_cell, (constructor_amenityCell data st Hc).
  rewrite postings_amenityEvents; [|done|by intros f _ ?%elem_of_nil].
  rewrite app_nil_l, (list_fmap_compose Facility.id Some). apply live_fmap_Some.
Qed.

(** ** The amenity filter, in order *)

Lemma survivors_nil st labels : survivors st labels [] = [].
Proof. induction labels as [|a labels IH]; [done|]. exact IH. Qed.

Lemma survivors_cons st a labels xs :
  survivors st (a :: labels) xs
  = survivors st labels (filter (λ x, x ∈ amenityPosting st a) xs).
Proof. done. Qed.

Lemma survivors_frame st st' labels : ∀ xs,
  (∀ a, amenityPosting st' a = amenityPosting st a) →
  survivors st' labels xs = survivors st labels xs.
Proof.
  induction labels as [|a labels IH]; intros xs Hp; [done|].
  rewrite !survivors_cons, Hp. by apply IH.
Qed.

Lemma amenityPosting_frame st st' :
  amenityIndex st' = amenityIndex st →
  (∀ k l, amenityIndex st !! k = Some l → members st' l = members st l) →
  ∀ a, amenityPosting st' a = amenityPosting st a.
Proof.
  intros Ha Hm a. unfold amenityPosting. rewrite Ha.
  destruct (amenityIndex st !! a) as [l|] eqn:Hl; simpl; [|done]. by apply (Hm a).
Qed.

Lemma filter_elem_of_nil (l xs : list string) :
  l = [] → filter (λ x, x ∈ l) xs = [].
Proof.
  intros ->. induction xs as [|x xs IH]; [done|].
  by rewrite filter_cons_False by apply not_elem_of_nil.
Qed.

(** The loop over the remaining labels, with the order of the working set. *)
Lemma intersectRest_exact rest : ∀ m st,
  m < length (heap st) →
  (∀ k l, amenityIndex st !! k = Some l → l < m) →
  NoDup (members st m) →
  ∃ complete d,
    FacilityService.intersectRest m rest st
      = Some (complete, setHeap (<[m := d]> (heap st)) st) ∧
    (if complete then SetData.live d else []) = survivors st rest (members st m).
Proof.
  induction rest as [|a rest IH]; intros m st Hm Hlt Hnd.
  - exists true, (cell st m). simpl. unfold ret.
    by rewrite insert_cell_id, setHeap_id.
  - rewrite survivors_cons. simpl. unfold bind at 1. unfold get at 1.
    destruct (amenityIndex st !! a) as [s|] eqn:Ha.
    2:{ exists false, (cell st m). unfold ret.
        rewrite insert_cell_id, setHeap_id. split; [done|].
        rewrite filter_elem_of_nil, survivors_nil; [done|].
        unfold amenityPosting. by rewrite Ha. }
    assert (amenityPosting st a = members st s) as ->
      by (unfold amenityPosting; by rewrite Ha).
    unfold bind at 1. unfold setSize at 1. unfold get at 1.
    destruct (SetData.size (cell st s) =? 0) eqn:Hsz.
    { exists false, (cell st m). unfold ret.
      rewrite insert_cell_id, setHeap_id. split; [done|].
      apply size_zero in Hsz.
      by rewrite filter_elem_of_nil, survivors_nil. }
    pose proof (Hlt _ _ Ha) as Hs.
    unfold bind at 1. rewrite retain_spec by (done || lia).
    set (st1 := setHeap _ st).
    assert (members st1 m = filter (λ x, x ∈ members st s) (members st m)) as Hm1.
    { unfold st1. rewrite members_insert_eq by done. apply live_retainData. }
    rewrite <- Hm1.
    unfold bind at 1. unfold setSize at 1. unfold get at 1.
    change (SetData.size (cell st1 m)) with (length (members st1 m)).
    destruct (length (members st1 m) =? 0) eqn:Hk.
    { exists false, (retainData (cell st s) (cell st m)). unfold ret.
      split; [done|]. apply Nat.eqb_eq, nil_length_inv in Hk.
      by rewrite Hk, survivors_nil. }
    destruct (IH m st1) as (complete & d & Hrun & Hpost).
    { unfold st1. simpl. by rewrite length_insert. }
    { done. }
    { rewrite Hm1. by apply NoDup_filter. }
    exists complete, d. rewrite Hrun. unfold st1. simpl.
    rewrite list_insert_insert_eq. split; [done|].
    rewrite Hpost. apply survivors_frame, amenityPosting_frame; [done|].
    intros k l Hl. apply members_insert_ne. specialize (Hlt _ _ Hl). lia.
Qed.

(** [filterByAmenities] as a function of the state: the identifiers of the
    first label's posting set that the posting sets of the other labels hold,
    in the order of the first posting set, projected. *)
Lemma filterByAmenities_exact amenities st :
  indexed st →
  ∃ st',
    FacilityService.filterByAmenities amenities st
    = Some (match Js.toLowerCase <$> amenities with
            | [] => []
            | first :: rest =>
                project st (survivors st rest
                              (SetData.live (addAllData (amenityPosting st first) [])))
            end, st').
Proof.
  intros Hst. unfold FacilityService.filterByAmenities.
  destruct amenities as [|a0 rest0]; [by exists st|].
  rewrite fmap_cons.
  generalize (Js.toLowerCase a0) (Js.toLowerCase <$> rest0). intros first rest.
  cbv zeta. unfold bind at 1. unfold get at 1. unfold amenityPosting at 1.
  destruct (amenityIndex st !! first) as [c|] eqn:Hc; simpl from_option.
  2:{ exists st. by rewrite survivors_nil. }
  unfold bind at 1. unfold setSize at 1. unfold get at 1.
  destruct (SetData.size (cell st c) =? 0) eqn:Hsz.
  { exists st. apply size_zero in Hsz. unfold members. rewrite Hsz.
    by rewrite survivors_nil. }
  pose proof (indexed_amenity_alloc _ Hst _ _ Hc) as Hclt.
  unfold bind at 1. rewrite newSetFrom_spec by done.
  set (m := length (heap st)). set (st1 := setHeap _ st).
  assert (preserved st st1) as Hp1 by apply (preserved_alloc st _ (visited st)).
  assert (m < length (heap st1)) as Hm1.
  { unfold st1. simpl. rewrite length_app. simpl. unfold m. lia. }
  assert (members st1 m = SetData.live (addAllData (members st c) [])) as Hmem.
  { unfold members, cell, st1, m. simpl. by rewrite lookup_app_r, Nat.sub_diag. }
  destruct (intersectRest_exact rest m st1) as (complete & d & Hrun & Hpost).
  { done. }
  { intros k l Hl. by apply (indexed_amenity_alloc _ Hst k). }
  { rewrite Hmem. apply NoDup_live_addAll, NoDup_nil_2. }
  unfold bind at 1. rewrite Hrun.
  assert (setHeap (<[m := d]> (heap st1)) st1 = setHeap (heap st ++ [d]) st) as ->.
  { unfold st1, m. simpl. by rewrite insert_app_r_alt, Nat.sub_diag. }
  rewrite Hmem in Hpost.
  rewrite (survivors_frame st st1) in Hpost.
  2:{ apply amenityPosting_frame; [done|]. intros k l Hl.
      apply preserved_members; [done|]. by apply (indexed_amenity_alloc _ Hst k). }
  rewrite <- Hpost. destruct complete.
  - rewrite collect_spec. eexists. f_equal. f_equal.
    unfold members, cell, m. cbn [heap setHeap].
    by rewrite lookup_app_r, Nat.sub_diag.
  - by eexists.
Qed.

(** *** With pairwise distinct identifiers *)

Lemma addAllData_fresh xs : ∀ d,
  NoDup xs → (∀ x, x ∈ xs → Some x ∉ d) →
  addAllData xs d = d ++ (Some <$> xs).
Proof.
  induction xs as [|x xs IH]; intros d Hnd Hfresh.
  - by rewrite app_nil_r.
  - apply NoDup_cons in Hnd as [Hx Hnd].
    unfold addAllData. cbn [foldl]. fold (addAllData xs (SetData.add x d)).
    unfold SetData.add.
    assert (SetData.has x d = false) as ->.
    { apply bool_decide_eq_false. apply Hfresh. left. }
    rewrite IH; [by rewrite <- app_assoc| done |].
    intros y Hy [Hin|Hin%list_elem_of_singleton]%elem_of_app.
    + apply (Hfresh y); [by right|done].
    + injection Hin as ->. done.
Qed.

Lemma NoDup_ids_filter (P : Facility.t → Prop) `{∀ f, Decision (P f)} data :
  NoDup (Facility.id <$> data) → NoDup (Facility.id <$> filter P data).
Proof.
  intros Hnd.
  assert (Facility.id <$> filter P data `sublist_of` Facility.id <$> data) as Hsub
    by apply fmap_sublist, sublist_filter.
  eapply sublist_NoDup; eauto.
Qed.

Lemma filter_ids_unique (k : string) data (l : list Facility.t) :
  NoDup (Facility.id <$> data) → (∀ f, f ∈ l → f ∈ data) →
  filter (λ x, x ∈ Facility.id <$>
                 filter (λ f, k ∈ Js.toLowerCase <$> Facility.facilities f) data)
    (Facility.id <$> l)
  = Facility.id <$> filter (λ f, k ∈ Js.toLowerCase <$> Facility.facilities f) l.
Proof.
  intros Hnd. induction l as [|f l IH]; intros Hl; [done|].
  rewrite fmap_cons.
  assert (f ∈ data) as Hf by (apply Hl; left).
  assert (∀ g, g ∈ l → g ∈ data) as Hl' by (intros g Hg; apply Hl; by right).
  destruct (decide (k ∈ Js.toLowerCase <$> Facility.facilities f)) as [Hk|Hk].
  - rewrite filter_cons_True.
    + rewrite (filter_cons_True _ f) by done. rewrite fmap_cons. by rewrite IH.
    + apply list_elem_of_fmap. exists f. split; [done|].
      apply list_elem_of_filter. done.
  - rewrite filter_cons_False.
    + rewrite (filter_cons_False _ f) by done. by apply IH.
    + intros (g & Hid & [Hg Hin]%list_elem_of_filter)%list_elem_of_fmap.
      by rewrite (NoDup_ids_inj data f g Hnd Hf Hin Hid) in Hk.
Qed.

Lemma filter_all {A} (P : A → Prop) `{∀ x, Decision (P x)} (l : list A) :
  (∀ x, P x) → filter P l = l.
Proof.
  intros HP. induction l as [|x l IH]; [done|]. by rewrite filter_cons_True, IH.
Qed.

Lemma survivors_unique data st rest :
  FacilityService.constructor data = Some st →
  NoDup (Facility.id <$> data) →
  ∀ l, (∀ f, f ∈ l → f ∈ data) →
  survivors st rest (Facility.id <$> l)
  = Facility.id <$>
      filter (λ f, forallb (λ k, bool_decide (k ∈ Js.toLowerCase <$> Facility.facilities f))
                     rest) l.
Proof.
  intros Hc Hnd. induction rest as [|k rest IH]; intros l Hl.
  - cbn [forallb]. by rewrite filter_all.
  - rewrite survivors_cons, (amenityPosting_unique data st k Hc Hnd).
    rewrite filter_ids_unique by done.
    rewrite IH.
    2:{ intros f [_ Hf]%list_elem_of_filter. by apply Hl. }
    f_equal. rewrite list_filter_filter. apply list_filter_iff. intros f.
    cbn [forallb]. rewrite andb_True, bool_decide_spec. tauto.
Qed.

Lemma project_ids st (l : list Facility.t) :
  (∀ f, f ∈ l → facilityIndex st !! Facility.id f = Some f) →
  project st (Facility.id <$> l) = toResult <$> l.
Proof.
  unfold project. induction l as [|f l IH]; intros Hl; [done|].
  rewrite !fmap_cons. cbn [omap list_omap]. rewrite (Hl f) by left. cbn.
  f_equal. apply IH. intros g Hg. apply Hl. by right.
Qed.

Lemma filterByAmenities_unique data st labels :
  FacilityService.constructor data = Some st →
  NoDup (Facility.id <$> data) →
  ∃ st',
    FacilityService.filterByAmenities labels st
    = Some (match labels with
            | [] => []
            | _ => toResult <$> filter (λ f, carriesAll labels f) data
            end, st').
Proof.
  intros Hc Hnd.
  destruct (constructor_indexed data) as (st0 & Hc0 & Hb & _ & Hi).
  assert (st0 = st) as -> by congruence.
  destruct (filterByAmenities_exact labels st Hi) as (st' & Hrun).
  exists st'. rewrite Hrun. f_equal. f_equal.
  destruct labels as [|a rest]; [done|]. rewrite fmap_cons.
  rewrite (amenityPosting_unique data st _ Hc Hnd).
  rewrite addAllData_fresh;
    [|by apply NoDup_ids_filter|by intros x _ ?%elem_of_nil].
  rewrite app_nil_l, live_fmap_Some.
  rewrite (survivors_unique data st _ Hc Hnd).
  2:{ by intros f [_ Hf]%list_elem_of_filter. }
  rewrite project_ids.
  2:{ intros f [_ [_ Hf]%list_elem_of_filter]%list_elem_of_filter.
      rewrite (built_ids _ _ Hb). by apply idMap_NoDup. }
  f_equal. rewrite list_filter_filter. apply list_filter_iff. intros f.
  unfold carriesAll. rewrite fmap_cons. cbn [forallb].
  rewrite andb_True, bool_decide_spec. tauto.
Qed.

(** ** The scan-based service *)

(** *** Its index *)

Lemma scan_indexFacility_spec done f st :
  builtScan done st →
  ∃ st', ScanService.indexFacility f st = Some (tt, st') ∧
    builtScan (done ++ [f]) st' ∧ facilities st' = facilities st.
Proof.
  intros [Hsep Hids Hnames]. unfold ScanService.indexFacility.
  unfold bind at 1. unfold modify at 1.
  set (st0 := setFacilityIndex _ st).
  assert (separated st0) as Hsep0 by (by destruct Hsep).
  destruct (indexTokens_spec (Facility.id f)
              (ScanService.tokenizeName (Facility.name f)) st0 Hsep0)
    as (st1 & Hrun1 & Hsep1 & Hf1 & Hi1 & _ & Hn1 & _).
  exists st1. split; [exact Hrun1|]. split; [|by rewrite Hf1]. split.
  - done.
  - rewrite Hi1, idMap_snoc, <-Hids. done.
  - intros t x. rewrite Hn1.
    change (namePosting st0 t) with (namePosting st t). rewrite Hnames.
    setoid_rewrite elem_of_app. setoid_rewrite list_elem_of_singleton. split.
    + intros [(g & Hg & Hid & Ht)|[Ht ->]]; [exists g|exists f]; tauto.
    + intros (g & [Hg| ->] & Hid & Ht); [left; eauto|right; done].
Qed.

Lemma scan_indexFacilities_spec rest : ∀ done st,
  builtScan done st →
  ∃ st', forEach (λ facility _, ScanService.indexFacility facility) rest tt st
           = Some (tt, st') ∧
    builtScan (done ++ rest) st' ∧ facilities st' = facilities st.
Proof.
  induction rest as [|f rest IH]; intros done st Hb.
  - exists st. rewrite app_nil_r. done.
  - destruct (scan_indexFacility_spec done f st Hb) as (st1 & Hrun1 & Hb1 & Hf1).
    destruct (IH _ st1 Hb1) as (st2 & Hrun2 & Hb2 & Hf2).
    exists st2. cbn [forEach]. unfold bind. rewrite Hrun1, Hrun2.
    rewrite <-app_assoc in Hb2. split; [done|]. split; [done|]. congruence.
Qed.

Lemma scan_constructor_built data :
  ∃ st, ScanService.constructor data = Some st ∧ builtScan data st ∧ facilities st = data.
Proof.
  unfold ScanService.constructor, ScanService.buildIndexes.
  unfold bind, get. cbn [facilities].
  set (st0 := {| facilities := data; facilityIndex := ∅; nameIndex := [];
                 amenityIndex := ∅; heap := []; visited := 0 |}).
  assert (builtScan [] st0) as Hb0.
  { split; try done.
    - split; try done. apply NoDup_nil_2.
    - intros t x. unfold namePosting. simpl. rewrite elem_of_nil.
      split; [done|]. by intros (f & ?%elem_of_nil & _). }
  destruct (scan_indexFacilities_spec data [] st0 Hb0) as (st & Hrun & Hb & Hf).
  exists st. rewrite Hrun. done.
Qed.

(** *** Its amenity filter *)

(** X16.  When the identifiers of the input are pairwise distinct, the indexed
    [filterByAmenities] returns the array that the scan-based
    [filterByAmenities] returns on the same input: the projections of the
    records that carry every label, in the order of the input. *)
Theorem X16_amenity_filter_agrees_with_scan (data : list Facility.t) (labels : list string) :
  NoDup (Facility.id <$> data) →
  ∃ st st0 results st',
    FacilityService.constructor data = Some st ∧
    ScanService.constructor data = Some st0 ∧
    FacilityService.filterByAmenities labels st = Some (results, st') ∧
    ScanService.filterByAmenities labels st0 = Some (results, st0) ∧
    results = match labels with
              | [] => []
              | _ => toResult <$> filter (λ f, carriesAll labels f) data
              end.
Proof.
  intros Hnd. destruct (constructor_built data) as (st & Hc & _ & Hf).
  destruct (scan_constructor_built data) as (st0 & Hc0 & _ & Hf0).
  destruct (filterByAmenities_unique data st labels Hc Hnd) as (st' & Hrun).
  eexists st, st0, _, st'. split; [done|]. split; [done|].
  split; [exact Hrun|]. split; [|done].
  unfold ScanService.filterByAmenities.
  destruct labels as [|a rest]; [done|]. unfold bind, get, ret. by rewrite Hf0.
Qed.

Lemma X16_amenity_filter_agrees_with_scan_witness :
  ∃ st st0 results st',
    FacilityService.constructor scenario = Some st ∧
    ScanService.constructor scenario = Some st0 ∧
    FacilityService.filterByAmenities ["POOL"] st = Some (results, st') ∧
    ScanService.filterByAmenities ["POOL"] st0 = Some (results, st0) ∧
    results = toResult <$> scenario.
Proof.
  destruct (X16_amenity_filter_agrees_with_scan scenario ["POOL"])
    as (st & st0 & results & st' & Hc & Hc0 & Hrun & Hscan & Hres).
  - apply (bool_decide_unpack _). vm_compute. exact I.
  - exists st, st0, results, st'. split; [exact Hc|]. split; [exact Hc0|].
    split; [exact Hrun|]. split; [exact Hscan|]. exact Hres.
Defined.

(** *** Its search *)

Lemma scanAll_frame st st' tok entries :
  (∀ t l, (t, l) ∈ entries → members st' l = members st l) →
  scanAll st' tok entries = scanAll st tok entries.
Proof.
  intros Hm. unfold scanAll. induction entries as [|[t l] es IH]; [done|].
  rewrite !bind_cons. rewrite IH by (intros t' l' ?; apply (Hm t' l'); by right).
  simpl. rewrite (Hm t l) by left. done.
Qed.

Lemma scan_scan_spec m tok entries : ∀ st,
  m < length (heap st) →
  (∀ t l, (t, l) ∈ entries → l < m) →
  forEach (λ entry _, ScanService.scanEntry m tok entry) entries tt st
  = Some (tt, setHeap (<[m := addAllData (scanAll st tok entries) (cell st m)]>
                         (heap st)) st).
Proof.
  induction entries as [|[t l] es IH]; intros st Hm Hlt.
  - simpl. unfold ret. by rewrite insert_cell_id, setHeap_id.
  - assert (l < m) as Hl by (apply (Hlt t); left).
    assert (∀ t' l', (t', l') ∈ es → l' < m) as Hlt' by (intros; eapply Hlt; by right).
    cbn [forEach]. unfold bind at 1. unfold ScanService.scanEntry at 1.
    unfold scanAll. rewrite bind_cons. fold (scanAll st tok es). cbn [fst snd].
    destruct (Js.startsWith t tok).
    + rewrite addAll_spec by (done || lia).
      rewrite IH by (cbn [heap setHeap]; rewrite ?length_insert; done).
      f_equal. f_equal. state_fields; try done.
      rewrite list_insert_insert_eq. f_equal.
      rewrite cell_insert_eq by done.
      rewrite (scanAll_frame st).
      * by rewrite addAllData_app.
      * intros t' l' Hin. specialize (Hlt' _ _ Hin). apply members_heap.
        cbn [heap setHeap]. apply list_lookup_insert_ne. lia.
    + unfold ret. by rewrite IH.
Qed.

Lemma scan_matchTokens_spec m toks : ∀ st,
  m < length (heap st) →
  (∀ t l, (t, l) ∈ nameIndex st → l < m) →
  forEach (λ token _, ScanService.matchToken m token) toks tt st
  = Some (tt, setHeap (<[m := addAllData (toks ≫= λ tok, scanAll st tok (nameIndex st))
                                  (cell st m)]> (heap st)) st).
Proof.
  induction toks as [|tok toks IH]; intros st Hm Hlt.
  - simpl. unfold ret. by rewrite insert_cell_id, setHeap_id.
  - cbn [forEach]. unfold bind at 1. unfold ScanService.matchToken at 1.
    unfold bind at 1. unfold get at 1. rewrite scan_scan_spec by done.
    rewrite IH by (cbn [heap setHeap nameIndex]; rewrite ?length_insert; done).
    f_equal. f_equal. state_fields; try done.
    rewrite list_insert_insert_eq. f_equal.
    rewrite bind_cons, addAllData_app. rewrite cell_insert_eq by done.
    f_equal. clear IH. induction toks as [|tok' toks IH]; [done|].
    rewrite !bind_cons, IH. f_equal. apply scanAll_frame.
    intros t l Hin. specialize (Hlt _ _ Hin). apply members_heap.
    cbn [heap setHeap]. apply list_lookup_insert_ne. lia.
Qed.

Lemma scan_searchByName_spec `{Collator} query st :
  (∀ t l, (t, l) ∈ nameIndex st → l < length (heap st)) →
  ∃ st',
    ScanService.searchByName query st
    = Some (if blank query then []
            else Array.sort (FacilityService.relevance (normalize query))
                   (project st
                      (SetData.live
                         (addAllData
                            (Js.split (normalize query)
                               ≫= λ tok, scanAll st tok (nameIndex st)) []))), st').
Proof.
  intros Hlt. unfold ScanService.searchByName. fold (blank query).
  destruct (blank query); [by eexists|].
  fold (normalize query). cbv zeta.
  unfold bind at 1. rewrite newSet_spec.
  set (m := length (heap st)). set (st1 := setHeap (heap st ++ [[]]) st).
  assert (m < length (heap st1)) as Hm.
  { unfold st1, m. simpl. rewrite length_app. simpl. lia. }
  unfold bind at 1. rewrite scan_matchTokens_spec by done.
  unfold bind at 1. rewrite collect_spec. unfold ret. eexists. f_equal. f_equal.
  f_equal.
  assert (cell st1 m = []) as Hcell.
  { unfold cell, st1, m. simpl. by rewrite lookup_app_r, Nat.sub_diag. }
  rewrite Hcell. rewrite members_insert_eq by done.
  change (project (setHeap ?h st1) ?xs) with (project st xs).
  f_equal. f_equal. f_equal.
  generalize (Js.split (normalize query)). intros toks.
  induction toks as [|tok toks IH]; [done|].
  rewrite !bind_cons, IH. f_equal. apply scanAll_frame.
  intros t l Hin. apply members_heap. unfold st1. cbn [heap setHeap nameIndex].
  apply lookup_app_l. by apply (Hlt t).
Qed.

(** *** Prefix tokens and word tokens *)

Lemma startsWith_substring p : ∀ w i,
  Js.startsWith (String.substring 0 i w) p = true → Js.startsWith w p = true.
Proof.
  induction p as [|a p IH]; intros w i; [done|].
  destruct i as [|i], w as [|b w]; simpl; try done.
  intros [Hab Hp]%andb_true_iff. rewrite Hab. simpl. by apply (IH w i).
Qed.

Lemma startsWith_nonEmpty w qt :
  qt ≠ "" → Js.startsWith w qt = true → Js.nonEmpty w = true.
Proof. by destruct qt, w. Qed.

Lemma scan_tokens_words name qt :
  qt ≠ "" →
  (∃ t, t ∈ ScanService.tokenizeName name ∧ Js.startsWith t qt = true) ↔
  (∃ w, w ∈ FacilityService.tokenizeName name ∧ Js.startsWith w qt = true).
Proof.
  intros Hqt. unfold ScanService.tokenizeName, FacilityService.tokenizeName. split.
  - intros (t & (w & Ht & Hw)%list_elem_of_bind & Hs).
    assert (Js.startsWith w qt = true) as Hws.
    { apply elem_of_cons in Ht as [->|(i & -> & _)%list_elem_of_fmap]; [done|].
      by apply (startsWith_substring qt w i). }
    exists w. split; [|done]. apply list_elem_of_filter. split; [|done].
    by rewrite (startsWith_nonEmpty w qt).
  - intros (w & [_ Hw]%list_elem_of_filter & Hs). exists w. split; [|done].
    apply list_elem_of_bind. exists w. split; [left|done].
Qed.

(** *** The tokens of a trimmed query *)

Lemma trimEnd_ends s : endsWithSpace (Js.trimEnd s) = false.
Proof.
  induction s as [|c s IH]; [done|]. simpl.
  destruct (Js.trimEnd s) as [|c' r].
  - destruct (Js.isWhiteSpace c) eqn:Hc; [done|]. simpl. done.
  - exact IH.
Qed.

Lemma split_inner s :
  endsWithSpace s = false → s ≠ "" →
  ∃ p ps, Js.split s = p :: ps ∧ Forall (λ w, Js.nonEmpty w = true) ps ∧
          (Js.beginsWithSpace s = false → Js.nonEmpty p = true).
Proof.
  induction s as [|c s IH]; [done|]. intros Hend _.
  destruct s as [|c' s'].
  - simpl in Hend. rewrite split_cons_word by done. simpl.
    exists (String c ""), []. done.
  - destruct IH as (p & ps & Hsplit & Hps & Hp); [done|done|].
    destruct (Js.isWhiteSpace c) eqn:Hc.
    + rewrite split_cons_space by done.
      destruct (Js.beginsWithSpace (String c' s')) eqn:Hb.
      * exists p, ps. split; [done|]. split; [done|]. simpl. by rewrite Hc.
      * exists "", (p :: ps). split; [by rewrite Hsplit|].
        split; [constructor; auto|]. simpl. by rewrite Hc.
    + rewrite split_cons_word by done. rewrite Hsplit.
      exists (String c p), ps. done.
Qed.

Lemma queryTokens_split q :
  blank q = false → Js.split (normalize q) = queryTokens q.
Proof.
  intros Hq. unfold queryTokens. symmetry.
  destruct (trim_cases q) as [[_ Hs]|(c & r & Hr & Hc)].
  { apply blank_allSpace in Hs. congruence. }
  assert (normalize q = String (Js.lowerChar c) (Js.toLowerCase r)) as Hn.
  { unfold normalize. by rewrite trim_toLowerCase, Hr. }
  destruct (split_inner (normalize q)) as (p & ps & Hsplit & Hps & Hp).
  - unfold normalize, Js.trim. apply trimEnd_ends.
  - by rewrite Hn.
  - rewrite Hsplit. rewrite Hn in Hp. simpl in Hp. rewrite lowerChar_space in Hp.
    specialize (Hp Hc).
    rewrite filter_cons_True by (by rewrite Hp). f_equal.
    clear Hsplit. induction Hps as [|w ws Hw Hws IH]; [done|].
    rewrite filter_cons_True by (by rewrite Hw). by f_equal.
Qed.

(** *** The two searches find the same records *)

Lemma scanAll_built data st tok x :
  builtScan data st →
  x ∈ scanAll st tok (nameIndex st) ↔
  ∃ f t, f ∈ data ∧ Facility.id f = x ∧
         t ∈ ScanService.tokenizeName (Facility.name f) ∧ Js.startsWith t tok = true.
Proof.
  intros Hb. unfold scanAll. rewrite list_elem_of_bind. split.
  - intros ([t l] & Hx & Hin). cbn [fst snd] in Hx.
    destruct (Js.startsWith t tok) eqn:Hs; [|by apply elem_of_nil in Hx].
    assert (x ∈ namePosting st t) as Hp.
    { unfold namePosting.
      by rewrite (NameMap_elem_get _ _ _
                    (separated_keys _ (builtScan_separated _ _ Hb)) Hin). }
    apply (builtScan_names _ _ Hb) in Hp as (f & ? & ? & ?). exists f, t. auto.
  - intros (f & t & Hf & Hid & Ht & Hs).
    assert (x ∈ namePosting st t) as Hp by (apply (builtScan_names _ _ Hb); eauto).
    unfold namePosting in Hp.
    destruct (NameMap.get t (nameIndex st)) as [l|] eqn:El;
      [|by apply elem_of_nil in Hp].
    simpl in Hp. exists (t, l). split; [|by apply NameMap_get_elem].
    cbn [fst snd]. by rewrite Hs.
Qed.

Lemma results_Permutation (m : gmap string Facility.t)
    (r1 r2 : list FacilitySearchResult.t) :
  NoDup (ids r1) → NoDup (ids r2) →
  (∀ x, x ∈ ids r1 ↔ x ∈ ids r2) →
  (∀ r, r ∈ r1 → ∃ f, m !! FacilitySearchResult.id r = Some f ∧ r = toResult f) →
  (∀ r, r ∈ r2 → ∃ f, m !! FacilitySearchResult.id r = Some f ∧ r = toResult f) →
  r1 ≡ₚ r2.
Proof.
  intros Hnd1 Hnd2 Hids H1 H2.
  assert (∀ ra rb r, (∀ x, x ∈ ids ra → x ∈ ids rb) →
            (∀ r, r ∈ ra → ∃ f, m !! FacilitySearchResult.id r = Some f ∧ r = toResult f) →
            (∀ r, r ∈ rb → ∃ f, m !! FacilitySearchResult.id r = Some f ∧ r = toResult f) →
            r ∈ ra → r ∈ rb) as Hsub.
  { intros ra rb r Hab Ha Hbb Hin.
    assert (FacilitySearchResult.id r ∈ ids rb) as Hid
      by (apply Hab; by apply list_elem_of_fmap_2).
    apply list_elem_of_fmap in Hid as (r' & Hid & Hin').
    destruct (Ha r Hin) as (f & Hf1 & ->). destruct (Hbb r' Hin') as (f' & Hf2 & ->).
    rewrite Hid, Hf2 in Hf1. by injection Hf1 as ->. }
  apply NoDup_Permutation.
  - by apply (NoDup_fmap_1 FacilitySearchResult.id).
  - by apply (NoDup_fmap_1 FacilitySearchResult.id).
  - intros r. split; apply Hsub; try done; intros x; by apply Hids.
Qed.

Lemma sorted_project_results (cmp : FacilitySearchResult.t → FacilitySearchResult.t → Z)
    data st xs :
  facilityIndex st = idMap data → NoDup xs →
  NoDup (ids (Array.sort cmp (project st xs))) ∧
  (∀ x, x ∈ ids (Array.sort cmp (project st xs)) ↔ x ∈ xs ∧ is_Some (idMap data !! x)) ∧
  (∀ r, r ∈ Array.sort cmp (project st xs) →
        ∃ f, idMap data !! FacilitySearchResult.id r = Some f ∧ r = toResult f).
Proof.
  intros Hidx Hnd.
  assert (∀ i f, facilityIndex st !! i = Some f → Facility.id f = i) as Hid.
  { intros i f Hf. rewrite Hidx in Hf. by destruct (idMap_lookup_Some _ _ _ Hf). }
  split; [|split].
  - unfold ids. rewrite sort_Permutation. by apply NoDup_ids_project.
  - intros x. rewrite elem_of_ids_sort, elem_of_ids_project by done. by rewrite Hidx.
  - intros r Hr. rewrite sort_Permutation in Hr.
    apply elem_of_project in Hr as (x & f & _ & Hf & ->).
    exists f. split; [|done]. simpl. rewrite (Hid _ _ Hf). by rewrite <- Hidx.
Qed.

(** X17.  The indexed [searchByName] and the scan-based [searchByName], each
    on the index that its own constructor builds from the same input, find
    the same records for every query: their results are permutations of each
    other. *)
Theorem X17_search_agrees_with_scan `{Collator} (data : list Facility.t) (query : string) :
  ∃ st results st' st0 results0 st0',
    FacilityService.constructor data = Some st ∧
    ScanService.constructor data = Some st0 ∧
    FacilityService.searchByName query st = Some (results, st') ∧
    ScanService.searchByName query st0 = Some (results0, st0') ∧
    results ≡ₚ results0.
Proof.
  destruct (constructor_indexed data) as (st & Hc & Hb & Hf & Hi).
  destruct (scan_constructor_built data) as (st0 & Hc0 & Hb0 & Hf0).
  destruct (searchByName_results query st Hi) as (st' & Hrun & _).
  destruct (scan_searchByName_spec query st0) as (st0' & Hrun0).
  { intros t l Hin.
    apply (separated_name_alloc _ (builtScan_separated _ _ Hb0) t).
    by apply NameMap_elem_get; [apply (builtScan_separated _ _ Hb0)|]. }
  eexists st, _, st', st0, _, st0'.
  split; [done|]. split; [done|]. split; [exact Hrun|]. split; [exact Hrun0|].
  destruct (blank query) eqn:Hq; [done|].
  destruct (sorted_project_results (FacilityService.relevance (normalize query))
              data st (matches st query) (built_ids _ _ Hb))
    as (Hnd1 & Hx1 & Hr1); [apply NoDup_live_addAll, NoDup_nil_2|].
  destruct (sorted_project_results (FacilityService.relevance (normalize query))
              data st0
              (SetData.live (addAllData
                 (Js.split (normalize query) ≫= λ tok, scanAll st0 tok (nameIndex st0)) []))
              (builtScan_ids _ _ Hb0))
    as (Hnd2 & Hx2 & Hr2); [apply NoDup_live_addAll, NoDup_nil_2|].
  apply (results_Permutation (idMap data)); try done.
  intros x. rewrite Hx1, Hx2. apply and_iff_compat_r.
  rewrite (matches_built _ _ _ _ Hb).
  rewrite elem_of_live_addAll, list_elem_of_bind, (queryTokens_split _ Hq).
  split.
  - intros (f & qt & t & Hin & Hid & Hqt & Ht & Hs). left. exists qt. split; [|done].
    apply (scanAll_built _ _ _ _ Hb0).
    assert (qt ≠ "") as Hne.
    { unfold queryTokens in Hqt. apply list_elem_of_filter in Hqt as [Hne _].
      by destruct qt. }
    destruct (proj2 (scan_tokens_words (Facility.name f) qt Hne)) as (t' & Ht' & Hs');
      eauto 10.
  - intros [(qt & Hx & Hqt)|Hx%elem_of_nil]; [|done].
    apply (scanAll_built _ _ _ _ Hb0) in Hx as (f & t & Hin & Hid & Ht & Hs).
    assert (qt ≠ "") as Hne.
    { unfold queryTokens in Hqt. apply list_elem_of_filter in Hqt as [Hne _].
      by destruct qt. }
    destruct (proj1 (scan_tokens_words (Facility.name f) qt Hne)) as (w & Hw & Hs');
      eauto 10.
Qed.

(** ** Queries in sequence *)

Lemma searchByName_full `{Collator} data st q :
  built data st → facilities st = data →
  ∃ results st',
    FacilityService.searchByName q st = Some (results, st') ∧
    preserved st st' ∧
    NoDup (ids results) ∧
    (∀ x, x ∈ ids results ↔
          ∃ f qt t, f ∈ data ∧ Facility.id f = x ∧ qt ∈ queryTokens q ∧
                    t ∈ FacilityService.tokenizeName (Facility.name f) ∧
                    Js.startsWith t qt = true) ∧
    (∀ r, r ∈ results →
          ∃ f, idMap data !! FacilitySearchResult.id r = Some f ∧ r = toResult f).
Proof.
  intros Hb Hf. pose proof (built_indexed _ _ Hb Hf) as Hi.
  destruct (searchByName_ids data st q Hb Hf) as (results & st' & Hrun & Hx).
  destruct (searchByName_results q st Hi) as (st'' & Hrun' & Hp & _).
  rewrite Hrun in Hrun'. injection Hrun' as Hres <-.
  exists results, st'. split; [done|]. split; [done|].
  destruct (blank q).
  - subst results. split; [apply NoDup_nil_2|]. split; [done|].
    by intros r ?%elem_of_nil.
  - destruct (sorted_project_results (FacilityService.relevance (normalize q))
                data st (matches st q) (built_ids _ _ Hb))
      as (Hnd & _ & Hr); [apply NoDup_live_addAll, NoDup_nil_2|].
    rewrite <- Hres in Hnd, Hr. done.
Qed.

(** X18.  What a query returns can be fetched afterwards: for every result
    of [searchByName] or of [filterByAmenities] with a non-empty identifier,
    [getById] on the state that the query leaves returns a record of the
    input whose projection is that result.  The empty identifier is never
    fetched. *)
Theorem X18_results_can_be_fetched `{Collator} (data : list Facility.t)
    (query : string) (labels : list string) :
  ∃ st found s1 filtered s2,
    FacilityService.constructor data = Some st ∧
    FacilityService.searchByName query st = Some (found, s1) ∧
    FacilityService.filterByAmenities labels st = Some (filtered, s2) ∧
    (∀ r, r ∈ found → FacilitySearchResult.id r ≠ "" →
       ∃ f, FacilityService.getById (FacilitySearchResult.id r) s1 = Some (Some f, s1) ∧
            f ∈ data ∧ toResult f = r) ∧
    (∀ r, r ∈ filtered → FacilitySearchResult.id r ≠ "" →
       ∃ f, FacilityService.getById (FacilitySearchResult.id r) s2 = Some (Some f, s2) ∧
            f ∈ data ∧ toResult f = r) ∧
    FacilityService.getById "" s1 = Some (None, s1).
Proof.
  destruct (constructor_indexed data) as (st & Hc & Hb & Hf & Hi).
  destruct (searchByName_full data st query Hb Hf) as (found & s1 & Hrun1 & Hp1 & _ & _ & Hr1).
  destruct (filterByAmenities_spec labels st Hi) as (filtered & s2 & Hrun2 & Hone & _ & _ & Hr2).
  exists st, found, s1, filtered, s2.
  split; [done|]. split; [done|]. split; [done|].
  assert (∀ s r f, facilityIndex s = facilityIndex st →
            FacilitySearchResult.id r ≠ "" →
            idMap data !! FacilitySearchResult.id r = Some f → r = toResult f →
            ∃ f, FacilityService.getById (FacilitySearchResult.id r) s = Some (Some f, s) ∧
                 f ∈ data ∧ toResult f = r) as Hfetch.
  { intros s r f Hs Hne Hlook ->. exists f. rewrite getById_spec.
    assert (Js.nonEmpty (FacilitySearchResult.id (toResult f)) = true) as ->
      by (by destruct (FacilitySearchResult.id (toResult f))).
    rewrite Hs, (built_ids _ _ Hb), Hlook.
    by destruct (idMap_lookup_Some _ _ _ Hlook). }
  split; [|split].
  - intros r Hr Hne. destruct (Hr1 r Hr) as (f & Hlook & Heq).
    apply (Hfetch s1 r f); try done. by destruct Hp1 as (_ & ? & _).
  - intros r Hr Hne. destruct (Hr2 r Hr) as (f & Hlook & Heq).
    rewrite (built_ids _ _ Hb) in Hlook.
    apply (Hfetch s2 r f); try done.
    apply oneMoreSet_preserved in Hone as [(_ & ? & _) _]. done.
  - by rewrite getById_spec.
Qed.

Lemma project_frame st st' xs :
  facilityIndex st' = facilityIndex st → project st' xs = project st xs.
Proof. intros Hi. unfold project. by rewrite Hi. Qed.

Lemma matches_frame st st' q :
  indexed st → preserved st st' → matches st' q = matches st q.
Proof.
  intros Hi Hp. unfold matches. f_equal. f_equal.
  apply bind_tokenHits_frame; [by destruct Hp as (_ & _ & ? & _)|].
  intros t l Hin. apply preserved_members; [done|].
  by apply (indexed_name_alloc _ Hi t).
Qed.

(** X19.  The answers do not depend on the queries made before: in a state
    reached from [st] by operations that only allocate sets, [searchByName]
    and [filterByAmenities] return what they return in [st], in the same
    order. *)
Theorem X19_answers_independent_of_history `{Collator} (st st' : State)
    (query : string) (labels : list string) :
  indexed st → preserved st st' →
  ∃ found s1 s1' filtered s2 s2',
    FacilityService.searchByName query st = Some (found, s1) ∧
    FacilityService.searchByName query st' = Some (found, s1') ∧
    FacilityService.filterByAmenities labels st = Some (filtered, s2) ∧
    FacilityService.filterByAmenities labels st' = Some (filtered, s2').
Proof.
  intros Hi Hp. pose proof (indexed_preserved _ _ Hi Hp) as Hi'.
  pose proof Hp as (_ & Hfi & _ & Hai & _).
  destruct (searchByName_results query st Hi) as (s1 & Hrun1 & _).
  destruct (searchByName_results query st' Hi') as (s1' & Hrun1' & _).
  destruct (filterByAmenities_exact labels st Hi) as (s2 & Hrun2).
  destruct (filterByAmenities_exact labels st' Hi') as (s2' & Hrun2').
  eexists _, s1, s1', _, s2, s2'.
  split; [exact Hrun1|]. split; [|split; [exact Hrun2|]].
  - rewrite Hrun1'. by rewrite (matches_frame st st'), (project_frame st st').
  - rewrite Hrun2'. f_equal. f_equal.
    destruct (Js.toLowerCase <$> labels) as [|first rest]; [done|].
    assert (∀ a, amenityPosting st' a = amenityPosting st a) as Hpost.
    { apply amenityPosting_frame; [done|]. intros k l Hl.
      apply preserved_members; [done|]. by apply (indexed_amenity_alloc _ Hi k). }
    by rewrite (project_frame st st'), (survivors_frame st st'), Hpost.
Qed.

Lemma X19_answers_independent_of_history_witness :
  ∃ st earlier st' found s1 s1' filtered s2 s2',
    FacilityService.constructor scenario = Some st ∧
    FacilityService.searchByName "gym" st = Some (earlier, st') ∧
    FacilityService.searchByName "city" st = Some (found, s1) ∧
    FacilityService.searchByName "city" st' = Some (found, s1') ∧
    FacilityService.filterByAmenities ["pool"] st = Some (filtered, s2) ∧
    FacilityService.filterByAmenities ["pool"] st' = Some (filtered, s2').
Proof.
  destruct (constructor_indexed scenario) as (st & Hc & _ & _ & Hi).
  destruct (searchByName_results (H := codeUnitCollator) "gym" st Hi) as (st' & Hrun & Hp & _).
  destruct (X19_answers_independent_of_history st st' "city" ["pool"] Hi Hp)
    as (found & s1 & s1' & filtered & s2 & s2' & H1 & H2 & H3 & H4).
  eexists st, _, st', found, s1, s1', filtered, s2, s2'.
  split; [exact Hc|]. split; [exact Hrun|]. by repeat split.
Defined.

(** X20.  The records that [searchByName] finds depend on the set of words of
    the query only: two queries with the same words, in any order and with
    any white space between them, find the same records (the ranking, which
    reads the query as a whole, may order them differently). *)
Theorem X20_search_depends_on_words `{Collator} (data : list Facility.t) (q1 q2 : string) :
  (∀ t, t ∈ queryTokens q1 ↔ t ∈ queryTokens q2) →
  ∃ st results1 s1 results2 s2,
    FacilityService.constructor data = Some st ∧
    FacilityService.searchByName q1 st = Some (results1, s1) ∧
    FacilityService.searchByName q2 st = Some (results2, s2) ∧
    results1 ≡ₚ results2.
Proof.
  intros Hsame. destruct (constructor_built data) as (st & Hc & Hb & Hf).
  destruct (searchByName_full data st q1 Hb Hf) as (r1 & s1 & Hrun1 & _ & Hnd1 & Hx1 & Hr1).
  destruct (searchByName_full data st q2 Hb Hf) as (r2 & s2 & Hrun2 & _ & Hnd2 & Hx2 & Hr2).
  exists st, r1, s1, r2, s2. split; [done|]. split; [done|]. split; [done|].
  apply (results_Permutation (idMap data)); try done.
  intros x. rewrite Hx1, Hx2.
  split; intros (f & qt & t & ? & ? & Hqt & ? & ?); exists f, qt, t;
    apply Hsame in Hqt; auto.
Qed.

Lemma X20_search_depends_on_words_witness :
  ∃ st results1 s1 results2 s2,
    FacilityService.constructor scenario = Some st ∧
    FacilityService.searchByName "plus  fit" st = Some (results1, s1) ∧
    FacilityService.searchByName " Fit PLUS fit" st = Some (results2, s2) ∧
    results1 ≡ₚ results2.
Proof.
  apply (X20_search_depends_on_words scenario).
  intros t. vm_compute queryTokens. rewrite !elem_of_cons.
  pose proof (elem_of_nil t). tauto.
Defined.

(** ** Authentication *)

Lemma startsWith_inv s p : Js.startsWith s p = true → ∃ r, s = p +:+ r.
Proof.
  revert s. induction p as [|a p IH]; intros s; [by exists s|].
  destruct s as [|b s]; [done|]. simpl.
  intros [Hab Hs]%andb_true_iff. apply bool_decide_eq_true in Hab as ->.
  destruct (IH s Hs) as [r ->]. by exists r.
Qed.

Lemma slice_app p r : Js.slice (String.length p) (p +:+ r) = r.
Proof. induction p as [|a p IH]; [done|]. exact IH. Qed.

Lemma replace_prefix p x r : Js.replace p x (p +:+ r) = x +:+ r.
Proof.
  destruct p as [|a p].
  - change ("" +:+ r) with r. by destruct r.
  - change (String a p +:+ r) with (String a (p +:+ r)). cbn [Js.replace].
    change (String a (p +:+ r)) with (String a p +:+ r).
    by rewrite startsWith_app, slice_app.
Qed.

(** X21.  The authentication middleware lets a request through exactly when
    its authorization header is ["Bearer "] followed by a non-empty token that
    [verifyToken] accepts, and then [req.user] is the user of that token; the
    token is the rest of the header as it stands, and every other request is
    answered 401. *)
Theorem X21_authMiddleware_passes_bearer_tokens `{Auth} (authorization : option string)
    (user : User) :
  Middleware.authMiddleware authorization = Middleware.Next user ↔
  ∃ token, authorization = Some ("Bearer " +:+ token) ∧ token ≠ "" ∧
           verifyToken token = inl user.
Proof.
  unfold Middleware.authMiddleware. split.
  - destruct authorization as [h|]; [|done].
    destruct (Js.nonEmpty h); [|done]. cbn [negb].
    destruct (Js.startsWith h "Bearer ") eqn:Hs; [|done]. cbn [negb].
    apply startsWith_inv in Hs as [r ->]. rewrite replace_prefix.
    change ("" +:+ r) with r. destruct r as [|c r]; [done|]. cbn [Js.nonEmpty negb].
    destruct (verifyToken (String c r)) as [u|m] eqn:Hv; [|done].
    intros [= ->]. by exists (String c r).
  - intros (token & -> & Hne & Hv).
    change (Js.nonEmpty ("Bearer " +:+ token)) with true. cbn [negb].
    rewrite startsWith_app. cbn [negb]. rewrite replace_prefix.
    change ("" +:+ token) with token. destruct token as [|c r]; [done|].
    cbn [Js.nonEmpty negb]. by rewrite Hv.
Qed.

(** ** Narrowing and widening *)

Lemma noSpace_toLowerCase s : noSpace s → noSpace (Js.toLowerCase s).
Proof.
  unfold noSpace. induction s as [|c s IH]; [done|]. simpl.
  intros [Hc Hs]%Forall_cons. constructor; [by rewrite lowerChar_space|auto].
Qed.

Lemma queryTokens_single s :
  noSpace s → s ≠ "" → queryTokens s = [Js.toLowerCase s].
Proof.
  intros Hs Hne. apply noSpace_toLowerCase in Hs.
  unfold queryTokens, normalize. rewrite trim_word, split_word by done.
  rewrite filter_cons_True; [done|]. by destruct s.
Qed.

Lemma startsWith_app_prefix p r : ∀ t,
  Js.startsWith t (p +:+ r) = true → Js.startsWith t p = true.
Proof.
  induction p as [|a p IH]; intros t; [done|].
  change (String a p +:+ r) with (String a (p +:+ r)).
  destruct t as [|b t]; [done|]. simpl.
  intros [Hab Ht]%andb_true_iff. rewrite Hab. simpl. by apply IH.
Qed.

(** X22.  Typing more of a word narrows the search.  For a query of one
    word [p] and the word extended by further characters [r], when the lower
    case of the longer word starts with the lower case of [p] (as it does for
    code units below 256; outside that range a capital sigma at the end of
    [p] is lower-cased otherwise when a letter follows), every record found
    for the longer word is found for [p]. *)
Theorem X22_longer_word_narrows `{Collator} (data : list Facility.t) (p r : string) :
  noSpace (p +:+ r) → p ≠ "" →
  Js.startsWith (Js.toLowerCase (p +:+ r)) (Js.toLowerCase p) = true →
  ∃ st shorter s1 longer s2,
    FacilityService.constructor data = Some st ∧
    FacilityService.searchByName p st = Some (shorter, s1) ∧
    FacilityService.searchByName (p +:+ r) st = Some (longer, s2) ∧
    ∀ x, x ∈ ids longer → x ∈ ids shorter.
Proof.
  intros Hns Hne Hlower.
  assert (noSpace p) as Hp.
  { unfold noSpace in *. rewrite chars_app in Hns. by apply Forall_app in Hns as [? _]. }
  assert (p +:+ r ≠ "") as Hne' by (by destruct p).
  destruct (constructor_built data) as (st & Hc & Hb & Hf).
  destruct (searchByName_ids data st p Hb Hf) as (r1 & s1 & Hrun1 & Hx1).
  destruct (searchByName_ids data st (p +:+ r) Hb Hf) as (r2 & s2 & Hrun2 & Hx2).
  exists st, r1, s1, r2, s2. split; [done|]. split; [done|]. split; [done|].
  intros x. rewrite Hx1, Hx2.
  rewrite (queryTokens_single p), (queryTokens_single (p +:+ r)) by done.
  intros (f & qt & t & Hin & Hid & ->%list_elem_of_singleton & Ht & Hs).
  exists f, (Js.toLowerCase p), t. rewrite list_elem_of_singleton.
  repeat (split; [done|]).
  apply startsWith_inv in Hlower as [r' Hlower]. rewrite Hlower in Hs.
  by apply (startsWith_app_prefix _ r').
Qed.

Lemma X22_longer_word_narrows_witness :
  ∃ st shorter s1 longer s2,
    FacilityService.constructor scenario = Some st ∧
    FacilityService.searchByName "Ci" st = Some (shorter, s1) ∧
    FacilityService.searchByName ("Ci" +:+ "ty") st = Some (longer, s2) ∧
    ∀ x, x ∈ ids longer → x ∈ ids shorter.
Proof.
  apply (X22_longer_word_narrows scenario "Ci" "ty").
  - unfold noSpace. simpl. repeat constructor.
  - discriminate.
  - reflexivity.
Defined.

(** X23.  Records added to the input never hide an identifier: every
    identifier that [searchByName] or [filterByAmenities] returns for an input
    is returned for the input followed by further records. *)
Theorem X23_more_records_never_hide `{Collator} (data more : list Facility.t)
    (query : string) (labels : list string) :
  ∃ st found s1 filtered s2 st' found' s1' filtered' s2',
    FacilityService.constructor data = Some st ∧
    FacilityService.constructor (data ++ more) = Some st' ∧
    FacilityService.searchByName query st = Some (found, s1) ∧
    FacilityService.searchByName query st' = Some (found', s1') ∧
    FacilityService.filterByAmenities labels st = Some (filtered, s2) ∧
    FacilityService.filterByAmenities labels st' = Some (filtered', s2') ∧
    (∀ x, x ∈ ids found → x ∈ ids found') ∧
    (∀ x, x ∈ ids filtered → x ∈ ids filtered').
Proof.
  destruct (constructor_built data) as (st & Hc & Hb & Hf).
  destruct (constructor_built (data ++ more)) as (st' & Hc' & Hb' & Hf').
  destruct (searchByName_ids data st query Hb Hf) as (r1 & s1 & Hrun1 & Hx1).
  destruct (searchByName_ids _ st' query Hb' Hf') as (r1' & s1' & Hrun1' & Hx1').
  destruct (filterByAmenities_ids data st labels Hb Hf) as (r2 & s2 & Hrun2 & _ & Hx2 & _).
  destruct (filterByAmenities_ids _ st' labels Hb' Hf') as (r2' & s2' & Hrun2' & _ & Hx2' & _).
  exists st, r1, s1, r2, s2, st', r1', s1', r2', s2'.
  repeat (split; [done|]). split.
  - intros x. rewrite Hx1, Hx1'.
    intros (f & qt & t & Hin & ?). exists f, qt, t. rewrite elem_of_app. tauto.
  - intros x. rewrite Hx2, Hx2'. intros [Hne Hall]. split; [done|].
    intros a Ha. destruct (Hall a Ha) as (f & Hin & ?). exists f.
    rewrite elem_of_app. tauto.
Qed.

(** ** The search route and the spelling of the labels *)

(** X24.  The search route reads the labels of [amenities] as a set, up to
    letter case and surrounding white space: two requests with the same valid
    [q] whose parameters name the same lower-cased labels, in any order and
    with any repetition, get the same response. *)
Theorem X24_search_route_label_spelling `{Collator} `{Validator} (st : State)
    (q amenities1 amenities2 : string) :
  indexed st →
  1 ≤ String.length q ≤ 100 →
  (∀ a, a ∈ Js.toLowerCase <$> amenityList amenities1
        ↔ a ∈ Js.toLowerCase <$> amenityList amenities2) →
  ∃ response s1 s2,
    Routes.search {| Routes.q := Some (Str q); Routes.amenities := Some (Str amenities1) |} st
    = Some (response, s1) ∧
    Routes.search {| Routes.q := Some (Str q); Routes.amenities := Some (Str amenities2) |} st
    = Some (response, s2).
Proof.
  intros Hi [Hlo Hhi] Hsame.
  assert (∀ a, Routes.searchQuerySchema
            {| Routes.q := Some (Str q); Routes.amenities := Some (Str a) |}
          = Some (q, Some a)) as Hs.
  { intros a. unfold Routes.searchQuerySchema. cbn [Routes.q Routes.amenities].
    apply Nat.leb_le in Hlo, Hhi. by rewrite Hlo, Hhi. }
  destruct (decide (amenityList amenities1 = [])) as [Hnil1|Hne1].
  - assert (amenityList amenities2 = []) as Hnil2.
    { destruct (amenityList amenities2) as [|b l2]; [done|]. exfalso.
      rewrite Hnil1 in Hsame. eapply elem_of_nil, Hsame. rewrite fmap_cons. left. }
    destruct (search_plain _ q (Some amenities1) st Hi (Hs _) Hnil1)
      as (found & s1 & Hrun & Hroute1 & _).
    destruct (search_plain _ q (Some amenities2) st Hi (Hs _) Hnil2)
      as (found' & s2 & Hrun' & Hroute2 & _).
    assert (found' = found) as -> by congruence.
    by eexists _, s1, s2.
  - assert (amenityList amenities2 ≠ []) as Hne2.
    { intros Hnil2. destruct (amenityList amenities1) as [|b l1]; [done|].
      rewrite Hnil2 in Hsame. eapply elem_of_nil, Hsame. rewrite fmap_cons. left. }
    destruct (search_filtered _ q amenities1 st Hi (Hs _) Hne1)
      as (found & s1 & f1 & t1 & u1 & Hrun & Hfil1 & Hroute1 & _).
    destruct (search_filtered _ q amenities2 st Hi (Hs _) Hne2)
      as (found' & s1' & f2 & t2 & u2 & Hrun' & Hfil2 & Hroute2 & _).
    assert (found' = found) as -> by congruence.
    destruct (filterByAmenities_spec (amenityList amenities1) st Hi)
      as (f1' & t1' & Hfil1' & _ & _ & Hx1 & _).
    destruct (filterByAmenities_spec (amenityList amenities2) st Hi)
      as (f2' & t2' & Hfil2' & _ & _ & Hx2 & _).
    assert (f1' = f1) as -> by congruence. assert (f2' = f2) as -> by congruence.
    assert (∀ x, x ∈ ids f1 ↔ x ∈ ids f2) as Hids.
    { intros x. rewrite Hx1, Hx2. unfold hasAll.
      split; intros [_ Hall]; (split; [done|]); intros a Ha; apply Hall, Hsame, Ha. }
    eexists _, u1, u2. split; [exact Hroute1|]. rewrite Hroute2.
    rewrite (list_filter_iff _ (λ r, FacilitySearchResult.id r ∈ ids f1)); [done|].
    intros r. by rewrite Hids.
Qed.

Lemma X24_search_route_label_spelling_witness :
  ∃ st response s1 s2,
    FacilityService.constructor scenario = Some st ∧
    Routes.search {| Routes.q := Some (Str "city"); Routes.amenities := Some (Str "Pool,Sauna") |} st
    = Some (response, s1) ∧
    Routes.search {| Routes.q := Some (Str "city");
                     Routes.amenities := Some (Str " sauna , POOL,,pool") |} st
    = Some (response, s2).
Proof.
  destruct (constructor_indexed scenario) as (st & Hc & _ & _ & Hi).
  destruct (X24_search_route_label_spelling st "city" "Pool,Sauna" " sauna , POOL,,pool" Hi)
    as (response & s1 & s2 & H1 & H2).
  - simpl. lia.
  - intros a. vm_compute amenityList. vm_compute Js.toLowerCase. cbn [fmap list_fmap].
    rewrite !elem_of_cons. pose proof (elem_of_nil a). tauto.
  - exists st, response, s1, s2. split; [exact Hc|]. split; [exact H1|exact H2].
Defined.

(** ** The router *)

Section RouterLemmas.
Context `{Collator} `{Validator} `{Auth} `{Express}.

Lemma handle_search req st params :
  matchPath "/search" (Router.path req) = Some params →
  Router.handle req st
  = match Middleware.authMiddleware (Router.authorization req) with
    | Middleware.Next _ =>
        match Routes.search (Router.query req) st with
        | Some (response, st') => Some (Some response, st')
        | None => None
        end
    | Middleware.Unauthorized error message =>
        Some (Some (Routes.statusJson 401 (Routes.Failure error message)), st)
    end.
Proof.
  intros Hm. unfold Router.handle, Router.authenticated. rewrite Hm.
  by destruct (Middleware.authMiddleware _).
Qed.

Lemma handle_facility req st params :
  matchPath "/search" (Router.path req) = None →
  matchPath "/:id" (Router.path req) = Some params →
  Router.handle req st
  = match Middleware.authMiddleware (Router.authorization req) with
    | Middleware.Next _ =>
        match Routes.getFacility params st with
        | Some (response, st') => Some (Some response, st')
        | None => None
        end
    | Middleware.Unauthorized error message =>
        Some (Some (Routes.statusJson 401 (Routes.Failure error message)), st)
    end.
Proof.
  intros Hs Hm. unfold Router.handle, Router.authenticated. rewrite Hs, Hm.
  by destruct (Middleware.authMiddleware _).
Qed.

End RouterLemmas.

(** X11.  In every state of the service, a request handed to the router
    whose path matches [/search], whatever other route it matches, is
    answered by the search route and never with status 500: with 401 and the
    error of the middleware, the service not being consulted, when
    [authMiddleware] turns the authorization header down; otherwise with 400,
    the service not being consulted either, when the parameters fail
    validation; and otherwise with 200, also when nothing is found.  The
    indexes of the service are as before. *)
Theorem X11_search_route_answers `{Collator} `{Validator} `{Auth} `{Express}
    (st : State) (req : Router.Request) :
  indexed st →
  is_Some (matchPath "/search" (Router.path req)) →
  ∃ response st',
    Router.handle req st = Some (Some response, st') ∧
    preserved st st' ∧ indexed st' ∧
    match Middleware.authMiddleware (Router.authorization req) with
    | Middleware.Unauthorized error message =>
        response = Routes.statusJson 401 (Routes.Failure error message) ∧ st' = st
    | Middleware.Next _ =>
        match Routes.searchQuerySchema (Router.query req) with
        | Some _ => Routes.status response = 200
        | None => Routes.status response = 400 ∧ st' = st
        end
    end.
Proof.
  intros Hi [params Hm]. rewrite (handle_search req st params Hm).
  destruct (Middleware.authMiddleware (Router.authorization req)) as [user|error message].
  - set (query := Router.query req).
    destruct (Routes.searchQuerySchema query) as [[q am]|] eqn:Hs.
    + destruct (decide (from_option amenityList [] am = [])) as [Ham|Ham].
      * destruct (search_plain query q am st Hi Hs Ham) as (found & st' & _ & Hrun & Hp).
        rewrite Hrun. eexists _, st'. split; [done|]. split; [done|].
        split; [by eapply indexed_preserved|done].
      * destruct am as [a|]; [|done].
        destruct (search_filtered query q a st Hi Hs Ham)
          as (found & s1 & filtered & s2 & st' & _ & _ & Hrun & Hp).
        rewrite Hrun. eexists _, st'. split; [done|]. split; [done|].
        split; [by eapply indexed_preserved|done].
    + rewrite (search_invalid query st Hs). eexists _, st. split; [done|].
      split; [apply preserved_refl|]. done.
  - eexists _, st. split; [done|]. split; [apply preserved_refl|]. done.
Qed.

Lemma X11_search_route_answers_witness :
  ∃ st response st' refusal,
    FacilityService.constructor scenario = Some st ∧
    matchPath "/:id" "/search" = Some {[ "id" := "search" ]} ∧
    Router.handle
      {| Router.path := "/search"; Router.authorization := Some "Bearer secret";
         Router.query := {| Routes.q := Some (Str "city");
                            Routes.amenities := Some (Str "pool, sauna") |} |} st
    = Some (Some response, st') ∧
    Routes.status response = 200 ∧
    Router.handle
      {| Router.path := "/search"; Router.authorization := None;
         Router.query := {| Routes.q := Some (Str "city");
                            Routes.amenities := Some (Str "pool, sauna") |} |} st
    = Some (Some refusal, st) ∧
    Routes.status refusal = 401.
Proof.
  destruct (constructor_indexed scenario) as (st & Hc & _ & _ & Hi).
  destruct (X11_search_route_answers st
              {| Router.path := "/search"; Router.authorization := Some "Bearer secret";
                 Router.query := {| Routes.q := Some (Str "city");
                                    Routes.amenities := Some (Str "pool, sauna") |} |} Hi)
    as (response & st' & Hrun & _ & _ & Hstatus); [by eexists|].
  destruct (X11_search_route_answers st
              {| Router.path := "/search"; Router.authorization := None;
                 Router.query := {| Routes.q := Some (Str "city");
                                    Routes.amenities := Some (Str "pool, sauna") |} |} Hi)
    as (refusal & st'' & Hrun' & _ & _ & Hrefusal & ->); [by eexists|].
  exists st, response, st', refusal. split; [exact Hc|]. split; [reflexivity|].
  split; [exact Hrun|]. split; [exact Hstatus|]. split; [exact Hrun'|].
  by rewrite Hrefusal.
Defined.

(** X12.  A request that the router matches with [/search], whose
    authorization header [authMiddleware] accepts, with a valid [q] and an
    [amenities] parameter that names at least one label, is answered 200 with
    the results of [searchByName(q)], in their order, restricted to the
    identifiers that [filterByAmenities] returns for the trimmed non-empty
    labels; [count] is their number. *)
Theorem X12_search_route_conjunction `{Collator} `{Validator} `{Auth} `{Express}
    (st : State) (req : Router.Request) (user : User) (q amenities : string) :
  indexed st →
  is_Some (matchPath "/search" (Router.path req)) →
  Middleware.authMiddleware (Router.authorization req) = Middleware.Next user →
  Router.query req = {| Routes.q := Some (Str q); Routes.amenities := Some (Str amenities) |} →
  1 ≤ String.length q ≤ 100 →
  amenityList amenities ≠ [] →
  ∃ found s1 filtered s2 st',
    FacilityService.searchByName q st = Some (found, s1) ∧
    FacilityService.filterByAmenities (amenityList amenities) st = Some (filtered, s2) ∧
    Router.handle req st
    = Some (Some (Routes.json
              (Routes.SearchResults q
                 (length (filter (λ r, FacilitySearchResult.id r ∈ ids filtered) found))
                 (filter (λ r, FacilitySearchResult.id r ∈ ids filtered) found))), st').
Proof.
  intros Hi [params Hm] Hauth Hquery [Hlo Hhi] Ham.
  assert (Routes.searchQuerySchema (Router.query req) = Some (q, Some amenities)) as Hs.
  { rewrite Hquery. unfold Routes.searchQuerySchema. cbn [Routes.q Routes.amenities].
    apply Nat.leb_le in Hlo, Hhi. by rewrite Hlo, Hhi. }
  destruct (search_filtered _ q amenities st Hi Hs Ham)
    as (found & s1 & filtered & s2 & st' & Hrun & Hfil & Hroute & _).
  exists found, s1, filtered, s2, st'. split; [done|]. split; [done|].
  by rewrite (handle_search req st params Hm), Hauth, Hroute.
Qed.

Lemma X12_search_route_conjunction_witness :
  ∃ st response st',
    FacilityService.constructor scenario = Some st ∧
    Router.handle
      {| Router.path := "/search"; Router.authorization := Some "Bearer secret";
         Router.query := {| Routes.q := Some (Str "city");
                            Routes.amenities := Some (Str " Sauna ,") |} |} st
    = Some (Some response, st') ∧
    Routes.status response = 200.
Proof.
  destruct (constructor_indexed scenario) as (st & Hc & _ & _ & Hi).
  destruct (@X12_search_route_conjunction codeUnitCollator noIssues oneToken literalPaths st
              {| Router.path := "/search"; Router.authorization := Some "Bearer secret";
                 Router.query := {| Routes.q := Some (Str "city");
                                    Routes.amenities := Some (Str " Sauna ,") |} |}
              "user-123" "city" " Sauna ," Hi)
    as (found & s1 & filtered & s2 & st' & _ & _ & Hrun).
  - by eexists.
  - reflexivity.
  - reflexivity.
  - simpl. lia.
  - vm_compute. discriminate.
  - eexists st, _, st'. split; [exact Hc|]. split; [exact Hrun|]. reflexivity.
Defined.

(** X15.  A request handed to the router whose path matches [/:id] and not
    [/search], the route registered before it, is answered by the facility
    route, never with status 500 and without a change of the service: with
    401 and the error of the middleware when [authMiddleware] turns the
    authorization header down; otherwise, [id] being the parameter, with 404
    and the identifier in the message when no record of the input carries
    [id], with 200 and the last record of the input that carries [id] when
    one does, and with 400 when the parameter is empty or missing (which the
    matching of Express does not produce). *)
Theorem X15_facility_route `{Collator} `{Validator} `{Auth} `{Express}
    (data : list Facility.t) (req : Router.Request) (params : gmap string string) :
  matchPath "/search" (Router.path req) = None →
  matchPath "/:id" (Router.path req) = Some params →
  ∃ st response,
    FacilityService.constructor data = Some st ∧
    Router.handle req st = Some (Some response, st) ∧
    match Middleware.authMiddleware (Router.authorization req) with
    | Middleware.Unauthorized error message =>
        response = Routes.statusJson 401 (Routes.Failure error message)
    | Middleware.Next _ =>
        match params !! "id" with
        | None => Routes.status response = 400
        | Some id =>
            (id = "" → Routes.status response = 400) ∧
            (id ≠ "" → (∀ f, f ∈ data → Facility.id f ≠ id) →
               response = Routes.statusJson 404
                            (Routes.Failure "Facility not found"
                               ("No facility found with ID: " +:+ id))) ∧
            (∀ pre f post, id ≠ "" → data = pre ++ f :: post → Facility.id f = id →
               (∀ g, g ∈ post → Facility.id g ≠ id) →
               response = Routes.json (Routes.FacilityDetail f))
        end
    end.
Proof.
  intros Hs Hm. destruct (constructor_built data) as (st & Hc & Hb & Hf). exists st.
  rewrite (handle_facility req st params Hs Hm).
  destruct (Middleware.authMiddleware (Router.authorization req)) as [user|error message];
    [|by eexists].
  unfold Routes.getFacility, Routes.facilityIdSchema.
  destruct (params !! "id") as [id|]; [|by eexists].
  destruct id as [|c id].
  - eexists. split; [done|]. split; [reflexivity|]. split; [done|].
    split; [done|]. intros ? ? ? []. done.
  - cbn [String.length Nat.leb]. unfold tryCatch, bind.
    rewrite getById_spec. cbn [Js.nonEmpty]. rewrite (built_ids _ _ Hb).
    destruct (idMap data !! String c id) as [g|] eqn:Hg.
    + eexists. split; [done|]. split; [reflexivity|]. split; [done|].
      destruct (idMap_lookup_Some _ _ _ Hg) as [Hid Hin]. split.
      * intros _ Hnone. by destruct (Hnone g Hin).
      * intros pre f post _ -> Hfid Hpost. rewrite <- Hfid in Hg, Hpost.
        rewrite idMap_last in Hg by done. by injection Hg as ->.
    + eexists. split; [done|]. split; [reflexivity|]. split; [done|].
      split; [done|]. intros pre f post _ -> Hfid _.
      rewrite idMap_lookup_None in Hg. destruct (Hg f); [|done].
      rewrite elem_of_app, elem_of_cons. auto.
Qed.

Lemma X15_facility_route_witness :
  ∃ st response,
    FacilityService.constructor scenario = Some st ∧
    Router.handle
      {| Router.path := "/f2"; Router.authorization := Some "Bearer secret";
         Router.query := {| Routes.q := None; Routes.amenities := None |} |} st
    = Some (Some response, st) ∧
    response = Routes.json (Routes.FacilityDetail (facility "f2" "City Gym Plus" ["Pool"])).
Proof.
  destruct (X15_facility_route scenario
              {| Router.path := "/f2"; Router.authorization := Some "Bearer secret";
                 Router.query := {| Routes.q := None; Routes.amenities := None |} |}
              {[ "id" := "f2" ]})
    as (st & response & Hc & Hrun & Hanswer); [reflexivity..|].
  exists st, response. split; [exact Hc|]. split; [exact Hrun|].
  cbn in Hanswer. rewrite lookup_singleton_eq in Hanswer.
  destruct Hanswer as (_ & _ & Hfound).
  apply (Hfound [facility "f1" "City Fitness Central" ["Pool"; "Sauna"]] _ []);
    [discriminate|reflexivity|reflexivity|].
  by intros g ?%elem_of_nil.
Defined.

(** ** The search route and a blank query *)

(** X25.  A [q] of white space only passes the validation of the search
    route: a request that the router matches with [/search], whose
    authorization header [authMiddleware] accepts, with such a [q] of 1 to
    100 code units and an [amenities] parameter that is absent or a string,
    is answered 200 with no result and [count] 0, not 400. *)
Theorem X25_search_route_blank_q `{Collator} `{Validator} `{Auth} `{Express}
    (st : State) (req : Router.Request) (user : User)
    (q : string) (amenities : option string) :
  indexed st →
  is_Some (matchPath "/search" (Router.path req)) →
  Middleware.authMiddleware (Router.authorization req) = Middleware.Next user →
  Router.query req = {| Routes.q := Some (Str q); Routes.amenities := Str <$> amenities |} →
  1 ≤ String.length q ≤ 100 →
  allSpace q →
  ∃ st',
    Router.handle req st = Some (Some (Routes.json (Routes.SearchResults q 0 [])), st').
Proof.
  intros Hi [params Hm] Hauth Hquery [Hlo Hhi] Hq.
  assert (Routes.searchQuerySchema (Router.query req) = Some (q, amenities)) as Hs.
  { rewrite Hquery. unfold Routes.searchQuerySchema. cbn [Routes.q Routes.amenities].
    apply Nat.leb_le in Hlo, Hhi. rewrite Hlo, Hhi. by destruct amenities. }
  pose proof (searchByName_allSpace st q Hq) as Hblank.
  rewrite (handle_search req st params Hm), Hauth.
  destruct (decide (from_option amenityList [] amenities = [])) as [Ham|Ham].
  - destruct (search_plain _ q amenities st Hi Hs Ham) as (found & st' & Hrun & Hroute & _).
    rewrite Hblank in Hrun. injection Hrun as <- <-. exists st. by rewrite Hroute.
  - destruct amenities as [a|]; [|done].
    destruct (search_filtered _ q a st Hi Hs Ham)
      as (found & s1 & filtered & s2 & st' & Hrun & _ & Hroute & _).
    rewrite Hblank in Hrun. injection Hrun as <- <-. exists st'. by rewrite Hroute.
Qed.

Lemma X25_search_route_blank_q_witness :
  ∃ st st',
    FacilityService.constructor scenario = Some st ∧
    Router.handle
      {| Router.path := "/search"; Router.authorization := Some "Bearer secret";
         Router.query := {| Routes.q := Some (Str "  ");
                            Routes.amenities := Some (Str "pool") |} |} st
    = Some (Some (Routes.json (Routes.SearchResults "  " 0 [])), st').
Proof.
  destruct (constructor_indexed scenario) as (st & Hc & _ & _ & Hi).
  destruct (@X25_search_route_blank_q codeUnitCollator noIssues oneToken literalPaths st
              {| Router.path := "/search"; Router.authorization := Some "Bearer secret";
                 Router.query := {| Routes.q := Some (Str "  ");
                                    Routes.amenities := Some (Str "pool") |} |}
              "user-123" "  " (Some "pool") Hi) as (st' & Hrun).
  - by eexists.
  - reflexivity.
  - reflexivity.
  - simpl. lia.
  - unfold allSpace. simpl. repeat constructor.
  - exists st, st'. split; [exact Hc|exact Hrun].
Defined.
